(** * SimpleRAG: the hybrid retrieval and ranking engine

    A shallow embedding of
    - [app/services/hybrid_retrieval.py] (tokenizer, query expansion, BM25
      search, weighted fusion),
    - [app/services/vector_store.py] (the count guard of [index_messages]),
    - [app/services/llm_service.py] ([_determine_confidence]),
    with the properties the design document states about them.

    Conventions of the embedding:
    - a Python [float] of the retrieval scores is a rational number [Q]
      (exact arithmetic; rounding is not modelled); the confidence
      estimate, which compares a rounded mean with thresholds, computes
      on binary64 numbers, a [Q] standing for the nearest of them;
    - a Python [str] is a [string] whose characters are the code points
      below 256, one [ascii] per code point;
    - a [dict] used as a map from ids to scores is a [gmap string Q], a
      [set] of ids or tokens is a [gset string]; iterating over a set
      visits [elements], some fixed order without repetitions;
    - result dictionaries that are shared between caller and callee live
      in a heap (a list indexed by address);
    - a method is a computation in a state-and-exception monad: it
      receives the state, returns the state, and either a value or the
      exception it raised. *)

From Stdlib Require Import QArith Lqa Ascii String Floats.
From stdpp Require Import gmap strings list fin_maps sorting.

Local Open Scope Q_scope.
Set Warnings "-inexact-float".

(** ** Exceptions and the method monad *)

Inductive exn : Type :=
| ZeroDivisionError
| IndexError
| TypeError
| AttributeError.

Inductive outcome (A : Type) : Type :=
| Ok (a : A)
| Raise (e : exn).
Arguments Ok {A} a.
Arguments Raise {A} e.

(** A method over a state [S]: the state after the call is returned also
    when the call raises, because assignments made before the [raise]
    stay. *)
Definition M (S A : Type) : Type := S → outcome A * S.

Definition ret {S A} (a : A) : M S A := λ s, (Ok a, s).
Definition raise {S A} (e : exn) : M S A := λ s, (Raise e, s).
Definition bind {S A B} (m : M S A) (k : A → M S B) : M S B :=
  λ s, match m s with
       | (Ok a, s') => k a s'
       | (Raise e, s') => (Raise e, s')
       end.
Definition get {S} : M S S := λ s, (Ok s, s).
Definition put {S} (s : S) : M S unit := λ _, (Ok tt, s).
Definition lift {S A} (o : outcome A) : M S A := λ s, (o, s).

Declare Scope py_scope.
Delimit Scope py_scope with py.
Notation "x <- m ;; k" := (bind m (λ x, k))
  (at level 100, m at next level, right associativity) : py_scope.
Notation "m ;;; k" := (bind m (λ _, k))
  (at level 100, right associativity) : py_scope.

(** Pure exception-only sequencing, for the parts of a method that touch
    no state. *)
Definition obind {A B} (o : outcome A) (k : A → outcome B) : outcome B :=
  match o with
  | Ok a => k a
  | Raise e => Raise e
  end.

(** ** Python built-ins used by the services *)

(** [l[:k]] for any integer [k]: a negative [k] counts from the end. *)
Definition slice_to {A} (k : Z) (l : list A) : list A :=
  if (0 <=? k)%Z then take (Z.to_nat k) l
  else take (length l - Z.to_nat (- k)) l.

(** [a < b] and [a > b] on floats. *)
Definition Qltb (a b : Q) : bool := negb (Qle_bool b a).

(** [max(values)]; [None] stands for the [ValueError] on an empty
    sequence, which every call site guards against. *)
Fixpoint py_max (l : list Q) : option Q :=
  match l with
  | [] => None
  | x :: l' =>
      match py_max l' with
      | None => Some x
      | Some m => Some (if Qltb x m then m else x)
      end
  end.

(** [a / b] on floats. *)
Definition py_div (a b : Q) : outcome Q :=
  if Qeq_bool b 0 then Raise ZeroDivisionError else Ok (a / b).

(** A stable sort by insertion: [x] goes before the first [y] with
    [le x y], so elements that compare equal keep their input order. *)
Section StableSort.
Context {A : Type} (le : A → A → bool).

Fixpoint insert_sorted (x : A) (l : list A) : list A :=
  match l with
  | [] => [x]
  | y :: l' => if le x y then x :: y :: l' else y :: insert_sorted x l'
  end.

Fixpoint stable_sort (l : list A) : list A :=
  match l with
  | [] => []
  | x :: l' => insert_sorted x (stable_sort l')
  end.
End StableSort.

(** [sorted(l, key=key, reverse=True)]: descending by key; "the reverse
    parameter still maintains sort stability". *)
Definition sorted_reverse {A} (key : A → Q) (l : list A) : list A :=
  stable_sort (λ x y, Qle_bool (key y) (key x)) l.

(** [np.argsort(scores)]: the indices that sort [scores] ascending. The
    default kind is not stable: numpy promises a permutation of the
    positions that puts the scores in ascending order, and nothing about
    the order of positions with equal scores, which differs between
    numpy builds. The retriever is stated over every function with that
    contract. *)
Class Argsort : Type := {
  argsort : list Q → list nat;
  argsort_perm : ∀ scores, argsort scores ≡ₚ seq 0 (length scores);
  argsort_sorted : ∀ scores,
    StronglySorted
      (λ i j, default 0 (scores !! i) <= default 0 (scores !! j))
      (argsort scores)
}.

(** Two functions with the contract. The stable one keeps positions
    with equal scores in increasing order ([kind='stable']; numpy's
    introsort does the same on short inputs where it is an insertion
    sort). The other one puts them in decreasing order. *)
Definition stable_argsort (scores : list Q) : list nat :=
  stable_sort
    (λ i j, Qle_bool (default 0 (scores !! i)) (default 0 (scores !! j)))
    (seq 0 (length scores)).

Definition backward_argsort (scores : list Q) : list nat :=
  reverse
    (stable_sort
       (λ i j, Qle_bool (default 0 (scores !! j)) (default 0 (scores !! i)))
       (seq 0 (length scores))).

(** ** Strings *)

Definition ord (c : ascii) : N := N_of_ascii c.
Definition chr (n : N) : ascii := ascii_of_N n.
Definition between (lo hi n : N) : bool := ((lo <=? n) && (n <=? hi))%N.

Fixpoint str_map (f : ascii → ascii) (s : string) : string :=
  match s with
  | EmptyString => EmptyString
  | String c s' => String (f c) (str_map f s')
  end.

Fixpoint str_forall (p : ascii → bool) (s : string) : bool :=
  match s with
  | EmptyString => true
  | String c s' => p c && str_forall p s'
  end.

(** [str.isspace] on one code point, which is also the class [\s] of [re]
    and the separator of [str.split()]: TAB..CR, FS..US, SPACE, NEL and
    NBSP are the white space below 256. *)
Definition isspace (c : ascii) : bool :=
  let n := ord c in
  between 9 13 n || between 28 32 n || (n =? 133)%N || (n =? 160)%N.

(** [str.isalnum] on one code point: a letter, a decimal digit, or another
    digit or numeric character. Below 256 the letters are A-Z, a-z, the
    ordinal indicators, the micro sign and the accented letters of
    Latin-1; the digits are 0-9 and the superscripts; the other numerics
    are the vulgar fractions. *)
Definition isalpha (c : ascii) : bool :=
  let n := ord c in
  between 65 90 n || between 97 122 n
  || (n =? 170)%N || (n =? 181)%N || (n =? 186)%N
  || between 192 214 n || between 216 246 n || between 248 255 n.

Definition isnumeric (c : ascii) : bool :=
  let n := ord c in
  between 48 57 n
  || (n =? 178)%N || (n =? 179)%N || (n =? 185)%N
  || between 188 190 n.

Definition isalnum (c : ascii) : bool := isalpha c || isnumeric c.

(** The class [\w] of [re] on a [str] pattern: alphanumerics and the
    underscore. *)
Definition re_word (c : ascii) : bool := isalnum c || (ord c =? 95)%N.

(** [str.lower] on one code point: A-Z and the capital letters of
    Latin-1 (all of 192..222 but the multiplication sign) move up by 32. *)
Definition lower_char (c : ascii) : ascii :=
  let n := ord c in
  if between 65 90 n || between 192 214 n || between 216 222 n
  then chr (n + 32)
  else c.

Definition lower (s : string) : string := str_map lower_char s.

(** [str.split()]: the maximal runs of characters that are not white
    space. [cur] is the run being read. *)
Definition flush (cur : string) : list string :=
  match cur with
  | EmptyString => []
  | _ => [cur]
  end.

Fixpoint split_from (cur : string) (s : string) : list string :=
  match s with
  | EmptyString => flush cur
  | String c s' =>
      if isspace c then flush cur ++ split_from EmptyString s'
      else split_from (cur +:+ String c EmptyString) s'
  end.

Definition split (s : string) : list string := split_from EmptyString s.

(** [re.sub(r'[^\w\s]', ' ', s)]: the pattern matches one character at a
    time, so the substitution is a map over the characters. *)
Definition re_sub_punct_space (s : string) : string :=
  str_map (λ c, if re_word c || isspace c then c else " "%char) s.

(** [HybridRetriever._tokenize] *)
Definition _tokenize (text : string) : list string :=
  split (re_sub_punct_space (lower text)).

(** The tokenization rule in the words of the design document: lowercase,
    replace every character outside [[A-Za-z0-9_]] and white space with a
    space, split on white space. *)
Definition spec_word (c : ascii) : bool :=
  let n := ord c in
  between 65 90 n || between 97 122 n || between 48 57 n || (n =? 95)%N.

Definition tokenize_spec (text : string) : list string :=
  split (str_map (λ c, if spec_word c || isspace c then c else " "%char)
                 (lower text)).

Definition is_ascii (s : string) : bool :=
  str_forall (λ c, (ord c <? 128)%N) s.


(** ** The lexical index and the fusion ranker ([hybrid_retrieval.py]) *)

(** [QUERY_EXPANSIONS] *)
Definition QUERY_EXPANSIONS : gmap string (list string) :=
  list_to_map
    [ ("trip", ["trip"; "travel"; "journey"; "visit"; "stay"]);
      ("planning", ["planning"; "scheduled"; "booking"; "arranging"; "organizing"]);
      ("when", ["when"; "date"; "time"; "schedule"]);
      ("favorite", ["favorite"; "preferred"; "love"; "like"; "enjoy"]);
      ("restaurant", ["restaurant"; "dining"; "eatery"; "cuisine"]);
      ("car", ["car"; "vehicle"; "automobile"; "transportation"]);
      ("have", ["have"; "own"; "possess"]) ]%string.

(** The loop of [search_bm25] that fills [expanded_tokens]: each token,
    followed by its synonyms when the table has it. *)
Fixpoint expanded_tokens (tokenized_query : list string) : list string :=
  match tokenized_query with
  | [] => []
  | token :: rest =>
      (token :: default [] (QUERY_EXPANSIONS !! token)) ++ expanded_tokens rest
  end.

(** [list(set(expanded_tokens))] *)
Definition expand_query (tokenized_query : list string) : list string :=
  elements (list_to_set (expanded_tokens tokenized_query) : gset string).

(** A result dictionary of the fusion: the keys the route and the lexical
    fallback give it, and the three score keys [hybrid_search] writes.
    [None] is an absent key. *)
Record pydict : Type := Pydict {
  d_id : string;
  d_document : string;
  d_user_name : string;
  d_timestamp : string;
  d_distance : option Q;
  d_hybrid_score : option Q;
  d_bm25_score : option Q;
  d_semantic_score : option Q
}.

Global Instance pydict_inhabited : Inhabited pydict :=
  populate (Pydict "" "" "" "" None None None None).

(** Dictionaries are objects: a list of results holds their addresses. *)
Abbreviation addr := nat.
Abbreviation heap := (list pydict).

(** [app.models.schemas.Message]; [datetime] is kept abstract. *)
Record Message {datetime : Type} : Type := {
  msg_id : string;
  msg_user_id : string;
  msg_user_name : string;
  msg_timestamp : datetime;
  msg_message : string
}.
Arguments Message : clear implicits.

Section Retrieval.
(** The [isoformat] method of [datetime]. *)
Context {datetime : Type} (isoformat : datetime → string).

(** The score [rank_bm25] gives one document of a corpus for a query.
    The library is not part of the repository; its scoring formula is a
    parameter. *)
Context (bm25_score : list (list string) → list string → list string → Q).

(** The sort that [np.argsort] is. *)
Context {np_sort : Argsort}.

(** The [BM25Okapi] object keeps the statistics of its corpus, all
    derived from the token lists. Its constructor divides by the corpus
    size and by the vocabulary size, so a corpus without any token
    raises. *)
Record BM25Okapi : Type := { bm_corpus : list (list string) }.

Definition BM25Okapi_new (corpus : list (list string)) : outcome BM25Okapi :=
  if forallb (λ doc, bool_decide (doc = [])) corpus
  then Raise ZeroDivisionError
  else Ok {| bm_corpus := corpus |}.

(** [BM25Okapi.get_scores]: one score per document of the corpus. *)
Definition get_scores (bm25 : BM25Okapi) (query : list string) : list Q :=
  map (bm25_score (bm_corpus bm25) query) (bm_corpus bm25).

Record HybridRetriever : Type := {
  _bm25 : option BM25Okapi;
  _messages : option (list (Message datetime));
  _tokenized_corpus : option (list (list string))
}.

(** [HybridRetriever.__init__] *)
Definition HybridRetriever_init : HybridRetriever :=
  {| _bm25 := None; _messages := None; _tokenized_corpus := None |}.

(** [HybridRetriever.index_messages]: three assignments to [self], in
    the order of the source; the constructor of the index may raise
    after the first two. *)
Definition index_messages (messages : list (Message datetime)) : M HybridRetriever unit :=
  (self <- get ;;
   put {| _bm25 := _bm25 self;
          _messages := Some messages;
          _tokenized_corpus := _tokenized_corpus self |} ;;;
   let tokenized_corpus :=
     map (λ msg, _tokenize (msg_user_name msg +:+ " " +:+ msg_message msg))
         messages in
   self <- get ;;
   put {| _bm25 := _bm25 self;
          _messages := _messages self;
          _tokenized_corpus := Some tokenized_corpus |} ;;;
   bm25 <- lift (BM25Okapi_new tokenized_corpus) ;;
   self <- get ;;
   put {| _bm25 := Some bm25;
          _messages := _messages self;
          _tokenized_corpus := _tokenized_corpus self |})%py.

(** A result dictionary of [search_bm25]. *)
Record BM25Result : Type := {
  r_message : Message datetime;
  r_bm25_score : Q;
  r_id : string;
  r_user_name : string;
  r_document : string;
  r_timestamp : string
}.

Definition bm25_result (msg : Message datetime) (score : Q) : BM25Result :=
  {| r_message := msg;
     r_bm25_score := score;
     r_id := msg_id msg;
     r_user_name := msg_user_name msg;
     r_document := msg_message msg;
     r_timestamp := isoformat (msg_timestamp msg) |}.

(** The loop of [search_bm25] over [top_indices]. [scores[idx]] and
    [self._messages[idx]] raise when out of range, and subscripting
    [None] is a [TypeError]. *)
Fixpoint collect_results (messages : option (list (Message datetime))) (scores : list Q)
    (top_indices : list nat) : outcome (list BM25Result) :=
  match top_indices with
  | [] => Ok []
  | idx :: rest =>
      match scores !! idx with
      | None => Raise IndexError
      | Some score =>
          if Qltb 0 score then
            match messages with
            | None => Raise TypeError
            | Some msgs =>
                match msgs !! idx with
                | None => Raise IndexError
                | Some msg =>
                    obind (collect_results messages scores rest)
                          (λ results, Ok (bm25_result msg score :: results))
                end
            end
          else collect_results messages scores rest
      end
  end.

(** [np.argsort(scores)[::-1][:top_k]] *)
Definition top_indices (scores : list Q) (top_k : Z) : list nat :=
  slice_to top_k (reverse (argsort scores)).

(** [HybridRetriever.search_bm25] *)
Definition search_bm25 (query : string) (top_k : Z) (use_expansion : bool)
  : M HybridRetriever (list BM25Result) :=
  (self <- get ;;
   match _bm25 self with
   | None => ret []
   | Some bm25 =>
       let tokenized_query := _tokenize query in
       let tokenized_query :=
         if use_expansion then expand_query tokenized_query
         else tokenized_query in
       let scores := get_scores bm25 tokenized_query in
       lift (collect_results (_messages self) scores (top_indices scores top_k))
   end)%py.

(** The state of a fusion: the retriever and the heap that holds the
    caller's result dictionaries. *)
Record World : Type := { w_self : HybridRetriever; w_heap : heap }.

Definition on_self {A} (m : M HybridRetriever A) : M World A :=
  λ w, let (o, self) := m (w_self w) in
       (o, {| w_self := self; w_heap := w_heap w |}).

(** [{r['id']: r['bm25_score'] for r in bm25_results}]: a later result
    with the same id replaces an earlier one. *)
Definition bm25_score_dict (bm25_results : list BM25Result) : gmap string Q :=
  foldl (λ scores r, <[r_id r := r_bm25_score r]> scores) ∅ bm25_results.

(** The loop that turns distances into similarities. *)
Fixpoint semantic_score_dict (h : heap) (semantic_results : list addr)
    (semantic_scores : gmap string Q) : outcome (gmap string Q) :=
  match semantic_results with
  | [] => Ok semantic_scores
  | r :: rest =>
      let msg_id := d_id (h !!! r) in
      let distance := default 2 (d_distance (h !!! r)) in
      obind (py_div 1 (1 + distance))
            (λ similarity,
               semantic_score_dict h rest (<[msg_id := similarity]> semantic_scores))
  end.

(** [if scores: max_ = max(scores.values());
     scores = {k: v / max_ for k, v in scores.items()}] *)
Definition normalize (scores : gmap string Q) : outcome (gmap string Q) :=
  match py_max (map_to_list scores).*2 with
  | None => Ok scores
  | Some max_ =>
      if Qeq_bool max_ 0 then Raise ZeroDivisionError
      else Ok ((λ v, v / max_) <$> scores)
  end.

(** [scores.get(msg_id, 0.0)] *)
Definition get_score (scores : gmap string Q) (msg_id : string) : Q :=
  default 0 (scores !! msg_id).

Definition combined_score (bm25_weight : Q)
    (bm25_scores semantic_scores : gmap string Q) (msg_id : string) : Q :=
  bm25_weight * get_score bm25_scores msg_id
  + (1 - bm25_weight) * get_score semantic_scores msg_id.

(** The loop over [all_ids] that fills [combined_scores]. *)
Definition combine (bm25_weight : Q)
    (bm25_scores semantic_scores : gmap string Q) (all_ids : list string)
  : gmap string Q :=
  foldl (λ combined_scores msg_id,
           <[msg_id := combined_score bm25_weight bm25_scores semantic_scores msg_id]>
             combined_scores)
        ∅ all_ids.

(** [sorted(combined_scores.keys(), key=..., reverse=True)[:top_k]].
    The keys of a dict come in insertion order, here the order in which
    the loop visited [all_ids]; [combined_scores[x]] is defined on each
    of them. *)
Definition sorted_ids (combined_scores : gmap string Q) (keys : list string)
    (top_k : Z) : list string :=
  slice_to top_k (sorted_reverse (get_score combined_scores) keys).

(** The two searches of the result loop: the first dense result with
    the id, the first lexical result with the id. *)
Fixpoint find_semantic (h : heap) (semantic_results : list addr)
    (msg_id : string) : option addr :=
  match semantic_results with
  | [] => None
  | r :: rest =>
      if bool_decide (d_id (h !!! r) = msg_id) then Some r
      else find_semantic h rest msg_id
  end.

Fixpoint find_lexical (bm25_results : list BM25Result) (msg_id : string)
  : option BM25Result :=
  match bm25_results with
  | [] => None
  | r :: rest =>
      if bool_decide (r_id r = msg_id) then Some r
      else find_lexical rest msg_id
  end.

(** The dictionary built from a lexical result, with its placeholder
    distance. *)
Definition fallback_dict (r : BM25Result) : pydict :=
  {| d_id := r_id r;
     d_document := r_document r;
     d_user_name := r_user_name r;
     d_timestamp := r_timestamp r;
     d_distance := Some (1 # 2);
     d_hybrid_score := None;
     d_bm25_score := None;
     d_semantic_score := None |}.

(** The three item assignments on [msg_data]. *)
Definition set_scores (hybrid bm25 semantic : Q) (d : pydict) : pydict :=
  {| d_id := d_id d;
     d_document := d_document d;
     d_user_name := d_user_name d;
     d_timestamp := d_timestamp d;
     d_distance := d_distance d;
     d_hybrid_score := Some hybrid;
     d_bm25_score := Some bm25;
     d_semantic_score := Some semantic |}.

Section ResultLoop.
Context (semantic_results : list addr) (bm25_results : list BM25Result)
        (combined_scores bm25_scores semantic_scores : gmap string Q).

(** One iteration of the loop that builds [results]: find [msg_data]
    (a dense dictionary itself, or a new dictionary for a lexical
    result), write the scores into it, append it. A dictionary that was
    found has keys, so [if not msg_data] and [if msg_data] only test
    whether one was found. *)
Definition result_step (st : heap * list addr) (msg_id : string)
  : heap * list addr :=
  let (h, results) := st in
  let msg_data :=
    match find_semantic h semantic_results msg_id with
    | Some r => Some (r, h)
    | None =>
        match find_lexical bm25_results msg_id with
        | Some r => Some (length h, h ++ [fallback_dict r])
        | None => None
        end
    end in
  match msg_data with
  | Some (a, h) =>
      (alter (set_scores (get_score combined_scores msg_id)
                         (get_score bm25_scores msg_id)
                         (get_score semantic_scores msg_id)) a h,
       results ++ [a])
  | None => (h, results)
  end.

Definition result_loop (h : heap) (ids : list string) : heap * list addr :=
  foldl result_step (h, []) ids.
End ResultLoop.

(** [HybridRetriever.hybrid_search] *)
Definition hybrid_search (query : string) (semantic_results : list addr)
    (bm25_weight : Q) (top_k : Z) : M World (list addr) :=
  (bm25_results <- on_self (search_bm25 query 100 true) ;;
   let bm25_scores := bm25_score_dict bm25_results in
   w <- get ;;
   semantic_scores <- lift (semantic_score_dict (w_heap w) semantic_results ∅) ;;
   bm25_scores <- lift (normalize bm25_scores) ;;
   semantic_scores <- lift (normalize semantic_scores) ;;
   let all_ids := elements (dom bm25_scores ∪ dom semantic_scores) in
   let combined_scores :=
     combine bm25_weight bm25_scores semantic_scores all_ids in
   let ids := sorted_ids combined_scores all_ids top_k in
   let (h, results) :=
     result_loop semantic_results bm25_results
                 combined_scores bm25_scores semantic_scores (w_heap w) ids in
   put {| w_self := w_self w; w_heap := h |} ;;;
   ret results)%py.
End Retrieval.

(** ** The dense index ([vector_store.py]) *)

Section VectorStore.
Context {datetime : Type} (isoformat strftime_BdY : datetime → string).

(** [%B %d, %Y] is the only format the store asks for. *)

Record Metadata : Type := {
  md_user_id : string;
  md_user_name : string;
  md_timestamp : string;
  md_original_message : string
}.

(** The chromadb collection is an opaque service: its entry count and its
    [add] are parameters. [add] may refuse a batch. A collection that
    was never created is the empty one, which is what
    [get_or_create_collection] hands out. *)
Context {Collection : Type}.
Context (collection_count : Collection → nat).
Context (collection_add :
           list string → list (list Q) → list string → list Metadata →
           Collection → outcome Collection).

Inductive client_handle : Type := PersistentClient.
Inductive collection_handle : Type := CollectionHandle.

(** The store object, and the collection persisted under the configured
    path and name, which the handle designates. *)
Record VectorStore : Type := {
  _client : option client_handle;
  _collection : option collection_handle;
  persisted : Collection
}.

(** [VectorStore.initialize] when the chromadb calls return;
    [initialize_with], further down, has the calls that raise. *)
Definition initialize : M VectorStore unit :=
  (self <- get ;;
   match _client self with
   | Some _ => ret tt
   | None =>
       put {| _client := Some PersistentClient;
              _collection := _collection self;
              persisted := persisted self |} ;;;
       self <- get ;;
       put {| _client := _client self;
              _collection := Some CollectionHandle;
              persisted := persisted self |}
   end)%py.

(** [self._collection.count()] *)
Definition count : M VectorStore nat :=
  (self <- get ;;
   match _collection self with
   | None => raise AttributeError
   | Some _ => ret (collection_count (persisted self))
   end)%py.

(** [self._collection.add(...)] *)
Definition add (ids : list string) (embeddings : list (list Q))
    (documents : list string) (metadatas : list Metadata) : M VectorStore unit :=
  (self <- get ;;
   match _collection self with
   | None => raise AttributeError
   | Some _ =>
       c <- lift (collection_add ids embeddings documents metadatas
                                 (persisted self)) ;;
       put {| _client := _client self;
              _collection := _collection self;
              persisted := c |}
   end)%py.

(** [l[i:j]] for [0 <= i <= j] *)
Definition slice {A} (i j : nat) (l : list A) : list A :=
  take (j - i) (drop i l).

(** [range(0, n, step)] *)
Definition range_step (n step : nat) : list nat :=
  map (λ k, k * step)%nat (seq 0 ((n + (step - 1)) / step)).

Section Indexing.
Definition enriched_document (msg : Message datetime) : string :=
  msg_user_name msg +:+ " (" +:+ strftime_BdY (msg_timestamp msg) +:+ "): "
  +:+ msg_message msg.

Definition metadata_of (msg : Message datetime) : Metadata :=
  {| md_user_id := msg_user_id msg;
     md_user_name := msg_user_name msg;
     md_timestamp := isoformat (msg_timestamp msg);
     md_original_message := msg_message msg |}.

(** The batch loop of [index_messages]. *)
Fixpoint add_batches (n : nat) (ids : list string)
    (embeddings : list (list Q)) (documents : list string)
    (metadatas : list Metadata) (starts : list nat) : M VectorStore unit :=
  match starts with
  | [] => ret tt
  | i :: rest =>
      let end_idx := Nat.min (i + 100) n in
      (add (slice i end_idx ids) (slice i end_idx embeddings)
           (slice i end_idx documents) (slice i end_idx metadatas) ;;;
       add_batches n ids embeddings documents metadatas rest)%py
  end.

(** [VectorStore.index_messages] *)
Definition vs_index_messages (messages : list (Message datetime))
    (embeddings : list (list Q)) : M VectorStore unit :=
  (self <- get ;;
   (match _collection self with
    | None => initialize
    | Some _ => ret tt
    end) ;;;
   current_count <- count ;;
   if (length messages <=? current_count)%nat then ret tt
   else
     let ids := map msg_id messages in
     let documents := map enriched_document messages in
     let metadatas := map metadata_of messages in
     add_batches (length messages) ids embeddings documents metadatas
                 (range_step (length messages) 100))%py.
End Indexing.

(** [VectorStore.get_count] *)
Definition get_count (self : VectorStore) : nat :=
  match _collection self with
  | None => 0%nat
  | Some _ => collection_count (persisted self)
  end.
End VectorStore.

(** ** The confidence estimator ([llm_service.py]) *)

(** A context message as the route hands it to the synthesizer. *)
Record context_message : Type := {
  c_document : string;
  c_user_name : string;
  c_timestamp : string;
  c_original_message : string;
  c_distance : option Q;
  c_hybrid_score : option Q
}.

(** Python's [float] is the binary64 format; its operations round to
    the nearest number of the format, ties to even. [Z2F n] is
    [float(n)]; [Q2F q] is the number of the format that the fraction
    [q] stands for, which is what a literal such as [1.3] is read as. *)
Definition Z2F (z : Z) : float :=
  SF2Prim (binary_normalize prec emax z 0 false).

Definition Q2F (q : Q) : float :=
  (Z2F (Qnum q) / Z2F (Zpos (Qden q)))%float.

(** [msg.get('distance', 2.0)] *)
Definition get_distance (msg : context_message) : float :=
  default 2%float (Q2F <$> c_distance msg).

(** [sum(msg.get('distance', 2.0) for msg in context_messages)]: [sum]
    starts from 0 and adds one item after the other, each addition
    rounded, as CPython does up to version 3.11. From 3.12 on [sum]
    also carries the rounding errors along and adds them at the end,
    which can move the sum to a neighbouring number. *)
Definition sum_distances (context_messages : list context_message) : float :=
  foldl (λ acc msg, (acc + get_distance msg)%float) 0%float context_messages.

(** [LLMService._determine_confidence] *)
Definition _determine_confidence (context_messages : list context_message)
  : string :=
  match context_messages with
  | [] => "low"
  | _ =>
      let n := length context_messages in
      let avg_distance :=
        (sum_distances context_messages / Z2F (Z.of_nat n))%float in
      if (avg_distance <? 1.3)%float && (5 <=? n)%nat then "high"
      else if (avg_distance <? 1.6)%float && (3 <=? n)%nat then "medium"
      else "low"
  end.

(** The mean of the dense distances of a context list, in the words of
    the design document: the distances, a missing one counting as 2.0,
    added up and divided by their number, in floating point. *)
Definition distances (context_messages : list context_message) : list float :=
  map get_distance context_messages.

Definition float_sum (xs : list float) : float :=
  foldl PrimFloat.add 0%float xs.



(** ** Specification of the fusion *)

(** The ids of a list of dense results. *)
Definition dense_ids (h : heap) (semantic_results : list addr) : list string :=
  map (λ r, d_id (h !!! r)) semantic_results.

(** The raw score of an id in a list of results: that of the last
    result with the id, as in a dictionary built from the list. *)
Definition last_score {A} (key : A → string) (value : A → Q) (l : list A)
    (msg_id : string) : option Q :=
  value <$> last (filter (λ x, key x = msg_id) l).

(** The raw lexical score of an id is its BM25 score; the raw dense
    similarity is [1 / (1 + distance)], a missing distance counting as
    2.0. *)
Definition lexical_score {datetime : Type}
    (bm25_results : list (@BM25Result datetime)) : string → option Q :=
  last_score r_id r_bm25_score bm25_results.

Definition dense_similarity (h : heap) (semantic_results : list addr)
  : string → option Q :=
  last_score (λ r, d_id (h !!! r))
             (λ r, 1 / (1 + default 2 (d_distance (h !!! r))))
             semantic_results.

(** [s] is the normalized score of an id: its raw score divided by the
    greatest raw score; 0 for an id without a raw score. *)
Definition normalized_score (raw : string → option Q) (msg_id : string)
    (s : Q) : Prop :=
  match raw msg_id with
  | None => s == 0
  | Some v =>
      ∃ m, (∃ k, raw k = Some m)
           ∧ (∀ k v', raw k = Some v' → v' <= m)
           ∧ s == v / m
  end.

(** The results are the candidates ranked by the score [S] alone and
    cut to [top_k]: their ids are the first [top_k] of a list of all
    candidates, each once and each with a score, in which no id comes
    before one with a greater score; and the ['hybrid_score'] of each
    result is its score. *)
Definition ranked_by (S : string → Q → Prop) (candidates : string → Prop)
    (top_k : Z) (h' : heap) (results : list addr) : Prop :=
  ∃ ranking,
    NoDup ranking
    ∧ (∀ msg_id, msg_id ∈ ranking ↔ candidates msg_id)
    ∧ Forall (λ msg_id, ∃ s, S msg_id s) ranking
    ∧ StronglySorted (λ x y, ∀ sx sy, S x sx → S y sy → sy <= sx) ranking
    ∧ map (λ a, d_id (h' !!! a)) results = slice_to top_k ranking
    ∧ Forall (λ a, ∃ d s, h' !! a = Some d ∧ d_hybrid_score d = Some s
                          ∧ S (d_id d) s) results.

(** A retriever is ready when it is new or was indexed with success. *)
Definition retriever_ready {datetime : Type}
    (self : @HybridRetriever datetime) : Prop :=
  self = HybridRetriever_init
  ∨ ∃ self0 messages, index_messages messages self0 = (Ok tt, self).

Section ResultLoopInvariant.
Context {datetime : Type}.
Context (h0 : heap) (semantic_results : list addr)
        (bm25_results : list (@BM25Result datetime))
        (combined_scores bm25_scores semantic_scores : gmap string Q).

(** The dictionary [d] after the three score assignments for [msg_id]. *)
Definition scored (msg_id : string) (d : pydict) : pydict :=
  set_scores (get_score combined_scores msg_id)
             (get_score bm25_scores msg_id)
             (get_score semantic_scores msg_id) d.

(** What the result at address [a] is for [msg_id]: the first dense
    dictionary with that id, at its own address, with the scores
    written into it; or, without a dense one, a dictionary that did not
    exist before, built from the first lexical result with that id. *)
Definition result_of (h : heap) (msg_id : string) (a : addr) : Prop :=
  match find_semantic h0 semantic_results msg_id with
  | Some r => a = r ∧ h !! a = Some (scored msg_id (h0 !!! r))
  | None =>
      ∃ r, find_lexical bm25_results msg_id = Some r
           ∧ (length h0 ≤ a)%nat
           ∧ h !! a = Some (scored msg_id (fallback_dict r))
  end.

(** The state of the result loop after the ids [processed]. *)
Definition loop_invariant (processed : list string)
    (st : heap * list addr) : Prop :=
  (length h0 ≤ length st.1)%nat
  ∧ (∀ a, (a < length h0)%nat → d_id (st.1 !!! a) = d_id (h0 !!! a))
  ∧ (∀ a, (a < length h0)%nat →
          (∀ msg_id, msg_id ∈ processed →
                     find_semantic h0 semantic_results msg_id ≠ Some a) →
          st.1 !! a = h0 !! a)
  ∧ Forall2 (result_of st.1) processed st.2.
End ResultLoopInvariant.

(** ** Sample instances of the parameters, for the examples

    Timestamps that are already text, a scoring function that counts the
    occurrences of query tokens in a document, and a collection that is
    the list of its ids. *)
Definition sample_isoformat (t : string) : string := t.

Definition term_count_score (corpus : list (list string))
    (query doc : list string) : Q :=
  inject_Z (Z.of_nat (length (filter (λ t, t ∈ query) doc))).

Definition sample_message (id user text : string) : Message string :=
  {| msg_id := id; msg_user_id := user; msg_user_name := user;
     msg_timestamp := "2024-05-01T10:00:00"; msg_message := text |}.

Definition sample_corpus : list (Message string) :=
  [ sample_message "m0" "Layla" "Trip to London";
    sample_message "m1" "Layla" "Trip to London";
    sample_message "m2" "Omar" "Dinner in Paris";
    sample_message "m3" "Omar" "Book a car";
    sample_message "m4" "Ines" "See you soon" ].

Definition sample_retriever : HybridRetriever :=
  (index_messages sample_corpus HybridRetriever_init).2.

(** Two dense results: one for a message the lexical search also finds,
    one for a message it does not find. *)
Definition sample_heap : heap :=
  [ Pydict "m0" "Layla (May 01, 2024): Trip to London" "Layla"
           "2024-05-01T10:00:00" (Some (1 # 5)) None None None;
    Pydict "m2" "Omar (May 01, 2024): Dinner in Paris" "Omar"
           "2024-05-01T10:00:00" (Some (4 # 5)) None None None ].

Definition sample_dense : list addr := [0; 1]%nat.

Definition sample_world : World :=
  {| w_self := sample_retriever; w_heap := sample_heap |}.

Definition sample_count (c : list string) : nat := length c.

Definition sample_add (ids : list string) (embeddings : list (list Q))
    (documents : list string) (metadatas : list Metadata) (c : list string)
  : outcome (list string) :=
  Ok (c ++ ids).

Definition sample_store : VectorStore :=
  {| _client := None; _collection := None; persisted := ["m0"; "m1"]%string |}.

(** * More of the services *)

(** ** More built-ins *)

(** [sep.join(l)] *)
Fixpoint join (sep : string) (l : list string) : string :=
  match l with
  | [] => EmptyString
  | x :: rest =>
      match rest with
      | [] => x
      | _ :: _ => x +:+ sep +:+ join sep rest
      end
  end.

(** ** More of the lexical index *)

(** [HybridRetriever.is_indexed] *)
Definition is_indexed {datetime : Type} (self : @HybridRetriever datetime) : bool :=
  match _bm25 self with
  | Some _ => true
  | None => false
  end.

(** ** Reading a result of the fusion *)

(** [result['hybrid_score']] of the dictionary at an address, when the
    dictionary exists and has the key. *)
Definition hybrid_score_at (h : heap) (a : addr) : option Q :=
  h !! a ≫= d_hybrid_score.

(** ** A collection that records its calls *)

(** One call of [collection.add]: its four keyword arguments. *)
Record batch : Type := {
  b_ids : list string;
  b_embeddings : list (list Q);
  b_documents : list string;
  b_metadatas : list Metadata
}.

(** The collection that is the list of the [add] calls made on it, in
    call order; it refuses none. *)
Definition recorded_add (ids : list string) (embeddings : list (list Q))
    (documents : list string) (metadatas : list Metadata) (c : list batch)
  : outcome (list batch) :=
  Ok (c ++ [{| b_ids := ids; b_embeddings := embeddings;
               b_documents := documents; b_metadatas := metadatas |}]).

(** The call that [index_messages] makes for the batch that starts at
    position [i] of [n] messages. *)
Definition batch_at (n : nat) (ids : list string) (embeddings : list (list Q))
    (documents : list string) (metadatas : list Metadata) (i : nat) : batch :=
  let end_idx := Nat.min (i + 100) n in
  {| b_ids := slice i end_idx ids;
     b_embeddings := slice i end_idx embeddings;
     b_documents := slice i end_idx documents;
     b_metadatas := slice i end_idx metadatas |}.

(** ** [VectorStore.initialize] when chromadb raises *)

(** What the three chromadb calls of [initialize] do in one call of
    it: [chromadb.PersistentClient(...)], [get_or_create_collection(...)]
    and the [count()] of the log line. Each returns or raises. *)
Record chromadb_calls : Type := {
  persistent_client : outcome client_handle;
  get_or_create_collection : outcome collection_handle;
  logged_count : outcome nat
}.

(** [VectorStore.initialize] with these calls. The [except] clause logs
    and raises the exception again, so an exception of a call comes out
    as it is, after the assignments made before it. *)
Definition initialize_with {Collection : Type} (calls : chromadb_calls)
  : M (@VectorStore Collection) unit :=
  (self <- get ;;
   match _client self with
   | Some _ => ret tt
   | None =>
       client <- lift (persistent_client calls) ;;
       put {| _client := Some client;
              _collection := _collection self;
              persisted := persisted self |} ;;;
       self <- get ;;
       collection <- lift (get_or_create_collection calls) ;;
       put {| _client := _client self;
              _collection := Some collection;
              persisted := persisted self |} ;;;
       _ <- lift (logged_count calls) ;;
       ret tt
   end)%py.

(** ** The message cache ([data_fetcher.py]) *)

Section DataFetcher.
Context {datetime : Type}.

(** [settings.cache_ttl_seconds] *)
Context (cache_ttl_seconds : Z).

(** The fetcher object. A reading of [datetime.now()] is a number of
    microseconds, the resolution of [datetime] and [timedelta]. *)
Record DataFetcher : Type := {
  _cache : option (list (Message datetime));
  _cache_time : option Z
}.

Definition DataFetcher_init : DataFetcher :=
  {| _cache := None; _cache_time := None |}.

(** What the request of [fetch_all_messages] comes to: the items of a
    valid answer, an [httpx.HTTPError] with its text (a failed status
    included), or any other exception, such as an answer that does not
    validate. *)
Inductive api_response : Type :=
| Items (items : list (Message datetime))
| HTTPError (e : string)
| OtherError (e : string).

(** How a call ends: it returns [self._cache], raises the [Exception]
    it builds from an [HTTPError], or lets another exception through. *)
Inductive fetch_outcome : Type :=
| Return (r : option (list (Message datetime)))
| RaiseException (msg : string)
| RaiseOther (e : string).

(** [DataFetcher._is_cache_valid], with the clock reading [now]. *)
Definition _is_cache_valid (now : Z) (self : DataFetcher) : bool :=
  match _cache self, _cache_time self with
  | Some _, Some cache_time =>
      let cache_age := (now - cache_time)%Z in
      let max_age := (cache_ttl_seconds * 1000000)%Z in
      (cache_age <? max_age)%Z
  | _, _ => false
  end.

(** [DataFetcher.fetch_all_messages]: [now] is the clock when the cache
    is checked, [response] what the request comes to, [now'] the clock
    when the answer is stored. *)
Definition fetch_all_messages (force_refresh : bool) (now : Z)
    (response : api_response) (now' : Z) (self : DataFetcher)
  : fetch_outcome * DataFetcher :=
  if negb force_refresh && _is_cache_valid now self
  then (Return (_cache self), self)
  else
    match response with
    | Items items =>
        let self := {| _cache := Some items; _cache_time := _cache_time self |} in
        let self := {| _cache := _cache self; _cache_time := Some now' |} in
        (Return (_cache self), self)
    | HTTPError e => (RaiseException ("Failed to fetch messages: " +:+ e), self)
    | OtherError e => (RaiseOther e, self)
    end.

(** [DataFetcher.get_cached_messages] *)
Definition get_cached_messages (self : DataFetcher)
  : option (list (Message datetime)) :=
  _cache self.
End DataFetcher.

(** ** The question route ([routes.py]) *)

(** The dictionary that [VectorStore.search] returns: four parallel
    lists. *)
Record SearchResults : Type := {
  s_ids : list string;
  s_documents : list string;
  s_metadatas : list Metadata;
  s_distances : list Q
}.

(** What the [try] block of [ask_question] can raise before its
    handler answers with status 500: an exception of the services, or
    the [ValueError] of [list.index]. *)
Inductive route_exn : Type :=
| Service (e : exn)
| ValueError.

Inductive route_outcome (A : Type) : Type :=
| Done (a : A)
| Failed (e : route_exn).
Arguments Done {A} a.
Arguments Failed {A} e.

(** One element of [semantic_results_list]: subscripting a list that is
    too short raises. *)
Definition semantic_result_dict (semantic_results : SearchResults) (i : nat)
  : outcome pydict :=
  match s_ids semantic_results !! i, s_documents semantic_results !! i,
        s_metadatas semantic_results !! i, s_distances semantic_results !! i with
  | Some id, Some document, Some metadata, Some distance =>
      Ok {| d_id := id;
            d_document := document;
            d_user_name := md_user_name metadata;
            d_timestamp := md_timestamp metadata;
            d_distance := Some distance;
            d_hybrid_score := None;
            d_bm25_score := None;
            d_semantic_score := None |}
  | _, _, _, _ => Raise IndexError
  end.

(** The comprehension over [range(len(semantic_results['ids']))]. *)
Fixpoint semantic_result_dicts (semantic_results : SearchResults)
    (positions : list nat) : outcome (list pydict) :=
  match positions with
  | [] => Ok []
  | i :: rest =>
      obind (semantic_result_dict semantic_results i)
            (λ d, obind (semantic_result_dicts semantic_results rest)
                        (λ ds, Ok (d :: ds)))
  end.

(** [l.index(x)]: the first position of [x]; [None] stands for the
    [ValueError]. *)
Fixpoint index (x : string) (l : list string) : option nat :=
  match l with
  | [] => None
  | y :: rest => if bool_decide (y = x) then Some 0%nat else S <$> index x rest
  end.

(** The search for [metadata]: the first dense dictionary with the id
    of the result, then the metadata at the first position of that id. *)
Definition find_metadata (h : heap) (semantic_results : SearchResults)
    (semantic_results_list : list addr) (result : pydict)
  : route_outcome (option Metadata) :=
  match find_semantic h semantic_results_list (d_id result) with
  | None => Done None
  | Some sem_res =>
      match index (d_id (h !!! sem_res)) (s_ids semantic_results) with
      | None => Failed ValueError
      | Some idx =>
          match s_metadatas semantic_results !! idx with
          | None => Failed (Service IndexError)
          | Some metadata => Done (Some metadata)
          end
      end
  end.

(** The dictionary appended to [context_messages] for one result. *)
Definition context_message_of (metadata : option Metadata) (result : pydict)
  : context_message :=
  {| c_document := d_document result;
     c_user_name := d_user_name result;
     c_timestamp := d_timestamp result;
     c_original_message :=
       match metadata with
       | Some metadata => md_original_message metadata
       | None => d_document result
       end;
     c_distance := Some (default (1 # 2) (d_distance result));
     c_hybrid_score := Some (default 0 (d_hybrid_score result)) |}.

(** The loop that builds [context_messages] from the hybrid results. *)
Fixpoint context_messages (h : heap) (semantic_results : SearchResults)
    (semantic_results_list search_results_hybrid : list addr)
  : route_outcome (list context_message) :=
  match search_results_hybrid with
  | [] => Done []
  | a :: rest =>
      let result := h !!! a in
      match find_metadata h semantic_results semantic_results_list result with
      | Failed e => Failed e
      | Done metadata =>
          match context_messages h semantic_results semantic_results_list rest with
          | Failed e => Failed e
          | Done context => Done (context_message_of metadata result :: context)
          end
      end
  end.

Section Route.
Context {datetime : Type} (isoformat : datetime → string).
Context (bm25_score : list (list string) → list string → list string → Q).
Context {np_sort : Argsort}.

(** The part of [ask_question] between the dense search and the call
    of the synthesizer: the dense results as dictionaries, the fusion
    with weight 0.6 cut to 25, the context messages. *)
Definition ask_context (question : string) (semantic_results : SearchResults)
    (w : World) : route_outcome (list context_message) * @World datetime :=
  match semantic_result_dicts semantic_results
          (seq 0 (length (s_ids semantic_results))) with
  | Raise e => (Failed (Service e), w)
  | Ok dicts =>
      let semantic_results_list := seq (length (w_heap w)) (length dicts) in
      let w := {| w_self := w_self w; w_heap := w_heap w ++ dicts |} in
      match hybrid_search isoformat bm25_score question semantic_results_list
                          (6 # 10) 25 w with
      | (Raise e, w) => (Failed (Service e), w)
      | (Ok search_results_hybrid, w) =>
          (context_messages (w_heap w) semantic_results semantic_results_list
                            search_results_hybrid, w)
      end
  end.
End Route.

(** * Properties *)

(** ** Tokenization *)

Lemma str_forall_app (p : ascii → bool) (s t : string) :
  str_forall p (s +:+ t) = str_forall p s && str_forall p t.
Proof.
  induction s as [|c s IH]; simpl; [done|].
  by rewrite IH, andb_assoc.
Qed.

Lemma str_map_ext_on (p : ascii → bool) (f g : ascii → ascii) (s : string) :
  (∀ c, p c = true → f c = g c) →
  str_forall p s = true →
  str_map f s = str_map g s.
Proof.
  intros Hfg. induction s as [|c s IH]; simpl; [done|].
  intros [Hc Hs]%andb_true_iff. by rewrite (Hfg c Hc), IH.
Qed.

Lemma str_forall_map (p : ascii → bool) (f : ascii → ascii) (s : string) :
  str_forall p (str_map f s) = str_forall (λ c, p (f c)) s.
Proof. induction s as [|c s IH]; simpl; [done|]. by rewrite IH. Qed.

Lemma str_forall_impl (p q : ascii → bool) (s : string) :
  (∀ c, p c = true → q c = true) →
  str_forall p s = true → str_forall q s = true.
Proof.
  intros Hpq. induction s as [|c s IH]; simpl; [done|].
  intros [Hc Hs]%andb_true_iff. by rewrite (Hpq c Hc), IH.
Qed.

(** On the 128 ASCII code points the class [\w] is [[A-Za-z0-9_]]. *)
Lemma re_word_ascii (c : ascii) :
  (ord c <? 128)%N = true → re_word c = spec_word c.
Proof.
  destruct c as [[] [] [] [] [] [] [] []]; vm_compute; congruence.
Qed.

Lemma lower_char_ascii (c : ascii) :
  (ord c <? 128)%N = true → (ord (lower_char c) <? 128)%N = true.
Proof.
  destruct c as [[] [] [] [] [] [] [] []]; vm_compute; congruence.
Qed.

Lemma flush_tokens (p : ascii → bool) (cur : string) :
  str_forall p cur = true →
  Forall (λ tok, tok ≠ EmptyString ∧ str_forall p tok = true) (flush cur).
Proof.
  intros Hcur. destruct cur; simpl; [constructor|].
  constructor; [split; [discriminate|done]|constructor].
Qed.

(** Every token of [split] is a non-empty run of characters that are not
    white space. *)
Lemma split_from_tokens (p : ascii → bool) (s cur : string) :
  str_forall p cur = true →
  str_forall (λ c, isspace c || p c) s = true →
  Forall (λ tok, tok ≠ EmptyString ∧ str_forall p tok = true) (split_from cur s).
Proof.
  revert cur. induction s as [|c s IH]; simpl; intros cur Hcur Hs.
  - by apply flush_tokens.
  - apply andb_true_iff in Hs as [Hc Hs].
    destruct (isspace c) eqn:Hsp.
    + apply Forall_app. split; [by apply flush_tokens|by apply IH].
    + apply IH; [|done].
      rewrite str_forall_app, Hcur. simpl in *. by rewrite Hc.
Qed.

(** C6, as stated, fails on a letter outside ASCII: in ["café"] the
    character U+00E9 is outside [[A-Za-z0-9_]] and is no white space, yet
    [_tokenize] keeps it, because [\w] holds of every alphanumeric code
    point. *)
Lemma tokenize_keeps_accented_letter :
  let text := "caf" +:+ String (chr 233) "" in
  _tokenize text = [text] ∧ tokenize_spec text = ["caf"%string].
Proof. split; reflexivity. Qed.

(** C6, amended: on ASCII text [_tokenize] is the rule of the design
    document (lowercase, every character outside [[A-Za-z0-9_]] and white
    space becomes a space, split on white space); whatever the text, each
    token is a non-empty run of [\w] characters; and ["London?"] and
    ["london"] both give [["london"]]. *)
Theorem tokenize_ascii_rule (text : string) :
  is_ascii text = true →
  _tokenize text = tokenize_spec text
  ∧ (∀ any : string,
       Forall (λ tok, tok ≠ EmptyString ∧ str_forall re_word tok = true)
              (_tokenize any))
  ∧ _tokenize "London?" = ["london"%string]
  ∧ _tokenize "london" = ["london"%string].
Proof.
  intros Hascii. split; [|split; [|split; reflexivity]].
  - unfold _tokenize, tokenize_spec, re_sub_punct_space. f_equal.
    apply (str_map_ext_on (λ c, (ord c <? 128)%N)).
    + intros c Hc. by rewrite (re_word_ascii c Hc).
    + unfold lower. rewrite str_forall_map.
      revert Hascii. apply str_forall_impl. intros c. apply lower_char_ascii.
  - intros any. unfold _tokenize, split. apply split_from_tokens; [done|].
    unfold re_sub_punct_space. rewrite str_forall_map.
    generalize (lower any). intros s. induction s as [|c s IH]; simpl; [done|].
    rewrite IH, andb_true_r.
    destruct (re_word c) eqn:Hw; simpl.
    + by rewrite Hw, orb_true_r.
    + destruct (isspace c) eqn:Hs; simpl; [by rewrite Hs|done].
Qed.

Lemma tokenize_ascii_rule_witness :
  is_ascii "London?" = true
  ∧ _tokenize "London?" = tokenize_spec "London?".
Proof.
  split; [reflexivity|].
  apply (tokenize_ascii_rule "London?"). reflexivity.
Defined.

(** ** Query expansion *)

Lemma elem_of_expanded_tokens (tokens : list string) (s : string) :
  s ∈ expanded_tokens tokens ↔
  ∃ t, t ∈ tokens ∧ (s = t ∨ s ∈ default [] (QUERY_EXPANSIONS !! t)).
Proof.
  induction tokens as [|t tokens IH]; simpl.
  - split; [by intros ?%elem_of_nil|]. by intros (? & ?%elem_of_nil & _).
  - rewrite elem_of_cons, elem_of_app, IH. split.
    + intros [->|[Hs|(t' & Ht' & Hs)]].
      * exists t. split; [left|]; auto.
      * exists t. split; [left|]; auto.
      * exists t'. split; [right|]; auto.
    + intros (t' & [->|Ht']%elem_of_cons & Hs).
      * destruct Hs; auto.
      * right. right. eauto.
Qed.

Lemma elem_of_expand_query (tokens : list string) (s : string) :
  s ∈ expand_query tokens ↔ s ∈ expanded_tokens tokens.
Proof. unfold expand_query. by rewrite elem_of_elements, elem_of_list_to_set. Qed.

(** Every entry of the synonym table lists its own key. *)
Lemma QUERY_EXPANSIONS_reflexive (t : string) (syns : list string) :
  QUERY_EXPANSIONS !! t = Some syns → t ∈ syns.
Proof.
  intros H. apply elem_of_list_to_map_2 in H.
  repeat (apply elem_of_cons in H as [H|H];
          [injection H as -> ->; repeat constructor|]).
  by apply elem_of_nil in H.
Qed.

(** C5, as stated, fails when the query repeats a word: ["a a"] has two
    tokens and its expansion has one. *)
Lemma expansion_shorter_than_tokenization :
  _tokenize "a a" = ["a"; "a"]%string
  ∧ expand_query (_tokenize "a a") = ["a"%string]
  ∧ (length (expand_query (_tokenize "a a")) < length (_tokenize "a a"))%nat.
Proof. vm_compute. repeat split; lia. Qed.

(** C5, amended: the expanded collection has no duplicates, contains
    every token of the query (so it has at least as many tokens as the
    query has distinct ones), contains every synonym of each token the
    table knows, the token itself among them, and contains nothing else. *)
Theorem expand_query_covers (query : string) :
  let tokens := _tokenize query in
  let expanded := expand_query tokens in
  NoDup expanded
  ∧ (∀ t, t ∈ tokens → t ∈ expanded)
  ∧ (length (remove_dups tokens) ≤ length expanded)%nat
  ∧ (∀ t syns s,
       t ∈ tokens → QUERY_EXPANSIONS !! t = Some syns → s ∈ syns →
       s ∈ expanded)
  ∧ (∀ t syns, QUERY_EXPANSIONS !! t = Some syns → t ∈ syns)
  ∧ (∀ s, s ∈ expanded →
       s ∈ tokens
       ∨ ∃ t syns, t ∈ tokens ∧ QUERY_EXPANSIONS !! t = Some syns ∧ s ∈ syns).
Proof.
  intros tokens expanded.
  assert (Hin : ∀ t, t ∈ tokens → t ∈ expanded).
  { intros t Ht. apply elem_of_expand_query, elem_of_expanded_tokens. eauto. }
  split; [unfold expanded, expand_query; apply NoDup_elements|].
  split; [done|].
  split.
  { apply submseteq_length, NoDup_submseteq; [apply NoDup_remove_dups|].
    intros t Ht. rewrite elem_of_remove_dups in Ht. by apply Hin. }
  split.
  { intros t syns s Ht Hsyns Hs.
    apply elem_of_expand_query, elem_of_expanded_tokens.
    exists t. split; [done|]. right. by rewrite Hsyns. }
  split; [apply QUERY_EXPANSIONS_reflexive|].
  intros s (t & Ht & [->|Hs])%elem_of_expand_query%elem_of_expanded_tokens;
    [by left|].
  destruct (QUERY_EXPANSIONS !! t) as [syns|] eqn:Hsyns; simpl in Hs.
  - right. eauto.
  - by apply elem_of_nil in Hs.
Qed.

(** ** Confidence *)

Lemma Qltb_lt (a b : Q) : Qltb a b = true ↔ a < b.
Proof.
  unfold Qltb. rewrite negb_true_iff, <- not_true_iff_false, Qle_bool_iff.
  split; [apply Qnot_le_lt|apply Qlt_not_le].
Qed.

Lemma Qltb_ge (a b : Q) : Qltb a b = false ↔ b <= a.
Proof. unfold Qltb. by rewrite negb_false_iff, Qle_bool_iff. Qed.

(** The running sum of the source adds up the distances. *)
Lemma sum_distances_float_sum (context_messages : list context_message) :
  sum_distances context_messages = float_sum (distances context_messages).
Proof.
  unfold sum_distances, float_sum, distances. generalize 0%float.
  induction context_messages as [|msg rest IH]; intros acc; [done|].
  simpl. apply IH.
Qed.



(** The rounding decides at the thresholds: five distances whose exact
    mean is 1.3 have a computed mean below the number 1.3, and six
    distances of 1.6 have a computed mean below the number 1.6. *)
Example determine_confidence_rounding :
  let message := λ distance,
    {| c_document := ""; c_user_name := ""; c_timestamp := "";
       c_original_message := ""; c_distance := Some distance;
       c_hybrid_score := None |} in
  _determine_confidence
    (map message [12 # 10; 14 # 10; 13 # 10; 13 # 10; 13 # 10])
  = "high"%string
  ∧ _determine_confidence (map message (replicate 6 (16 # 10)))
    = "medium"%string
  ∧ _determine_confidence (map message (replicate 5 (16 # 10)))
    = "low"%string.
Proof. vm_compute. repeat split; reflexivity. Qed.

(** ** The dense index *)

Section VectorStoreProperties.
Context {datetime : Type} (isoformat strftime_BdY : datetime → string).
Context {Collection : Type} (collection_count : Collection → nat).
Context (collection_add :
           list string → list (list Q) → list string → list Metadata →
           Collection → outcome Collection).

Local Abbreviation vs_index :=
  (vs_index_messages isoformat strftime_BdY collection_count collection_add).

(** C4: when the collection holds at least as many entries as the batch
    has messages, [index_messages] adds nothing: the collection, hence
    its count, is the same after the call, whatever [add] would do. On a
    store that is not half initialized the call returns normally. *)
Theorem index_messages_skips_full_index (self : VectorStore)
    (messages : list (Message datetime)) (embeddings : list (list Q)) :
  (length messages ≤ collection_count (persisted self))%nat →
  let (o, self') := vs_index messages embeddings self in
  persisted self' = persisted self
  ∧ collection_count (persisted self') = collection_count (persisted self)
  ∧ (_client self = None ∨ is_Some (_collection self) →
     o = Ok tt ∧ get_count collection_count self' = collection_count (persisted self)).
Proof.
  intros Hfull. apply Nat.leb_le in Hfull.
  unfold vs_index_messages, bind, get, initialize, count, put, ret, raise.
  destruct self as [[c|] [h|] p]; simpl in *; rewrite ?Hfull; simpl.
  all: split; [done|split; [done|]].
  all: intros [?|[? ?]]; done.
Qed.
End VectorStoreProperties.

Lemma index_messages_skips_full_index_witness :
  (length [sample_message "m0" "Layla" "Trip to London"]
   ≤ sample_count (persisted sample_store))%nat
  ∧ persisted
      (vs_index_messages sample_isoformat sample_isoformat sample_count sample_add
         [sample_message "m0" "Layla" "Trip to London"] [[1 # 2]] sample_store).2
    = persisted sample_store.
Proof.
  split; [vm_compute; lia|].
  pose proof (index_messages_skips_full_index sample_isoformat sample_isoformat
                sample_count sample_add sample_store
                [sample_message "m0" "Layla" "Trip to London"] [[1 # 2]]) as H.
  destruct (vs_index_messages _ _ _ _ _ _ _) as [o self'].
  apply H. vm_compute. lia.
Defined.

(** ** Sorting *)

Section StableSortProperties.
Context {A : Type} (le : A → A → bool).

Lemma insert_sorted_perm (x : A) (l : list A) :
  insert_sorted le x l ≡ₚ x :: l.
Proof.
  induction l as [|y l IH]; simpl; [done|].
  destruct (le x y); [done|]. rewrite IH. apply Permutation_swap.
Qed.

Lemma stable_sort_perm (l : list A) : stable_sort le l ≡ₚ l.
Proof.
  induction l as [|x l IH]; simpl; [done|].
  by rewrite insert_sorted_perm, IH.
Qed.

Lemma stable_sort_ext (le' : A → A → bool) (l : list A) :
  (∀ x y, le x y = le' x y) → stable_sort le l = stable_sort le' l.
Proof.
  intros Hle. induction l as [|x l IH]; simpl; [done|]. rewrite IH.
  generalize (stable_sort le' l). intros s.
  induction s as [|y s IHs]; simpl; [done|]. by rewrite Hle, IHs.
Qed.

Hypothesis le_total : ∀ x y, le x y = true ∨ le y x = true.
Hypothesis le_trans : ∀ x y z, le x y = true → le y z = true → le x z = true.

(** The order [T] is the order of the input; the output is sorted by
    [le], and where [le] holds both ways, by [T]. *)
Context (T : A → A → Prop).

Lemma insert_sorted_stable (x : A) (l : list A) :
  Forall (T x) l →
  StronglySorted (λ a b, le a b = true ∧ (le b a = true → T a b)) l →
  StronglySorted (λ a b, le a b = true ∧ (le b a = true → T a b))
                 (insert_sorted le x l).
Proof.
  intros HT Hl. induction Hl as [|y l Hl IH Hy]; simpl.
  - repeat constructor.
  - apply Forall_cons in HT as [HTy HT].
    destruct (le x y) eqn:Hxy.
    + constructor; [by constructor|].
      constructor; [done|].
      rewrite Forall_forall in Hy, HT. apply Forall_forall. intros z Hz.
      split; [|by auto]. apply (le_trans x y z); [done|]. by apply Hy.
    + constructor; [by apply IH|].
      rewrite insert_sorted_perm. constructor; [|done].
      split; [|congruence]. by destruct (le_total x y) as [?|?]; [congruence|].
Qed.

Lemma stable_sort_stable (l : list A) :
  StronglySorted T l →
  StronglySorted (λ a b, le a b = true ∧ (le b a = true → T a b))
                 (stable_sort le l).
Proof.
  induction 1 as [|x l Hl IH Hx]; simpl; [constructor|].
  apply insert_sorted_stable; [|done]. by rewrite stable_sort_perm.
Qed.
End StableSortProperties.

Lemma StronglySorted_rev {A} (R : A → A → Prop) (l : list A) :
  StronglySorted R l → StronglySorted (flip R) (reverse l).
Proof.
  induction 1 as [|x l Hl IH Hx]; [constructor|]. rewrite reverse_cons.
  apply StronglySorted_app_2; [|done|repeat constructor].
  intros a b Ha ->%list_elem_of_singleton. unfold flip.
  rewrite Forall_forall in Hx. apply Hx. by apply elem_of_reverse.
Qed.

Lemma StronglySorted_sublist {A} (R : A → A → Prop) (l1 l2 : list A) :
  sublist l1 l2 → StronglySorted R l2 → StronglySorted R l1.
Proof.
  induction 1 as [|x l1 l2 Hsub IH|x l1 l2 Hsub IH]; intros Hs; [done|..].
  - apply StronglySorted_inv in Hs as [Hs Hx]. constructor; [by apply IH|].
    rewrite Forall_forall in Hx. apply Forall_forall. intros y Hy. apply Hx.
    by eapply elem_of_submseteq, sublist_submseteq.
  - apply StronglySorted_inv in Hs as [Hs _]. by apply IH.
Qed.

Lemma StronglySorted_impl {A} (R R' : A → A → Prop) (l : list A) :
  (∀ x y, x ∈ l → y ∈ l → R x y → R' x y) →
  StronglySorted R l → StronglySorted R' l.
Proof.
  intros HR Hs. induction Hs as [|x l Hl IH Hx]; [constructor|].
  constructor.
  - apply IH. intros a b Ha Hb. apply HR; by right.
  - rewrite Forall_forall in Hx. apply Forall_forall. intros y Hy.
    apply HR; [by left|by right|by apply Hx].
Qed.

Lemma slice_to_sublist {A} (k : Z) (l : list A) : sublist (slice_to k l) l.
Proof. unfold slice_to. destruct (0 <=? k)%Z; apply sublist_take. Qed.

Lemma slice_to_length {A} (k : Z) (l : list A) :
  (0 ≤ k)%Z → (length (slice_to k l) ≤ Z.to_nat k)%nat.
Proof.
  intros Hk. unfold slice_to. apply Z.leb_le in Hk as ->.
  rewrite length_take. lia.
Qed.

(** [stable_argsort] is a permutation of the positions, ascending by
    score, and positions with equal scores come in increasing order. *)
Lemma stable_argsort_perm (scores : list Q) :
  stable_argsort scores ≡ₚ seq 0 (length scores).
Proof. apply stable_sort_perm. Qed.

Lemma stable_argsort_sorted (scores : list Q) :
  StronglySorted
    (λ i j, default 0 (scores !! i) <= default 0 (scores !! j)
            ∧ (default 0 (scores !! j) <= default 0 (scores !! i) → (i < j)%nat))
    (stable_argsort scores).
Proof.
  unfold stable_argsort.
  eapply StronglySorted_impl;
    [|apply (stable_sort_stable _) with (T := lt)].
  - intros i j _ _ [Hij Hji]. rewrite !Qle_bool_iff in *. done.
  - intros x y. rewrite !Qle_bool_iff.
    destruct (Qlt_le_dec (default 0 (scores !! y)) (default 0 (scores !! x)));
      [right; by apply Qlt_le_weak|by left].
  - intros x y z. rewrite !Qle_bool_iff. apply Qle_trans.
  - generalize 0%nat. induction (length scores) as [|n IH]; intros k; simpl;
      [constructor|].
    constructor; [apply IH|]. apply Forall_forall. intros j Hj%elem_of_seq. lia.
Qed.

(** [backward_argsort] has the contract too: it is the descending
    stable sort read backwards. *)
Lemma backward_argsort_perm (scores : list Q) :
  backward_argsort scores ≡ₚ seq 0 (length scores).
Proof.
  unfold backward_argsort. by rewrite reverse_Permutation, stable_sort_perm.
Qed.

Lemma backward_argsort_sorted (scores : list Q) :
  StronglySorted (λ i j, default 0 (scores !! i) <= default 0 (scores !! j))
                 (backward_argsort scores).
Proof.
  unfold backward_argsort.
  apply (StronglySorted_rev
           (λ i j, default 0 (scores !! j) <= default 0 (scores !! i))).
  eapply StronglySorted_impl;
    [|apply (stable_sort_stable _) with (T := λ _ _, True)].
  - intros i j _ _ [Hij _]. by apply Qle_bool_iff in Hij.
  - intros x y. rewrite !Qle_bool_iff.
    destruct (Qlt_le_dec (default 0 (scores !! x)) (default 0 (scores !! y)));
      [right; by apply Qlt_le_weak|by left].
  - intros x y z. rewrite !Qle_bool_iff. intros Hxy Hyz.
    by eapply Qle_trans.
  - induction (seq 0 (length scores)) as [|x l IH]; constructor; [done|].
    by apply Forall_forall.
Qed.

#[global] Instance stable_Argsort : Argsort := {|
  argsort := stable_argsort;
  argsort_perm := stable_argsort_perm;
  argsort_sorted := λ scores,
    StronglySorted_impl _ _ _
      (λ i j _ _ (Hij : _ ∧ _), proj1 Hij) (stable_argsort_sorted scores)
|}.

Definition backward_Argsort : Argsort := {|
  argsort := backward_argsort;
  argsort_perm := backward_argsort_perm;
  argsort_sorted := backward_argsort_sorted
|}.

Lemma StronglySorted_lookup {A} (R : A → A → Prop) (l : list A)
    (p q : nat) (x y : A) :
  StronglySorted R l → (p < q)%nat →
  l !! p = Some x → l !! q = Some y → R x y.
Proof.
  intros Hs. revert p q. induction Hs as [|a l Hl IH Ha]; intros p q Hpq Hp Hq.
  - by rewrite lookup_nil in Hp.
  - destruct q as [|q]; [lia|]. simpl in Hq. destruct p as [|p]; simpl in Hp.
    + injection Hp as ->. rewrite Forall_forall in Ha. apply Ha.
      by eapply list_elem_of_lookup_2.
    + apply (IH p q); [lia|done..].
Qed.

Lemma Forall2_StronglySorted {A B} (P : A → B → Prop)
    (R : A → A → Prop) (R' : B → B → Prop) (l : list A) (k : list B) :
  (∀ x y a b, P x a → P y b → R x y → R' a b) →
  Forall2 P l k → StronglySorted R l → StronglySorted R' k.
Proof.
  intros HR HP. induction HP as [|x a l k Hxa HP IH]; intros Hs; [constructor|].
  apply StronglySorted_inv in Hs as [Hs Hx]. constructor; [by apply IH|].
  clear IH Hs. induction HP as [|y b l k Hyb HP IH]; [constructor|].
  apply Forall_cons in Hx as [Hxy Hx]. constructor; [by eapply HR|by apply IH].
Qed.

(** [sorted(..., reverse=True)] sorts. *)
Lemma sorted_reverse_sorted {A} (key : A → Q) (l : list A) :
  StronglySorted (λ x y, key y <= key x) (sorted_reverse key l).
Proof.
  unfold sorted_reverse.
  eapply StronglySorted_impl;
    [|apply (stable_sort_stable _) with (T := λ _ _, True)].
  - intros x y _ _ [Hxy _]. by apply Qle_bool_iff.
  - intros x y. rewrite !Qle_bool_iff.
    destruct (Qlt_le_dec (key x) (key y)); [right; by apply Qlt_le_weak|by left].
  - intros x y z. rewrite !Qle_bool_iff. intros Hxy Hyz.
    by eapply Qle_trans.
  - induction l as [|x l IH]; constructor; [done|].
    by apply Forall_forall.
Qed.

Lemma Forall2_Forall_right {A B} (P : A → B → Prop) (R : B → Prop)
    (l : list A) (k : list B) :
  (∀ x y, P x y → R y) → Forall2 P l k → Forall R k.
Proof. intros HPR. induction 1; constructor; eauto. Qed.

(** ** The lexical index *)

Section RetrievalProperties.
Context {datetime : Type} (isoformat : datetime → string).
Context (bm25_score : list (list string) → list string → list string → Q).
Context {np_sort : Argsort}.

Local Abbreviation search := (search_bm25 isoformat bm25_score).
Local Abbreviation document_tokens :=
  (λ msg : Message datetime,
     _tokenize (msg_user_name msg +:+ " " +:+ msg_message msg)).

Lemma search_bm25_None (self : HybridRetriever)
    (query : string) (top_k : Z) (use_expansion : bool) :
  _bm25 self = None →
  search query top_k use_expansion self = (Ok [], self).
Proof. intros Hnone. unfold search_bm25, bind, get, ret. by rewrite Hnone. Qed.

(** C9: on a retriever that holds no index, as it is before the first
    [index_messages], [search_bm25] returns the empty list, raises
    nothing, and leaves the retriever as it was. *)
Theorem search_bm25_before_indexing (self : HybridRetriever)
    (query : string) (top_k : Z) (use_expansion : bool) :
  _bm25 self = None →
  search query top_k use_expansion self = (Ok [], self).
Proof.
  intros Hnone. unfold search_bm25, bind, get, ret. simpl.
  destruct (_bm25 self) as [bm25|]; [discriminate|reflexivity].
Qed.

(** What a successful [index_messages] leaves in the retriever. *)
Lemma index_messages_state (messages : list (Message datetime))
    (self0 self : HybridRetriever) :
  index_messages messages self0 = (Ok tt, self) →
  self = {| _bm25 := Some {| bm_corpus := map document_tokens messages |};
            _messages := Some messages;
            _tokenized_corpus := Some (map document_tokens messages) |}.
Proof.
  unfold index_messages, bind, get, put, lift, BM25Okapi_new. simpl.
  destruct (forallb _ _); [done|]. by intros [= <-].
Qed.

Lemma collect_results_spec (msgs : list (Message datetime))
    (scores : list Q) (idxs : list nat) :
  Forall (λ i, is_Some (msgs !! i) ∧ is_Some (scores !! i)) idxs →
  ∃ results,
    collect_results isoformat (Some msgs) scores idxs = Ok results
    ∧ Forall2 (λ i r, ∃ msg score,
                 msgs !! i = Some msg ∧ scores !! i = Some score
                 ∧ 0 < score ∧ r = bm25_result isoformat msg score)
              (filter (λ i, Is_true (Qltb 0 (default 0 (scores !! i)))) idxs)
              results.
Proof.
  induction 1 as [|i idxs [[msg Hmsg] [score Hscore]] _ (results & Hres & IH)];
    simpl.
  - exists []. split; [done|]. constructor.
  - rewrite Hscore. rewrite filter_cons. rewrite Hscore. simpl.
    destruct (Qltb 0 score) eqn:Hpos; simpl.
    + rewrite Hmsg, Hres. simpl. eexists. split; [done|].
      constructor; [|done].
      exists msg, score. by rewrite <- Qltb_lt.
    + eauto.
Qed.

(** The positions [search_bm25] visits are positions of the corpus. *)
Lemma top_indices_in_range (messages : list (Message datetime))
    (scores : list Q) (top_k : Z) :
  length scores = length messages →
  Forall (λ i, is_Some (messages !! i) ∧ is_Some (scores !! i))
         (top_indices scores top_k).
Proof.
  intros Hlen. apply Forall_forall. intros i Hi.
  assert (Hi' : i ∈ seq 0 (length scores)).
  { rewrite <- argsort_perm, <- elem_of_reverse.
    eapply elem_of_submseteq; [exact Hi|].
    apply sublist_submseteq, slice_to_sublist. }
  apply elem_of_seq in Hi'.
  split; apply lookup_lt_is_Some; lia.
Qed.

(** On an indexed retriever [search_bm25] returns, and its results are
    the documents at the visited positions that score above 0. *)
Lemma search_bm25_indexed (self0 self : HybridRetriever)
    (messages : list (Message datetime)) (query : string) (top_k : Z)
    (use_expansion : bool) :
  index_messages messages self0 = (Ok tt, self) →
  let corpus := map document_tokens messages in
  let tokens :=
    if use_expansion then expand_query (_tokenize query) else _tokenize query in
  let scores := map (bm25_score corpus tokens) corpus in
  ∃ results : list BM25Result,
    search query top_k use_expansion self = (Ok results, self)
    ∧ Forall2 (λ i r, ∃ msg score,
                 messages !! i = Some msg ∧ scores !! i = Some score
                 ∧ 0 < score ∧ r = bm25_result isoformat msg score)
              (filter (λ i, Is_true (Qltb 0 (default 0 (scores !! i))))
                      (top_indices scores top_k))
              results.
Proof.
  intros Hindex corpus tokens scores.
  apply index_messages_state in Hindex as ->.
  unfold search_bm25, bind, get, lift. simpl. fold tokens.
  unfold get_scores. simpl. fold corpus. fold scores.
  assert (Hlen : length scores = length messages).
  { unfold scores, corpus. by rewrite !length_map. }
  destruct (collect_results_spec messages scores _
              (top_indices_in_range messages scores top_k Hlen))
    as (results & -> & Hres).
  by exists results.
Qed.

(** C2, amended: on an indexed corpus [search_bm25] returns documents
    of the corpus, no document twice, each with the score the index
    gives it, all of them with a score above 0, in descending score
    order, at most [top_k] of them when [top_k] is not negative. The
    order of results with equal scores is not fixed by the retriever:
    the results come in the order of [np.argsort(scores)] read
    backwards, for whatever order that sort gives equal scores. *)
Theorem search_bm25_ranking (self0 self : HybridRetriever)
    (messages : list (Message datetime)) (query : string) (top_k : Z)
    (use_expansion : bool) :
  index_messages messages self0 = (Ok tt, self) →
  (0 ≤ top_k)%Z →
  let corpus := map document_tokens messages in
  let tokens :=
    if use_expansion then expand_query (_tokenize query) else _tokenize query in
  let scores := map (bm25_score corpus tokens) corpus in
  ∃ (results : list BM25Result) (positions : list nat),
    search query top_k use_expansion self = (Ok results, self)
    ∧ Forall2 (λ i r, ∃ msg,
                 messages !! i = Some msg
                 ∧ r = bm25_result isoformat msg
                         (bm25_score corpus tokens (document_tokens msg)))
              positions results
    ∧ NoDup positions
    ∧ Forall (λ r, 0 < r_bm25_score r) results
    ∧ StronglySorted (λ r1 r2, r_bm25_score r2 <= r_bm25_score r1) results
    ∧ (length results ≤ Z.to_nat top_k)%nat
    ∧ sublist positions (reverse (argsort scores)).
Proof.
  intros Hindex Htop corpus tokens scores.
  destruct (search_bm25_indexed self0 self messages query top_k use_expansion
              Hindex) as (results & Hrun & Hres).
  fold corpus tokens scores in Hres.
  set (positions :=
         filter (λ i, Is_true (Qltb 0 (default 0 (scores !! i))))
                (top_indices scores top_k)) in *.
  assert (Hsub : sublist positions (top_indices scores top_k))
    by apply sublist_filter.
  assert (Hall : sublist positions (reverse (argsort scores))).
  { etrans; [exact Hsub|]. apply slice_to_sublist. }
  assert (Hsorted : StronglySorted
            (λ i j, default 0 (scores !! j) <= default 0 (scores !! i))
            positions).
  { eapply StronglySorted_sublist; [exact Hall|].
    apply (StronglySorted_rev _ _ (argsort_sorted scores)). }
  assert (Hscore : ∀ i msg score,
            messages !! i = Some msg → scores !! i = Some score →
            score = bm25_score corpus tokens (document_tokens msg)).
  { intros i msg score Hmsg Hsc. unfold scores, corpus in Hsc.
    rewrite !list_lookup_fmap, Hmsg in Hsc. simpl in Hsc. by injection Hsc. }
  exists results, positions. split; [done|].
  split; [|split; [|split; [|split; [|split]]]].
  - eapply Forall2_impl; [exact Hres|]. simpl.
    intros i r (msg & score & Hmsg & Hsc & _ & ->). exists msg.
    split; [done|]. by rewrite (Hscore i msg score).
  - eapply sublist_NoDup; [|exact Hall].
    rewrite reverse_Permutation, (argsort_perm scores). apply NoDup_seq.
  - eapply Forall2_Forall_r; [exact Hres|]. apply Forall_forall.
    by intros i _ r (msg & score & _ & _ & Hpos & ->).
  - eapply Forall2_StronglySorted; [|exact Hres|exact Hsorted].
    simpl. intros i j ri rj (mi & si & _ & Hsi & _ & ->)
                            (mj & sj & _ & Hsj & _ & ->) Hle.
    simpl. by rewrite Hsi, Hsj in Hle.
  - rewrite <- (Forall2_length _ _ _ Hres).
    etrans; [apply sublist_length, Hsub|].
    by apply slice_to_length.
  - exact Hall.
Qed.
End RetrievalProperties.

(** ** Score dictionaries *)

Lemma py_max_None (l : list Q) : py_max l = None → l = [].
Proof. destruct l as [|x l]; [done|]. simpl. by destruct (py_max l). Qed.

Lemma py_max_spec (l : list Q) (m : Q) :
  py_max l = Some m → m ∈ l ∧ Forall (λ x, x <= m) l.
Proof.
  revert m. induction l as [|x l IH]; intros m; simpl; [done|].
  destruct (py_max l) as [m'|] eqn:Hmax.
  - destruct (IH m' eq_refl) as [Hin Hle]. intros [= <-].
    destruct (Qltb x m') eqn:Hlt.
    + apply Qltb_lt in Hlt. split; [by right|].
      constructor; [by apply Qlt_le_weak|done].
    + apply Qltb_ge in Hlt. split; [by left|].
      constructor; [apply Qle_refl|].
      eapply Forall_impl; [exact Hle|]. simpl. intros y Hy. by eapply Qle_trans.
  - apply py_max_None in Hmax as ->. intros [= <-].
    split; [by left|]. repeat constructor. apply Qle_refl.
Qed.

Lemma foldl_insert_lookup {B} (kf : B → string) (vf : B → Q) (l : list B)
    (m0 : gmap string Q) (k : string) (v : Q) :
  foldl (λ m r, <[kf r := vf r]> m) m0 l !! k = Some v →
  (∃ r, r ∈ l ∧ kf r = k ∧ vf r = v) ∨ m0 !! k = Some v.
Proof.
  revert m0. induction l as [|r l IH]; intros m0; simpl; [by right|].
  intros [(r' & Hr' & Hk & Hv)|Hm0]%IH.
  - left. exists r'. split; [by right|done].
  - destruct (decide (kf r = k)) as [Heq|Hne].
    + rewrite Heq, lookup_insert_eq in Hm0. injection Hm0 as <-.
      left. exists r. split; [by left|done].
    + rewrite lookup_insert_ne in Hm0 by done. by right.
Qed.

Lemma foldl_insert_dom {B} (kf : B → string) (vf : B → Q) (l : list B)
    (m0 : gmap string Q) :
  dom (foldl (λ m r, <[kf r := vf r]> m) m0 l)
  = dom m0 ∪ list_to_set (map kf l).
Proof.
  revert m0. induction l as [|r l IH]; intros m0; simpl.
  - by rewrite (right_id_L ∅ (∪)).
  - rewrite IH, dom_insert_L.
    by rewrite (comm_L (∪) {[kf r]} (dom m0)), (assoc_L (∪)).
Qed.

Lemma get_score_bounds (scores : gmap string Q) (msg_id : string) :
  (∀ k v, scores !! k = Some v → 0 < v ∧ v <= 1) →
  0 <= get_score scores msg_id ∧ get_score scores msg_id <= 1.
Proof.
  intros Hscores. unfold get_score.
  destruct (scores !! msg_id) as [v|] eqn:Hv; simpl.
  - destruct (Hscores _ _ Hv). split; [by apply Qlt_le_weak|done].
  - split; [apply Qle_refl|discriminate].
Qed.

(** Dividing positive scores by their maximum keeps the keys and puts
    every score in (0, 1]. *)
Lemma normalize_spec (scores : gmap string Q) :
  (∀ k v, scores !! k = Some v → 0 < v) →
  ∃ normalized,
    normalize scores = Ok normalized
    ∧ dom normalized = dom scores
    ∧ (∀ k v, normalized !! k = Some v → 0 < v ∧ v <= 1).
Proof.
  intros Hpos. unfold normalize.
  destruct (py_max (map_to_list scores).*2) as [m|] eqn:Hmax.
  - apply py_max_spec in Hmax as [Hin Hle].
    apply list_elem_of_fmap in Hin as ([k v] & -> & Hkv%elem_of_map_to_list).
    simpl in *. pose proof (Hpos _ _ Hkv) as Hm.
    destruct (Qeq_bool v 0) eqn:Hz.
    { apply Qeq_bool_eq in Hz. rewrite Hz in Hm. by apply Qlt_irrefl in Hm. }
    eexists. split; [done|]. split; [apply dom_fmap_L|].
    intros k' v' (x & <- & Hx)%lookup_fmap_Some.
    split.
    + apply Qlt_shift_div_l; [done|]. rewrite Qmult_0_l. by eapply Hpos.
    + apply Qle_shift_div_r; [done|]. rewrite Qmult_1_l.
      rewrite Forall_forall in Hle. apply Hle.
      apply list_elem_of_fmap. exists (k', x). split; [done|].
      by apply elem_of_map_to_list.
  - eexists. split; [done|]. split; [done|].
    apply py_max_None, fmap_nil_inv, map_to_list_empty_iff in Hmax as ->.
    intros k v. by rewrite lookup_empty.
Qed.

Lemma semantic_score_dict_spec (h : heap) (semantic_results : list addr)
    (acc : gmap string Q) :
  Forall (λ r, 0 <= default 2 (d_distance (h !!! r))) semantic_results →
  (∀ k v, acc !! k = Some v → 0 < v) →
  ∃ scores,
    semantic_score_dict h semantic_results acc = Ok scores
    ∧ dom scores = dom acc ∪ list_to_set (dense_ids h semantic_results)
    ∧ (∀ k v, scores !! k = Some v → 0 < v).
Proof.
  intros Hdist. revert acc.
  induction Hdist as [|r rest Hr _ IH]; intros acc Hacc; simpl.
  - exists acc. split; [done|]. split; [|done].
    unfold dense_ids. simpl. by rewrite (right_id_L ∅ (∪)).
  - unfold py_div.
    destruct (Qeq_bool (1 + default 2 (d_distance (h !!! r))) 0) eqn:Hz.
    { apply Qeq_bool_eq in Hz. lra. }
    simpl.
    destruct (IH (<[d_id (h !!! r) := 1 / (1 + default 2 (d_distance (h !!! r)))]> acc))
      as (scores & Hscores & Hdom & Hpos).
    { intros k v. destruct (decide (d_id (h !!! r) = k)) as [<-|Hne].
      - rewrite lookup_insert_eq. intros [= <-].
        apply Qlt_shift_div_l; lra.
      - rewrite lookup_insert_ne by done. apply Hacc. }
    exists scores. split; [done|]. split; [|done].
    rewrite Hdom, dom_insert_L. unfold dense_ids. simpl.
    by rewrite (comm_L (∪) {[d_id (h !!! r)]} (dom acc)), (assoc_L (∪)).
Qed.

(** ** The result loop of the fusion *)

Section ResultLoopProperties.
Context {datetime : Type}.
Context (h0 : heap) (semantic_results : list addr)
        (bm25_results : list (@BM25Result datetime))
        (combined_scores bm25_scores semantic_scores : gmap string Q).

(** The caller's list holds addresses of dictionaries that exist. *)
Hypothesis semantic_results_valid :
  Forall (λ r, (r < length h0)%nat) semantic_results.

Local Abbreviation step :=
  (result_step semantic_results bm25_results
               combined_scores bm25_scores semantic_scores).
Local Abbreviation invariant :=
  (loop_invariant h0 semantic_results bm25_results
                  combined_scores bm25_scores semantic_scores).
Local Abbreviation result_at :=
  (result_of h0 semantic_results bm25_results
             combined_scores bm25_scores semantic_scores).

Lemma find_semantic_Some (h : heap) (rs : list addr) (msg_id : string) (r : addr) :
  find_semantic h rs msg_id = Some r → r ∈ rs ∧ d_id (h !!! r) = msg_id.
Proof.
  induction rs as [|r' rs IH]; simpl; [done|].
  case_bool_decide as Hid.
  - intros [= <-]. split; [by left|done].
  - intros [Hin ?]%IH. split; [by right|done].
Qed.

Lemma find_semantic_None (h : heap) (rs : list addr) (msg_id : string) :
  find_semantic h rs msg_id = None → msg_id ∉ dense_ids h rs.
Proof.
  induction rs as [|r' rs IH]; simpl; [intros _; apply not_elem_of_nil|].
  case_bool_decide as Hid; [done|].
  intros Hnone%IH. by apply not_elem_of_cons.
Qed.

Lemma find_semantic_ext (h h' : heap) (rs : list addr) (msg_id : string) :
  Forall (λ r, d_id (h' !!! r) = d_id (h !!! r)) rs →
  find_semantic h' rs msg_id = find_semantic h rs msg_id.
Proof.
  induction 1 as [|r rs Hr _ IH]; simpl; [done|]. by rewrite Hr, IH.
Qed.

Lemma find_lexical_Some (rs : list (@BM25Result datetime))
    (msg_id : string) (r : BM25Result) :
  find_lexical rs msg_id = Some r → r ∈ rs ∧ r_id r = msg_id.
Proof.
  induction rs as [|r' rs IH]; simpl; [done|].
  case_bool_decide as Hid.
  - intros [= <-]. split; [by left|done].
  - intros [Hin ?]%IH. split; [by right|done].
Qed.

Lemma find_lexical_is_Some (rs : list (@BM25Result datetime)) (msg_id : string) :
  msg_id ∈ map r_id rs → is_Some (find_lexical rs msg_id).
Proof.
  induction rs as [|r' rs IH]; simpl; [by intros ?%elem_of_nil|].
  case_bool_decide as Hid; [by eexists|].
  intros [?|?]%elem_of_cons; [congruence|by apply IH].
Qed.

(** An id is findable when a dense or a lexical result carries it. *)
Lemma findable (msg_id : string) :
  msg_id ∈ dense_ids h0 semantic_results ∨ msg_id ∈ map r_id bm25_results →
  is_Some (find_semantic h0 semantic_results msg_id)
  ∨ is_Some (find_lexical bm25_results msg_id).
Proof.
  intros [Hdense|Hlex]; [|right; by apply find_lexical_is_Some].
  left. destruct (find_semantic h0 semantic_results msg_id) eqn:Hfind;
    [by eexists|].
  by apply find_semantic_None in Hfind.
Qed.

Lemma invariant_start : invariant [] (h0, []).
Proof. repeat split; simpl; auto. Qed.

(** One iteration keeps the invariant. *)
Lemma result_step_invariant (processed : list string)
    (st : heap * list addr) (msg_id : string) :
  invariant processed st →
  msg_id ∉ processed →
  is_Some (find_semantic h0 semantic_results msg_id)
  ∨ is_Some (find_lexical bm25_results msg_id) →
  invariant (processed ++ [msg_id]) (step st msg_id).
Proof.
  destruct st as [h results]. intros (Hlen & Hids & Hframe & Hres) Hnew Hfind.
  simpl in *. unfold result_step.
  assert (Hsame : find_semantic h semantic_results msg_id
                  = find_semantic h0 semantic_results msg_id).
  { apply find_semantic_ext.
    eapply Forall_impl; [exact semantic_results_valid|]. simpl. auto. }
  assert (Hbound : ∀ id a, result_at h id a → (a < length h)%nat).
  { intros id a. unfold result_of.
    destruct (find_semantic h0 semantic_results id).
    - intros [_ Ha]. by eapply lookup_lt_Some.
    - intros (r & _ & _ & Ha). by eapply lookup_lt_Some. }
  rewrite Hsame.
  destruct (find_semantic h0 semantic_results msg_id) as [r|] eqn:Hdense.
  - (* the dense dictionary at [r] is the result *)
    destruct (find_semantic_Some _ _ _ _ Hdense) as [Hr Hid].
    assert (Hr0 : (r < length h0)%nat).
    { rewrite Forall_forall in semantic_results_valid. auto. }
    assert (Hfresh : h !! r = h0 !! r).
    { apply Hframe; [done|]. intros id Hid' Hfind'.
      apply find_semantic_Some in Hfind' as [_ Hid'']. congruence. }
    unfold loop_invariant; simpl. split; [|split; [|split]].
    + by rewrite length_alter.
    + intros a Ha. destruct (decide (r = a)) as [<-|Hne].
      * rewrite <- (Hids r Hr0).
        rewrite !list_lookup_total_alt, list_lookup_alter_eq.
        destruct (h !! r); done.
      * rewrite <- (Hids a Ha).
        by rewrite !list_lookup_total_alt, list_lookup_alter_ne.
    + intros a Ha Hnot. rewrite list_lookup_alter_ne.
      * apply Hframe; [done|]. intros id Hid'. apply Hnot.
        apply elem_of_app. by left.
      * intros <-. apply (Hnot msg_id); [|done].
        apply elem_of_app. right. by left.
    + apply Forall2_app.
      * apply Forall2_same_length_lookup_2; [by eapply Forall2_length|].
        intros i id a Hi Ha.
        pose proof (Forall2_lookup_lr _ _ _ _ _ _ Hres Hi Ha) as Hra.
        assert (Hin : id ∈ processed) by (by eapply list_elem_of_lookup_2).
        revert Hra. unfold result_of.
        destruct (find_semantic h0 semantic_results id) as [r'|] eqn:Hf.
        -- intros [-> Hlook]. split; [done|].
           rewrite list_lookup_alter_ne; [done|]. intros ->.
           apply find_semantic_Some in Hf as [_ Hf]. congruence.
        -- intros (r' & Hlex & Hge & Hlook). exists r'.
           split; [done|]. split; [done|].
           rewrite list_lookup_alter_ne; [done|]. lia.
      * constructor; [|constructor]. unfold result_of. rewrite Hdense.
        split; [done|]. rewrite list_lookup_alter_eq, Hfresh.
        by rewrite (list_lookup_lookup_total_lt h0 r Hr0).
  - (* no dense dictionary: a new one from the lexical result *)
    destruct Hfind as [[? ?]|[r Hlex]]; [done|]. rewrite Hlex.
    assert (Halter : ∀ (f : pydict → pydict) d,
              alter f (length h) (h ++ [d]) = h ++ [f d]).
    { intros f d. apply list_eq. intros i. rewrite list_lookup_alter.
      case_decide as Hi.
      - subst i. by rewrite !list_lookup_middle.
      - destruct (decide (i < length h)%nat).
        + by rewrite !lookup_app_l.
        + rewrite !lookup_ge_None_2; [done|..]; rewrite length_app; simpl; lia. }
    rewrite Halter.
    unfold loop_invariant; simpl. split; [|split; [|split]].
    + rewrite length_app. simpl. lia.
    + intros a Ha. rewrite <- (Hids a Ha).
      rewrite !list_lookup_total_alt, lookup_app_l by lia. done.
    + intros a Ha Hnot. rewrite lookup_app_l by lia.
      apply Hframe; [done|]. intros id Hid'. apply Hnot.
      apply elem_of_app. by left.
    + apply Forall2_app.
      * eapply Forall2_impl; [exact Hres|].
        simpl. intros id a Hra. pose proof (Hbound id a Hra) as Hlt.
        revert Hra. unfold result_of.
        destruct (find_semantic h0 semantic_results id) as [r'|].
        -- intros [-> Hlook]. split; [done|]. by rewrite lookup_app_l.
        -- intros (r' & Hlex' & Hge & Hlook). exists r'.
           split; [done|]. split; [done|]. by rewrite lookup_app_l.
      * constructor; [|constructor]. unfold result_of. rewrite Hdense.
        exists r. split; [done|]. split; [done|].
        by rewrite list_lookup_middle.
Qed.

(** The whole loop, over ids that are distinct and findable. *)
Lemma result_loop_invariant (ids : list string) :
  NoDup ids →
  Forall (λ msg_id,
            msg_id ∈ dense_ids h0 semantic_results
            ∨ msg_id ∈ map r_id bm25_results) ids →
  invariant ids
    (result_loop semantic_results bm25_results
                 combined_scores bm25_scores semantic_scores h0 ids).
Proof.
  unfold result_loop. intros Hnodup Hfind.
  assert (Hgen : ∀ processed st,
            invariant processed st → NoDup (processed ++ ids) →
            invariant (processed ++ ids) (foldl step st ids)).
  { clear Hnodup. induction Hfind as [|msg_id ids Hid _ IH];
      intros processed st Hinv Hnodup; simpl.
    - by rewrite app_nil_r.
    - rewrite (assoc_L (++) processed [msg_id] ids : processed ++ msg_id :: ids = _).
      apply IH.
      + apply result_step_invariant; [done| |by apply findable].
        apply NoDup_app in Hnodup as (_ & Hdisj & _).
        intros Hin. apply (Hdisj _ Hin). by left.
      + by rewrite <- (assoc_L (++) processed [msg_id] ids). }
  apply (Hgen [] (h0, [])); [apply invariant_start|done].
Qed.
End ResultLoopProperties.

(** ** The fusion *)

Section FusionProperties.
Context {datetime : Type} (isoformat : datetime → string).
Context (bm25_score : list (list string) → list string → list string → Q).
Context {np_sort : Argsort}.

Local Abbreviation search := (search_bm25 isoformat bm25_score).
Local Abbreviation fuse := (hybrid_search isoformat bm25_score).

Lemma collect_results_positive (messages : option (list (Message datetime)))
    (scores : list Q) (idxs : list nat) (results : list BM25Result) :
  collect_results isoformat messages scores idxs = Ok results →
  Forall (λ r, 0 < r_bm25_score r) results.
Proof.
  revert results. induction idxs as [|i idxs IH]; intros results; simpl.
  - intros [= <-]. constructor.
  - destruct (scores !! i) as [score|]; [|done].
    destruct (Qltb 0 score) eqn:Hpos; [|by apply IH].
    destruct messages as [msgs|]; [|done].
    destruct (msgs !! i) as [msg|]; [|done].
    destruct (collect_results _ _ _ idxs) as [rest|]; [|done].
    simpl. intros [= <-]. constructor; [by apply Qltb_lt|by apply IH].
Qed.

(** [search_bm25] assigns nothing to [self], and what it returns has
    scores above 0. *)
Lemma search_bm25_pure (self : HybridRetriever) (query : string)
    (top_k : Z) (use_expansion : bool) :
  (search query top_k use_expansion self).2 = self.
Proof.
  unfold search_bm25, bind, get, ret, lift. simpl.
  by destruct (_bm25 self).
Qed.

Lemma search_bm25_positive (self self' : HybridRetriever) (query : string)
    (top_k : Z) (use_expansion : bool) (results : list BM25Result) :
  search query top_k use_expansion self = (Ok results, self') →
  Forall (λ r, 0 < r_bm25_score r) results.
Proof.
  unfold search_bm25, bind, get, ret, lift. simpl.
  destruct (_bm25 self).
  - intros [= Hres _]. by eapply collect_results_positive.
  - intros [= <- _]. constructor.
Qed.

Lemma search_bm25_ready (self : HybridRetriever) (query : string) (top_k : Z)
    (use_expansion : bool) :
  retriever_ready self →
  ∃ results, search query top_k use_expansion self = (Ok results, self).
Proof.
  intros [->|(self0 & messages & Hindex)].
  - exists []. by apply search_bm25_None.
  - destruct (search_bm25_indexed isoformat bm25_score self0 self messages
                query top_k use_expansion Hindex) as (results & Hrun & _).
    by exists results.
Qed.

Lemma combine_lookup (bm25_weight : Q)
    (bm25_scores semantic_scores : gmap string Q) (all_ids : list string)
    (msg_id : string) :
  msg_id ∈ all_ids →
  combine bm25_weight bm25_scores semantic_scores all_ids !! msg_id
  = Some (combined_score bm25_weight bm25_scores semantic_scores msg_id).
Proof.
  intros Hin.
  set (f := combined_score bm25_weight bm25_scores semantic_scores).
  change (combine bm25_weight bm25_scores semantic_scores all_ids)
    with (foldl (λ (m : gmap string Q) r, <[id r := f r]> m) ∅ all_ids).
  assert (Hsome : is_Some (foldl (λ (m : gmap string Q) r, <[id r := f r]> m)
                                 ∅ all_ids !! msg_id)).
  { apply (elem_of_dom (D := gset string)).
    rewrite (foldl_insert_dom id f). apply elem_of_union_r.
    apply elem_of_list_to_set. by rewrite map_id. }
  destruct Hsome as [v Hv]. rewrite Hv.
  apply (foldl_insert_lookup id f) in Hv as [(r & _ & <- & <-)|Hv];
    [done|by rewrite lookup_empty in Hv].
Qed.

Lemma combine_get_score_candidate (bm25_weight : Q)
    (bm25_scores semantic_scores : gmap string Q) (all_ids : list string)
    (msg_id : string) :
  msg_id ∈ all_ids →
  get_score (combine bm25_weight bm25_scores semantic_scores all_ids) msg_id
  = combined_score bm25_weight bm25_scores semantic_scores msg_id.
Proof. intros Hin. unfold get_score at 1. by rewrite combine_lookup. Qed.

Lemma combine_lookup_None (bm25_weight : Q)
    (bm25_scores semantic_scores : gmap string Q) (all_ids : list string)
    (msg_id : string) :
  msg_id ∉ all_ids →
  combine bm25_weight bm25_scores semantic_scores all_ids !! msg_id = None.
Proof.
  intros Hin.
  set (f := combined_score bm25_weight bm25_scores semantic_scores).
  change (combine bm25_weight bm25_scores semantic_scores all_ids)
    with (foldl (λ (m : gmap string Q) r, <[id r := f r]> m) ∅ all_ids).
  apply (not_elem_of_dom (D := gset string)).
  rewrite (foldl_insert_dom id f), dom_empty_L, (left_id_L ∅ (∪)).
  by rewrite elem_of_list_to_set, map_id.
Qed.

(** The fused score of every id, candidate or not, is the weighted sum
    of its two normalized scores. *)
Lemma combine_get_score (bm25_weight : Q)
    (bm25_scores semantic_scores : gmap string Q) (msg_id : string) :
  get_score
    (combine bm25_weight bm25_scores semantic_scores
             (elements (dom bm25_scores ∪ dom semantic_scores)))
    msg_id
  == combined_score bm25_weight bm25_scores semantic_scores msg_id.
Proof.
  destruct (decide (msg_id ∈ elements (dom bm25_scores ∪ dom semantic_scores)))
    as [Hin|Hout]; unfold get_score at 1.
  - by rewrite combine_lookup.
  - rewrite combine_lookup_None by done. simpl.
    rewrite elem_of_elements, elem_of_union, !elem_of_dom in Hout.
    unfold combined_score, get_score.
    destruct (bm25_scores !! msg_id) eqn:Hb;
      [exfalso; apply Hout; left; by eexists|].
    destruct (semantic_scores !! msg_id) eqn:Hs;
      [exfalso; apply Hout; right; by eexists|].
    simpl. ring.
Qed.

Lemma sorted_ids_NoDup (combined_scores : gmap string Q)
    (keys : list string) (top_k : Z) :
  NoDup keys → NoDup (sorted_ids combined_scores keys top_k).
Proof.
  intros Hkeys. unfold sorted_ids.
  eapply sublist_NoDup; [|apply slice_to_sublist].
  unfold sorted_reverse. by rewrite stable_sort_perm.
Qed.

Lemma sorted_ids_subseteq (combined_scores : gmap string Q)
    (keys : list string) (top_k : Z) (msg_id : string) :
  msg_id ∈ sorted_ids combined_scores keys top_k → msg_id ∈ keys.
Proof.
  unfold sorted_ids. intros Hin.
  rewrite <- (stable_sort_perm
                (λ x y, Qle_bool (get_score combined_scores y)
                                 (get_score combined_scores x)) keys).
  eapply elem_of_submseteq; [exact Hin|].
  apply sublist_submseteq, slice_to_sublist.
Qed.

(** [hybrid_search] step by step, when the lexical search returns
    [bm25_results] and the distances of the dense results are not
    negative. *)
Lemma hybrid_search_spec (self : HybridRetriever) (h : heap) (query : string)
    (semantic_results : list addr) (bm25_weight : Q) (top_k : Z)
    (bm25_results : list BM25Result) :
  (search query 100 true self).1 = Ok bm25_results →
  Forall (λ r, (r < length h)%nat) semantic_results →
  Forall (λ r, 0 <= default 2 (d_distance (h !!! r))) semantic_results →
  ∃ semantic_scores0 bm25_scores semantic_scores,
    semantic_score_dict h semantic_results ∅ = Ok semantic_scores0
    ∧ normalize (bm25_score_dict bm25_results) = Ok bm25_scores
    ∧ normalize semantic_scores0 = Ok semantic_scores
    ∧ dom bm25_scores = list_to_set (map r_id bm25_results)
    ∧ dom semantic_scores = list_to_set (dense_ids h semantic_results)
    ∧ (∀ k v, bm25_scores !! k = Some v → 0 < v ∧ v <= 1)
    ∧ (∀ k v, semantic_scores !! k = Some v → 0 < v ∧ v <= 1)
    ∧ let all_ids := elements (dom bm25_scores ∪ dom semantic_scores) in
      let combined_scores :=
        combine bm25_weight bm25_scores semantic_scores all_ids in
      let ids := sorted_ids combined_scores all_ids top_k in
      let st := result_loop semantic_results bm25_results combined_scores
                            bm25_scores semantic_scores h ids in
      fuse query semantic_results bm25_weight top_k
           {| w_self := self; w_heap := h |}
      = (Ok st.2, {| w_self := self; w_heap := st.1 |})
      ∧ NoDup ids
      ∧ loop_invariant h semantic_results bm25_results combined_scores
                       bm25_scores semantic_scores ids st.
Proof.
  intros Hsearch Hvalid Hdist.
  pose proof (search_bm25_pure self query 100 true) as Hpure.
  destruct (search query 100 true self) as [o self'] eqn:Hrun.
  simpl in Hsearch, Hpure. subst o self'.
  pose proof (search_bm25_positive _ _ _ _ _ _ Hrun) as Hpos.
  assert (Hraw : ∀ k v, bm25_score_dict bm25_results !! k = Some v → 0 < v).
  { intros k v [(r & Hr & _ & <-)|Hv]%foldl_insert_lookup.
    - rewrite Forall_forall in Hpos. by apply Hpos.
    - by rewrite lookup_empty in Hv. }
  destruct (semantic_score_dict_spec h semantic_results ∅ Hdist)
    as (semantic_scores0 & Hsem0 & Hdom0 & Hpos0).
  { intros k v. by rewrite lookup_empty. }
  destruct (normalize_spec _ Hraw) as (bm25_scores & Hbn & Hbdom & Hbrange).
  destruct (normalize_spec _ Hpos0) as (semantic_scores & Hsn & Hsdom & Hsrange).
  exists semantic_scores0, bm25_scores, semantic_scores.
  assert (Hbdom' : dom bm25_scores = list_to_set (map r_id bm25_results)).
  { rewrite Hbdom. unfold bm25_score_dict.
    by rewrite (foldl_insert_dom r_id r_bm25_score), dom_empty_L,
               (left_id_L ∅ (∪)). }
  assert (Hsdom' : dom semantic_scores
                   = list_to_set (dense_ids h semantic_results)).
  { by rewrite Hsdom, Hdom0, dom_empty_L, (left_id_L ∅ (∪)). }
  do 7 (split; [done|]).
  intros all_ids combined_scores ids st.
  assert (Hids : NoDup ids).
  { apply sorted_ids_NoDup, NoDup_elements. }
  split; [|split; [done|]].
  - unfold hybrid_search, bind, on_self, get, lift, put, ret. simpl.
    rewrite Hrun. simpl. rewrite Hsem0, Hbn, Hsn.
    fold all_ids. fold combined_scores. fold ids. fold st.
    by destruct st.
  - apply result_loop_invariant; [done|done|].
    apply Forall_forall. intros msg_id Hin%sorted_ids_subseteq.
    unfold all_ids in Hin.
    rewrite elem_of_elements, elem_of_union, Hbdom', Hsdom',
            !elem_of_list_to_set in Hin. tauto.
Qed.

(** When the lexical search raises, so does the fusion, before it
    touches the heap. *)
Lemma hybrid_search_raise (self : HybridRetriever) (h : heap) (query : string)
    (semantic_results : list addr) (bm25_weight : Q) (top_k : Z) (e : exn) :
  (search query 100 true self).1 = Raise e →
  fuse query semantic_results bm25_weight top_k
       {| w_self := self; w_heap := h |}
  = (Raise e, {| w_self := self; w_heap := h |}).
Proof.
  intros Hsearch.
  pose proof (search_bm25_pure self query 100 true) as Hpure.
  unfold hybrid_search, bind, on_self. simpl.
  destruct (search query 100 true self) as [o self'].
  simpl in Hsearch, Hpure. by subst o self'.
Qed.

Lemma Forall2_map_eq {A B} (f : B → A) (l : list A) (k : list B) :
  Forall2 (λ x y, f y = x) l k → map f k = l.
Proof. induction 1 as [|x y l k Hxy _ IH]; simpl; [done|]. by rewrite Hxy, IH. Qed.

(** The fields of a result, read off [result_of]. *)
Lemma result_of_fields (h0 h : heap) (semantic_results : list addr)
    (bm25_results : list (@BM25Result datetime))
    (combined_scores bm25_scores semantic_scores : gmap string Q)
    (msg_id : string) (a : addr) :
  result_of h0 semantic_results bm25_results combined_scores bm25_scores
            semantic_scores h msg_id a →
  ∃ d, h !! a = Some d
       ∧ d_id d = msg_id
       ∧ d_hybrid_score d = Some (get_score combined_scores msg_id)
       ∧ d_bm25_score d = Some (get_score bm25_scores msg_id)
       ∧ d_semantic_score d = Some (get_score semantic_scores msg_id).
Proof.
  unfold result_of.
  destruct (find_semantic h0 semantic_results msg_id) as [r|] eqn:Hfind.
  - intros [-> Hlook]. eexists. split; [exact Hlook|].
    apply find_semantic_Some in Hfind as [_ Hid]. by repeat split.
  - intros (r & Hlex & _ & Hlook). eexists. split; [exact Hlook|].
    apply find_lexical_Some in Hlex as [_ Hid]. by repeat split.
Qed.

Lemma results_ids (h0 h : heap) (semantic_results : list addr)
    (bm25_results : list (@BM25Result datetime))
    (combined_scores bm25_scores semantic_scores : gmap string Q)
    (ids : list string) (results : list addr) :
  Forall2 (result_of h0 semantic_results bm25_results combined_scores
                     bm25_scores semantic_scores h) ids results →
  map (λ a, d_id (h !!! a)) results = ids.
Proof.
  intros Hres. apply Forall2_map_eq.
  eapply Forall2_impl; [exact Hres|]. simpl.
  intros msg_id a (d & Hlook & Hid & _)%result_of_fields.
  by rewrite (list_lookup_total_correct _ _ _ Hlook).
Qed.

Lemma nonneg_distances (h : heap) (semantic_results : list addr) :
  Forall (λ r, ∀ x, d_distance (h !!! r) = Some x → 0 <= x) semantic_results →
  Forall (λ r, 0 <= default 2 (d_distance (h !!! r))) semantic_results.
Proof.
  intros Hdist. eapply Forall_impl; [exact Hdist|]. simpl. intros r Hr.
  destruct (d_distance (h !!! r)) as [x|]; simpl; [by apply Hr|discriminate].
Qed.

Lemma combined_score_bounds (bm25_weight : Q)
    (bm25_scores semantic_scores : gmap string Q) (msg_id : string) :
  0 <= bm25_weight → bm25_weight <= 1 →
  (∀ k v, bm25_scores !! k = Some v → 0 < v ∧ v <= 1) →
  (∀ k v, semantic_scores !! k = Some v → 0 < v ∧ v <= 1) →
  0 <= combined_score bm25_weight bm25_scores semantic_scores msg_id
  ∧ combined_score bm25_weight bm25_scores semantic_scores msg_id <= 1.
Proof.
  intros Hw0 Hw1 Hb Hs. unfold combined_score.
  destruct (get_score_bounds bm25_scores msg_id Hb) as [Hb0 Hb1].
  destruct (get_score_bounds semantic_scores msg_id Hs) as [Hs0 Hs1].
  set (b := get_score bm25_scores msg_id) in *.
  set (s := get_score semantic_scores msg_id) in *.
  split; nra.
Qed.

(** C1: for dense results whose distances are not negative and a
    weight between 0 and 1, every call of [hybrid_search] either returns
    a list in which every dictionary carries a ['hybrid_score'] between
    0 and 1, or raises what the lexical search raised, returning no
    list. On a ready retriever the lexical search does not raise. *)
Theorem hybrid_score_in_unit_interval (self : HybridRetriever) (h : heap)
    (query : string) (semantic_results : list addr) (bm25_weight : Q)
    (top_k : Z) :
  Forall (λ r, (r < length h)%nat) semantic_results →
  Forall (λ r, ∀ x, d_distance (h !!! r) = Some x → 0 <= x) semantic_results →
  0 <= bm25_weight → bm25_weight <= 1 →
  match (search query 100 true self).1 with
  | Ok _ =>
      ∃ results h',
        fuse query semantic_results bm25_weight top_k
             {| w_self := self; w_heap := h |}
        = (Ok results, {| w_self := self; w_heap := h' |})
        ∧ Forall (λ a, ∃ d s, h' !! a = Some d ∧ d_hybrid_score d = Some s
                              ∧ 0 <= s ∧ s <= 1) results
  | Raise e =>
      fuse query semantic_results bm25_weight top_k
           {| w_self := self; w_heap := h |}
      = (Raise e, {| w_self := self; w_heap := h |})
  end
  ∧ (retriever_ready self →
     ∃ bm25_results, (search query 100 true self).1 = Ok bm25_results).
Proof.
  intros Hvalid Hdist%nonneg_distances Hw0 Hw1. split.
  2:{ intros Hready.
      destruct (search_bm25_ready self query 100 true Hready) as [rs Hrs].
      exists rs. by rewrite Hrs. }
  destruct ((search query 100 true self).1) as [bm25_results|e] eqn:Hsearch;
    [|by apply hybrid_search_raise].
  destruct (hybrid_search_spec self h query semantic_results bm25_weight top_k
              bm25_results Hsearch Hvalid Hdist)
    as (semantic_scores0 & bm25_scores & semantic_scores
        & _ & _ & _ & _ & _ & Hb & Hs & Hrun & Hnodup & Hinv).
  destruct (result_loop _ _ _ _ _ _ _) as [h' results] eqn:Hloop.
  simpl in *. exists results, h'. split; [done|].
  destruct Hinv as (_ & _ & _ & Hres). simpl in Hres.
  apply Forall_forall. intros a [i Ha]%list_elem_of_lookup.
  destruct (Forall2_lookup_r _ _ _ _ _ Hres Ha) as (msg_id & Hid & Hra).
  apply result_of_fields in Hra as (d & Hlook & _ & Hscore & _).
  exists d, (get_score
               (combine bm25_weight bm25_scores semantic_scores
                  (elements (dom bm25_scores ∪ dom semantic_scores))) msg_id).
  split; [done|]. split; [done|].
  rewrite combine_get_score_candidate.
  - by apply combined_score_bounds.
  - eapply sorted_ids_subseteq, list_elem_of_lookup_2, Hid.
Qed.

(** A dictionary filled from a list holds, for a key, the value of the
    last item with that key. *)
Lemma foldl_insert_last {B} (kf : B → string) (vf : B → Q) (l : list B)
    (k : string) :
  foldl (λ (m : gmap string Q) r, <[kf r := vf r]> m) ∅ l !! k
  = last_score kf vf l k.
Proof.
  unfold last_score. induction l as [|x l IH] using rev_ind.
  { simpl. by rewrite lookup_empty. }
  rewrite foldl_app, filter_app. simpl.
  destruct (decide (kf x = k)) as [Hk|Hk].
  - rewrite Hk, lookup_insert_eq.
    rewrite (filter_cons_True (λ y, kf y = k) x []) by done.
    rewrite filter_nil. by rewrite last_snoc.
  - rewrite lookup_insert_ne by done.
    rewrite (filter_cons_False (λ y, kf y = k) x []) by done.
    rewrite filter_nil, (right_id_L [] (++)). apply IH.
Qed.

(** The loop that turns distances into similarities fills a dictionary
    from the list of dense results. *)
Lemma semantic_score_dict_foldl (h : heap) (semantic_results : list addr)
    (acc scores : gmap string Q) :
  semantic_score_dict h semantic_results acc = Ok scores →
  scores
  = foldl (λ (m : gmap string Q) r,
             <[d_id (h !!! r) := 1 / (1 + default 2 (d_distance (h !!! r)))]> m)
          acc semantic_results.
Proof.
  revert acc. induction semantic_results as [|r rest IH]; intros acc; simpl.
  { by intros [= <-]. }
  unfold py_div.
  destruct (Qeq_bool (1 + default 2 (d_distance (h !!! r))) 0); [done|].
  simpl. apply IH.
Qed.

(** Dividing by the maximum normalizes in the sense of
    [normalized_score]. *)
Lemma normalize_normalized (scores normalized : gmap string Q)
    (msg_id : string) :
  (∀ k v, scores !! k = Some v → 0 < v) →
  normalize scores = Ok normalized →
  normalized_score (λ k, scores !! k) msg_id (get_score normalized msg_id).
Proof.
  intros Hpos. unfold normalize, normalized_score, get_score.
  destruct (py_max (map_to_list scores).*2) as [m|] eqn:Hmax.
  - apply py_max_spec in Hmax as [Hin Hle].
    apply list_elem_of_fmap in Hin as ([k v] & -> & Hkv%elem_of_map_to_list).
    simpl in *. pose proof (Hpos _ _ Hkv) as Hm.
    destruct (Qeq_bool v 0) eqn:Hz.
    { apply Qeq_bool_eq in Hz. rewrite Hz in Hm. by apply Qlt_irrefl in Hm. }
    intros [= <-]. rewrite lookup_fmap.
    destruct (scores !! msg_id) as [x|] eqn:Hx; simpl; [|reflexivity].
    exists v. split; [by exists k|]. split; [|reflexivity].
    intros k' v' Hk'. rewrite Forall_forall in Hle. apply Hle.
    apply list_elem_of_fmap. exists (k', v'). split; [done|].
    by apply elem_of_map_to_list.
  - intros [= <-].
    apply py_max_None, fmap_nil_inv, map_to_list_empty_iff in Hmax as ->.
    rewrite lookup_empty. simpl. reflexivity.
Qed.

Lemma normalized_score_ext (raw raw' : string → option Q) (msg_id : string)
    (s : Q) :
  (∀ k, raw k = raw' k) →
  normalized_score raw msg_id s → normalized_score raw' msg_id s.
Proof.
  intros Hext. unfold normalized_score. rewrite <- Hext.
  destruct (raw msg_id) as [v|]; [|done].
  intros (m & [k Hk] & Hmax & Hs). exists m.
  split; [exists k; by rewrite <- Hext|]. split; [|done].
  intros k' v'. rewrite <- Hext. apply Hmax.
Qed.

Lemma normalized_score_proper (raw : string → option Q) (msg_id : string)
    (s s' : Q) :
  s == s' → normalized_score raw msg_id s → normalized_score raw msg_id s'.
Proof.
  intros Heq. unfold normalized_score.
  destruct (raw msg_id) as [v|].
  - intros (m & Hm & Hmax & Hs). exists m. split; [done|]. split; [done|].
    by rewrite <- Heq.
  - intros Hs. by rewrite <- Heq.
Qed.

Lemma normalized_score_unique (raw : string → option Q) (msg_id : string)
    (s s' : Q) :
  normalized_score raw msg_id s → normalized_score raw msg_id s' → s == s'.
Proof.
  unfold normalized_score. destruct (raw msg_id) as [v|].
  - intros (m & [k Hk] & Hmax & ->) (m' & [k' Hk'] & Hmax' & ->).
    assert (Hmm : m == m').
    { apply Qle_antisym; [by eapply Hmax'|by eapply Hmax]. }
    by rewrite Hmm.
  - intros -> ->. reflexivity.
Qed.

(** The fusion when the weighted sum is, for every id, its score [S]. *)
Lemma hybrid_search_ranked_by (self : HybridRetriever) (h : heap)
    (query : string) (semantic_results : list addr) (bm25_weight : Q)
    (top_k : Z) (bm25_results : list BM25Result)
    (semantic_scores0 bm25_scores semantic_scores : gmap string Q)
    (S : string → Q → Prop) :
  Forall (λ r, (r < length h)%nat) semantic_results →
  Forall (λ r, 0 <= default 2 (d_distance (h !!! r))) semantic_results →
  (search query 100 true self).1 = Ok bm25_results →
  semantic_score_dict h semantic_results ∅ = Ok semantic_scores0 →
  normalize (bm25_score_dict bm25_results) = Ok bm25_scores →
  normalize semantic_scores0 = Ok semantic_scores →
  (∀ x, S x (combined_score bm25_weight bm25_scores semantic_scores x)) →
  (∀ x s s', S x s → S x s' → s == s') →
  (∀ x s s', s == s' → S x s → S x s') →
  ∃ results h',
    fuse query semantic_results bm25_weight top_k
         {| w_self := self; w_heap := h |}
    = (Ok results, {| w_self := self; w_heap := h' |})
    ∧ ranked_by S (λ msg_id, msg_id ∈ map r_id bm25_results
                             ∨ msg_id ∈ dense_ids h semantic_results)
                top_k h' results.
Proof.
  intros Hvalid Hdist Hsearch Hsem0 Hbn Hsn Hscore Hunique Hproper.
  destruct (hybrid_search_spec self h query semantic_results bm25_weight top_k
              bm25_results Hsearch Hvalid Hdist)
    as (semantic_scores0' & bm25_scores' & semantic_scores'
        & Hsem0' & Hbn' & Hsn' & Hbdom & Hsdom & _ & _ & Hrun & _ & Hinv).
  rewrite Hsem0 in Hsem0'. injection Hsem0' as <-.
  rewrite Hbn in Hbn'. injection Hbn' as <-.
  rewrite Hsn in Hsn'. injection Hsn' as <-.
  destruct (result_loop _ _ _ _ _ _ _) as [h' results] eqn:Hloop.
  simpl in *.
  set (all_ids := elements (dom bm25_scores ∪ dom semantic_scores)) in *.
  set (combined_scores :=
         combine bm25_weight bm25_scores semantic_scores all_ids) in *.
  destruct Hinv as (_ & _ & _ & Hres). simpl in Hres.
  assert (Hfused : ∀ x, S x (get_score combined_scores x)).
  { intros x. eapply Hproper; [|apply Hscore].
    unfold combined_scores, all_ids. by rewrite combine_get_score. }
  exists results, h'. split; [done|].
  exists (sorted_reverse (get_score combined_scores) all_ids).
  split; [unfold sorted_reverse; rewrite stable_sort_perm; apply NoDup_elements|].
  split.
  { intros msg_id. unfold sorted_reverse. rewrite stable_sort_perm.
    unfold all_ids.
    by rewrite elem_of_elements, elem_of_union, Hbdom, Hsdom,
               !elem_of_list_to_set. }
  split; [apply Forall_forall; intros x _; by eexists|].
  split.
  { eapply StronglySorted_impl; [|apply sorted_reverse_sorted].
    intros x y _ _ Hle sx sy Hsx Hsy.
    rewrite (Hunique x sx _ Hsx (Hfused x)), (Hunique y sy _ Hsy (Hfused y)).
    exact Hle. }
  split; [by rewrite (results_ids _ _ _ _ _ _ _ _ _ Hres)|].
  eapply Forall2_Forall_right; [|exact Hres].
  intros msg_id a (d & Hlook & Hd & Hs & _)%result_of_fields.
  exists d, (get_score combined_scores msg_id).
  split; [done|]. split; [done|]. rewrite Hd. apply Hfused.
Qed.

(** C3: with weight 1 the results are the candidates ranked by their
    normalized lexical score alone: the BM25 score divided by the
    greatest BM25 score of the lexical results, 0 for an id the lexical
    search did not return; they come by descending score, cut to
    [top_k], and each ['hybrid_score'] is that score. With weight 0,
    the same with the normalized dense similarity, which is
    [1 / (1 + distance)] divided by the greatest similarity of the
    dense results. *)
Theorem hybrid_search_single_signal (self : HybridRetriever) (h : heap)
    (query : string) (semantic_results : list addr) (top_k : Z) :
  retriever_ready self →
  Forall (λ r, (r < length h)%nat) semantic_results →
  Forall (λ r, ∀ x, d_distance (h !!! r) = Some x → 0 <= x) semantic_results →
  ∃ bm25_results,
    search query 100 true self = (Ok bm25_results, self)
    ∧ let candidates :=
        λ msg_id, msg_id ∈ map r_id bm25_results
                  ∨ msg_id ∈ dense_ids h semantic_results in
      (∃ results h',
         fuse query semantic_results 1 top_k {| w_self := self; w_heap := h |}
         = (Ok results, {| w_self := self; w_heap := h' |})
         ∧ ranked_by (normalized_score (lexical_score bm25_results))
                     candidates top_k h' results)
      ∧ (∃ results h',
           fuse query semantic_results 0 top_k
                {| w_self := self; w_heap := h |}
           = (Ok results, {| w_self := self; w_heap := h' |})
           ∧ ranked_by (normalized_score (dense_similarity h semantic_results))
                       candidates top_k h' results).
Proof.
  intros Hready Hvalid Hdist%nonneg_distances.
  destruct (search_bm25_ready self query 100 true Hready)
    as [bm25_results Hsearch].
  assert (Hsearch1 : (search query 100 true self).1 = Ok bm25_results)
    by (by rewrite Hsearch).
  pose proof (search_bm25_positive _ _ _ _ _ _ Hsearch) as Hpos.
  assert (Hraw : ∀ k v, bm25_score_dict bm25_results !! k = Some v → 0 < v).
  { intros k v [(r & Hr & _ & <-)|Hv]%foldl_insert_lookup.
    - rewrite Forall_forall in Hpos. by apply Hpos.
    - by rewrite lookup_empty in Hv. }
  destruct (semantic_score_dict_spec h semantic_results ∅ Hdist)
    as (semantic_scores0 & Hsem0 & _ & Hpos0).
  { intros k v. by rewrite lookup_empty. }
  destruct (normalize_spec _ Hraw) as (bm25_scores & Hbn & _).
  destruct (normalize_spec _ Hpos0) as (semantic_scores & Hsn & _).
  assert (Hlex : ∀ x, normalized_score (lexical_score bm25_results) x
                                       (get_score bm25_scores x)).
  { intros x. eapply normalized_score_ext;
      [|by apply (normalize_normalized _ _ x Hraw Hbn)].
    intros k. apply (foldl_insert_last r_id r_bm25_score). }
  assert (Hden : ∀ x, normalized_score (dense_similarity h semantic_results) x
                                       (get_score semantic_scores x)).
  { intros x. eapply normalized_score_ext;
      [|by apply (normalize_normalized _ _ x Hpos0 Hsn)].
    intros k. rewrite (semantic_score_dict_foldl _ _ _ _ Hsem0).
    apply (foldl_insert_last (λ r, d_id (h !!! r))
             (λ r, 1 / (1 + default 2 (d_distance (h !!! r))))). }
  exists bm25_results. split; [done|]. split.
  - eapply hybrid_search_ranked_by; try done.
    + intros x. eapply normalized_score_proper; [|apply Hlex].
      unfold combined_score. ring.
    + intros x. apply normalized_score_unique.
    + intros x s s'. apply normalized_score_proper.
  - eapply hybrid_search_ranked_by; try done.
    + intros x. eapply normalized_score_proper; [|apply Hden].
      unfold combined_score. ring.
    + intros x. apply normalized_score_unique.
    + intros x s s'. apply normalized_score_proper.
Qed.

Lemma find_semantic_is_Some (h : heap) (semantic_results : list addr)
    (msg_id : string) :
  is_Some (find_semantic h semantic_results msg_id)
  ↔ msg_id ∈ dense_ids h semantic_results.
Proof.
  split.
  - intros [r [Hr Hid]%find_semantic_Some]. unfold dense_ids.
    apply list_elem_of_fmap. by exists r.
  - intros Hin. destruct (find_semantic h semantic_results msg_id) eqn:Hfind;
      [by eexists|].
    by apply find_semantic_None in Hfind.
Qed.

Lemma get_score_absent (scores : gmap string Q) (ids : list string)
    (msg_id : string) :
  dom scores = list_to_set ids → msg_id ∉ ids → get_score scores msg_id = 0.
Proof.
  intros Hdom Hout. unfold get_score.
  destruct (scores !! msg_id) as [v|] eqn:Hv; [|done].
  exfalso. apply Hout, (elem_of_list_to_set (C := gset string)).
  rewrite <- Hdom. apply elem_of_dom. by eexists.
Qed.

(** C8: the candidates of the fusion are the ids of both lists; an id
    missing from one list counts 0 there, and its fused score is the
    weighted sum all the same; the returned ids are the first [top_k] of
    the ranking of all candidates. The dictionary returned for an id is
    the first dense one with that id when there is one, at its own
    address, with its document, user name, timestamp and distance; and
    otherwise a new dictionary with the document, user name and
    timestamp of the first lexical result with that id and the
    distance 0.5. *)
Theorem hybrid_search_one_sided_ids (self : HybridRetriever) (h : heap)
    (query : string) (semantic_results : list addr) (bm25_weight : Q)
    (top_k : Z) :
  retriever_ready self →
  Forall (λ r, (r < length h)%nat) semantic_results →
  Forall (λ r, ∀ x, d_distance (h !!! r) = Some x → 0 <= x) semantic_results →
  ∃ bm25_results semantic_scores0 bm25_scores semantic_scores
    ranking results h',
    search query 100 true self = (Ok bm25_results, self)
    ∧ semantic_score_dict h semantic_results ∅ = Ok semantic_scores0
    ∧ normalize (bm25_score_dict bm25_results) = Ok bm25_scores
    ∧ normalize semantic_scores0 = Ok semantic_scores
    ∧ fuse query semantic_results bm25_weight top_k
           {| w_self := self; w_heap := h |}
      = (Ok results, {| w_self := self; w_heap := h' |})
    ∧ NoDup ranking
    ∧ (∀ msg_id, msg_id ∈ ranking ↔
                 msg_id ∈ map r_id bm25_results
                 ∨ msg_id ∈ dense_ids h semantic_results)
    ∧ map (λ a, d_id (h' !!! a)) results = slice_to top_k ranking
    ∧ (∀ msg_id, msg_id ∉ map r_id bm25_results →
                 get_score bm25_scores msg_id = 0)
    ∧ (∀ msg_id, msg_id ∉ dense_ids h semantic_results →
                 get_score semantic_scores msg_id = 0)
    ∧ (∀ msg_id, is_Some (find_semantic h semantic_results msg_id)
                 ↔ msg_id ∈ dense_ids h semantic_results)
    ∧ Forall
        (λ a, ∃ d,
           h' !! a = Some d
           ∧ d_hybrid_score d
             = Some (bm25_weight * get_score bm25_scores (d_id d)
                     + (1 - bm25_weight) * get_score semantic_scores (d_id d))
           ∧ d_bm25_score d = Some (get_score bm25_scores (d_id d))
           ∧ d_semantic_score d = Some (get_score semantic_scores (d_id d))
           ∧ match find_semantic h semantic_results (d_id d) with
             | Some r =>
                 a = r
                 ∧ ∃ d0, h !! r = Some d0
                         ∧ d_document d = d_document d0
                         ∧ d_user_name d = d_user_name d0
                         ∧ d_timestamp d = d_timestamp d0
                         ∧ d_distance d = d_distance d0
             | None =>
                 (length h ≤ a)%nat
                 ∧ ∃ r, find_lexical bm25_results (d_id d) = Some r
                        ∧ d_document d = r_document r
                        ∧ d_user_name d = r_user_name r
                        ∧ d_timestamp d = r_timestamp r
                        ∧ d_distance d = Some (1 # 2)
             end)
        results.
Proof.
  intros Hready Hvalid Hdist%nonneg_distances.
  destruct (search_bm25_ready self query 100 true Hready)
    as [bm25_results Hsearch].
  assert (Hsearch1 : (search query 100 true self).1 = Ok bm25_results)
    by (by rewrite Hsearch).
  destruct (hybrid_search_spec self h query semantic_results bm25_weight top_k
              bm25_results Hsearch1 Hvalid Hdist)
    as (semantic_scores0 & bm25_scores & semantic_scores
        & Hsem0 & Hbn & Hsn & Hbdom & Hsdom & _ & _
        & Hrun & Hnodup & Hinv).
  destruct (result_loop _ _ _ _ _ _ _) as [h' results] eqn:Hloop.
  simpl in *.
  set (all_ids := elements (dom bm25_scores ∪ dom semantic_scores)) in *.
  set (combined_scores :=
         combine bm25_weight bm25_scores semantic_scores all_ids) in *.
  exists bm25_results, semantic_scores0, bm25_scores, semantic_scores,
    (sorted_reverse (get_score combined_scores) all_ids), results, h'.
  destruct Hinv as (_ & _ & _ & Hres). simpl in Hres.
  do 5 (split; [done|]).
  split; [unfold sorted_reverse; rewrite stable_sort_perm; apply NoDup_elements|].
  split.
  { intros msg_id. unfold sorted_reverse. rewrite stable_sort_perm.
    unfold all_ids.
    by rewrite elem_of_elements, elem_of_union, Hbdom, Hsdom,
               !elem_of_list_to_set. }
  split; [by rewrite (results_ids _ _ _ _ _ _ _ _ _ Hres)|].
  split; [intros msg_id; by apply get_score_absent|].
  split; [intros msg_id; by apply get_score_absent|].
  split; [apply find_semantic_is_Some|].
  apply Forall_forall. intros a [i Ha]%list_elem_of_lookup.
  destruct (Forall2_lookup_r _ _ _ _ _ Hres Ha) as (msg_id & Hid & Hra).
  assert (Hcand : msg_id ∈ all_ids).
  { eapply sorted_ids_subseteq, list_elem_of_lookup_2, Hid. }
  pose proof (combine_get_score_candidate bm25_weight bm25_scores
                semantic_scores all_ids msg_id Hcand) as Hfused.
  fold combined_scores in Hfused.
  destruct (result_of_fields _ _ _ _ _ _ _ _ _ Hra)
    as (d & Hlook & Hd & Hhy & Hbm & Hse).
  exists d. rewrite Hd. rewrite Hfused in Hhy.
  do 4 (split; [done|]).
  revert Hra. unfold result_of.
  destruct (find_semantic h semantic_results msg_id) as [r|] eqn:Hfind.
  - intros [-> Hlook']. split; [done|]. exists (h !!! r).
    rewrite Hlook in Hlook'. injection Hlook' as ->.
    apply find_semantic_Some in Hfind as [Hr _].
    rewrite Forall_forall in Hvalid.
    split; [by apply list_lookup_lookup_total_lt, Hvalid|done].
  - intros (r & Hlex & Hge & Hlook'). split; [done|]. exists r.
    rewrite Hlook in Hlook'. by injection Hlook' as ->.
Qed.

(** C10: the results follow the fused ids, one result per id of the
    ranking cut to [top_k]. For a fused id with a dense counterpart the
    result is the caller's own dictionary, the first of
    [semantic_results] with that id, at its own address; after the call
    that dictionary holds the three score keys, written in place, and
    its other keys as they were. For a fused id without a dense
    counterpart the result is a dictionary that did not exist before.
    Every dictionary that existed and is not returned, so every entry
    of [semantic_results] that does not survive the fusion, is
    unchanged. *)
Theorem hybrid_search_mutates_dense_results (self : HybridRetriever)
    (h : heap) (query : string) (semantic_results : list addr)
    (bm25_weight : Q) (top_k : Z) :
  retriever_ready self →
  Forall (λ r, (r < length h)%nat) semantic_results →
  Forall (λ r, ∀ x, d_distance (h !!! r) = Some x → 0 <= x) semantic_results →
  ∃ bm25_results semantic_scores0 bm25_scores semantic_scores
    ranking results h',
    search query 100 true self = (Ok bm25_results, self)
    ∧ semantic_score_dict h semantic_results ∅ = Ok semantic_scores0
    ∧ normalize (bm25_score_dict bm25_results) = Ok bm25_scores
    ∧ normalize semantic_scores0 = Ok semantic_scores
    ∧ fuse query semantic_results bm25_weight top_k
           {| w_self := self; w_heap := h |}
      = (Ok results, {| w_self := self; w_heap := h' |})
    ∧ NoDup ranking
    ∧ (∀ msg_id, msg_id ∈ ranking ↔
                 msg_id ∈ map r_id bm25_results
                 ∨ msg_id ∈ dense_ids h semantic_results)
    ∧ (∀ msg_id, is_Some (find_semantic h semantic_results msg_id)
                 ↔ msg_id ∈ dense_ids h semantic_results)
    ∧ Forall2
        (λ msg_id a,
           match find_semantic h semantic_results msg_id with
           | Some r =>
               a = r ∧ r ∈ semantic_results
               ∧ ∃ d0,
                   h !! r = Some d0 ∧ d_id d0 = msg_id
                   ∧ h' !! r
                     = Some {| d_id := d_id d0;
                               d_document := d_document d0;
                               d_user_name := d_user_name d0;
                               d_timestamp := d_timestamp d0;
                               d_distance := d_distance d0;
                               d_hybrid_score :=
                                 Some (bm25_weight
                                       * get_score bm25_scores msg_id
                                       + (1 - bm25_weight)
                                         * get_score semantic_scores msg_id);
                               d_bm25_score :=
                                 Some (get_score bm25_scores msg_id);
                               d_semantic_score :=
                                 Some (get_score semantic_scores msg_id) |}
           | None => (length h ≤ a)%nat
           end)
        (slice_to top_k ranking) results
    ∧ (∀ a, (a < length h)%nat → a ∉ results → h' !! a = h !! a)
    ∧ (∀ r, r ∈ semantic_results → r ∉ results → h' !! r = h !! r)
    ∧ (length h ≤ length h')%nat.
Proof.
  intros Hready Hvalid Hdist%nonneg_distances.
  destruct (search_bm25_ready self query 100 true Hready)
    as [bm25_results Hsearch].
  assert (Hsearch1 : (search query 100 true self).1 = Ok bm25_results)
    by (by rewrite Hsearch).
  destruct (hybrid_search_spec self h query semantic_results bm25_weight top_k
              bm25_results Hsearch1 Hvalid Hdist)
    as (semantic_scores0 & bm25_scores & semantic_scores
        & Hsem0 & Hbn & Hsn & Hbdom & Hsdom & _ & _
        & Hrun & Hnodup & Hinv).
  destruct (result_loop _ _ _ _ _ _ _) as [h' results] eqn:Hloop.
  simpl in *.
  set (all_ids := elements (dom bm25_scores ∪ dom semantic_scores)) in *.
  set (combined_scores :=
         combine bm25_weight bm25_scores semantic_scores all_ids) in *.
  exists bm25_results, semantic_scores0, bm25_scores, semantic_scores,
    (sorted_reverse (get_score combined_scores) all_ids), results, h'.
  destruct Hinv as (Hlen & _ & Hframe & Hres). simpl in Hlen, Hframe, Hres.
  do 5 (split; [done|]).
  split; [unfold sorted_reverse; rewrite stable_sort_perm; apply NoDup_elements|].
  split.
  { intros msg_id. unfold sorted_reverse. rewrite stable_sort_perm.
    unfold all_ids.
    by rewrite elem_of_elements, elem_of_union, Hbdom, Hsdom,
               !elem_of_list_to_set. }
  split; [apply find_semantic_is_Some|].
  assert (Hunchanged : ∀ a, (a < length h)%nat → a ∉ results →
                            h' !! a = h !! a).
  { intros a Ha Hout. apply Hframe; [done|].
    intros msg_id [i Hi]%list_elem_of_lookup Hfind.
    destruct (Forall2_lookup_l _ _ _ _ _ Hres Hi) as (a' & Ha' & Hra).
    revert Hra. unfold result_of. rewrite Hfind. intros [-> _].
    apply Hout. by eapply list_elem_of_lookup_2. }
  split; [|split; [done|split; [|done]]].
  - apply Forall2_same_length_lookup_2; [by eapply Forall2_length|].
    intros i msg_id a Hi Ha.
    pose proof (Forall2_lookup_lr _ _ _ _ _ _ Hres Hi Ha) as Hra.
    assert (Hcand : msg_id ∈ all_ids).
    { eapply sorted_ids_subseteq, list_elem_of_lookup_2, Hi. }
    pose proof (combine_get_score_candidate bm25_weight bm25_scores
                  semantic_scores all_ids msg_id Hcand) as Hfused.
    fold combined_scores in Hfused.
    revert Hra. unfold result_of.
    destruct (find_semantic h semantic_results msg_id) as [r|] eqn:Hfind.
    + intros [-> Hlook].
      pose proof (find_semantic_Some _ _ _ _ Hfind) as [Hr Hid].
      split; [done|]. split; [done|]. exists (h !!! r).
      rewrite Forall_forall in Hvalid.
      split; [by apply list_lookup_lookup_total_lt, Hvalid|].
      split; [done|].
      rewrite Hlook. unfold scored, set_scores. by rewrite Hfused.
    + by intros (r & _ & Hge & _).
  - intros r Hr. apply Hunchanged. rewrite Forall_forall in Hvalid.
    by apply Hvalid.
Qed.
End FusionProperties.

(** ** The properties on the sample corpus *)

Lemma sample_corpus_indexed :
  index_messages sample_corpus HybridRetriever_init = (Ok tt, sample_retriever).
Proof. vm_compute. reflexivity. Defined.

Lemma sample_retriever_ready : retriever_ready sample_retriever.
Proof.
  right. exists HybridRetriever_init, sample_corpus. exact sample_corpus_indexed.
Defined.

Lemma sample_dense_valid :
  Forall (λ r, (r < length sample_heap)%nat) sample_dense.
Proof. repeat constructor. Defined.

Lemma sample_dense_distances :
  Forall (λ r, ∀ x, d_distance (sample_heap !!! r) = Some x → 0 <= x)
         sample_dense.
Proof. repeat constructor; intros x [= <-]; discriminate. Defined.

Lemma search_bm25_before_indexing_witness :
  _bm25 (@HybridRetriever_init string) = None
  ∧ search_bm25 sample_isoformat term_count_score "london" 100 true
                HybridRetriever_init
    = (Ok [], HybridRetriever_init).
Proof.
  split; [reflexivity|].
  apply (search_bm25_before_indexing sample_isoformat term_count_score).
  reflexivity.
Defined.

(** C2, as stated, names an order for equal scores that the code does
    not fix. ["m0"] and ["m1"] are the same text, "m0" comes first in
    the corpus, both score 1 for ["london"]. With a stable
    [np.argsort] "m1" is returned first, the reverse of corpus order;
    with a sort that leaves equal scores in decreasing position "m0"
    is. Both sorts have the contract of [np.argsort]. *)
Lemma search_bm25_tie_order_not_fixed :
  map msg_id sample_corpus = ["m0"; "m1"; "m2"; "m3"; "m4"]%string
  ∧ match (search_bm25 (np_sort := stable_Argsort) sample_isoformat
                       term_count_score "london" 100 true
                       sample_retriever).1 with
    | Ok results =>
        map (λ r, (r_id r, r_bm25_score r)) results
        = [("m1"%string, 1); ("m0"%string, 1)]
    | Raise _ => False
    end
  ∧ match (search_bm25 (np_sort := backward_Argsort) sample_isoformat
                       term_count_score "london" 100 true
                       sample_retriever).1 with
    | Ok results =>
        map (λ r, (r_id r, r_bm25_score r)) results
        = [("m0"%string, 1); ("m1"%string, 1)]
    | Raise _ => False
    end.
Proof. vm_compute. repeat split; reflexivity. Qed.

Lemma search_bm25_ranking_witness :
  index_messages sample_corpus HybridRetriever_init = (Ok tt, sample_retriever)
  ∧ (0 ≤ 10)%Z
  ∧ ∃ results,
      search_bm25 sample_isoformat term_count_score "london" 10 true
                  sample_retriever
      = (Ok results, sample_retriever)
      ∧ Forall (λ r, 0 < r_bm25_score r) results
      ∧ StronglySorted (λ r1 r2, r_bm25_score r2 <= r_bm25_score r1) results
      ∧ (length results ≤ Z.to_nat 10)%nat.
Proof.
  split; [exact sample_corpus_indexed|]. split; [lia|].
  destruct (search_bm25_ranking sample_isoformat term_count_score
              HybridRetriever_init sample_retriever sample_corpus
              "london" 10 true sample_corpus_indexed)
    as (results & positions & Hrun & _ & _ & Hpos & Hsorted & Hlen & _);
    [lia|].
  exists results. auto.
Defined.

Lemma hybrid_score_in_unit_interval_witness :
  Forall (λ r, (r < length sample_heap)%nat) sample_dense
  ∧ Forall (λ r, ∀ x, d_distance (sample_heap !!! r) = Some x → 0 <= x)
           sample_dense
  ∧ 0 <= 6 # 10 ∧ 6 # 10 <= 1
  ∧ ∃ results h',
      hybrid_search sample_isoformat term_count_score "london" sample_dense
                    (6 # 10) 25 sample_world
      = (Ok results, {| w_self := sample_retriever; w_heap := h' |})
      ∧ Forall (λ a, ∃ d s, h' !! a = Some d ∧ d_hybrid_score d = Some s
                            ∧ 0 <= s ∧ s <= 1) results.
Proof.
  split; [exact sample_dense_valid|].
  split; [exact sample_dense_distances|].
  split; [discriminate|]. split; [discriminate|].
  assert (Hw0 : 0 <= 6 # 10) by discriminate.
  assert (Hw1 : 6 # 10 <= 1) by discriminate.
  destruct (hybrid_score_in_unit_interval sample_isoformat term_count_score
              sample_retriever sample_heap "london" sample_dense (6 # 10) 25
              sample_dense_valid sample_dense_distances Hw0 Hw1)
    as [Hcall Hready].
  destruct (Hready sample_retriever_ready) as [bm25_results Hsearch].
  rewrite Hsearch in Hcall. exact Hcall.
Defined.

Lemma hybrid_search_single_signal_witness :
  retriever_ready sample_retriever
  ∧ Forall (λ r, (r < length sample_heap)%nat) sample_dense
  ∧ Forall (λ r, ∀ x, d_distance (sample_heap !!! r) = Some x → 0 <= x)
           sample_dense
  ∧ ∃ bm25_results results h',
      search_bm25 sample_isoformat term_count_score "london" 100 true
                  sample_retriever
      = (Ok bm25_results, sample_retriever)
      ∧ hybrid_search sample_isoformat term_count_score "london" sample_dense
                      1 25 sample_world
        = (Ok results, {| w_self := sample_retriever; w_heap := h' |})
      ∧ ranked_by (normalized_score (lexical_score bm25_results))
                  (λ msg_id, msg_id ∈ map r_id bm25_results
                             ∨ msg_id ∈ dense_ids sample_heap sample_dense)
                  25 h' results.
Proof.
  split; [exact sample_retriever_ready|].
  split; [exact sample_dense_valid|].
  split; [exact sample_dense_distances|].
  destruct (hybrid_search_single_signal sample_isoformat term_count_score
              sample_retriever sample_heap "london" sample_dense 25
              sample_retriever_ready sample_dense_valid sample_dense_distances)
    as (bm25_results & Hsearch & (results & h' & Hrun & Hranked) & _).
  exists bm25_results, results, h'.
  split; [exact Hsearch|]. split; [exact Hrun|exact Hranked].
Defined.

Lemma hybrid_search_one_sided_ids_witness :
  retriever_ready sample_retriever
  ∧ Forall (λ r, (r < length sample_heap)%nat) sample_dense
  ∧ Forall (λ r, ∀ x, d_distance (sample_heap !!! r) = Some x → 0 <= x)
           sample_dense
  ∧ ∃ results h',
      hybrid_search sample_isoformat term_count_score "london" sample_dense
                    (6 # 10) 25 sample_world
      = (Ok results, {| w_self := sample_retriever; w_heap := h' |}).
Proof.
  split; [exact sample_retriever_ready|].
  split; [exact sample_dense_valid|].
  split; [exact sample_dense_distances|].
  destruct (hybrid_search_one_sided_ids sample_isoformat term_count_score
              sample_retriever sample_heap "london" sample_dense (6 # 10) 25
              sample_retriever_ready sample_dense_valid sample_dense_distances)
    as (_ & _ & _ & _ & _ & results & h' & _ & _ & _ & _ & Hrun & _).
  exists results, h'. exact Hrun.
Defined.

(** On the sample, cut to one result: the caller's dictionary for "m0"
    is returned at its own address 0 and has a hybrid score, that for
    "m2" does not survive and is as it was. *)
Lemma hybrid_search_mutates_dense_results_witness :
  retriever_ready sample_retriever
  ∧ Forall (λ r, (r < length sample_heap)%nat) sample_dense
  ∧ Forall (λ r, ∀ x, d_distance (sample_heap !!! r) = Some x → 0 <= x)
           sample_dense
  ∧ ∃ h',
      hybrid_search sample_isoformat term_count_score "london" sample_dense
                    (6 # 10) 1 sample_world
      = (Ok [0%nat], {| w_self := sample_retriever; w_heap := h' |})
      ∧ map d_hybrid_score sample_heap = [None; None]
      ∧ map (λ d, Qred <$> d_hybrid_score d) h' = [Some 1; None]
      ∧ h' !! 1%nat = sample_heap !! 1%nat.
Proof.
  split; [exact sample_retriever_ready|].
  split; [exact sample_dense_valid|].
  split; [exact sample_dense_distances|].
  destruct (hybrid_search_mutates_dense_results sample_isoformat
              term_count_score sample_retriever sample_heap "london"
              sample_dense (6 # 10) 1
              sample_retriever_ready sample_dense_valid sample_dense_distances)
    as (_ & _ & _ & _ & _ & results & h' & _ & _ & _ & _ & Hrun & _ & _ & _
        & _ & _ & Hframe & _).
  assert (Hresults :
            (hybrid_search sample_isoformat term_count_score "london"
                           sample_dense (6 # 10) 1 sample_world).1
            = Ok [0%nat])
    by (vm_compute; reflexivity).
  assert (Hscores :
            map (λ d, Qred <$> d_hybrid_score d)
                (w_heap (hybrid_search sample_isoformat term_count_score
                           "london" sample_dense (6 # 10) 1 sample_world).2)
            = [Some 1; None])
    by (vm_compute; reflexivity).
  unfold sample_world in Hresults, Hscores. rewrite Hrun in Hresults, Hscores.
  simpl in Hresults, Hscores. injection Hresults as ->.
  exists h'. split; [exact Hrun|]. split; [reflexivity|].
  split; [exact Hscores|].
  apply Hframe; [repeat constructor|].
  intros [Hin|Hin]%elem_of_cons; [discriminate|by apply elem_of_nil in Hin].
Defined.

(** The fusion of the sample: "m0" has both signals, "m1" only the
    lexical one and is a new dictionary at address 2, "m2" only the dense
    one; all three are returned. *)
Example sample_fusion :
  match hybrid_search sample_isoformat term_count_score "london" sample_dense
                      (6 # 10) 25 sample_world with
  | (Ok results, w) =>
      results = [0; 2; 1]%nat
      ∧ map d_id (w_heap w) = ["m0"; "m2"; "m1"]%string
      ∧ map d_distance (w_heap w) = [Some (1 # 5); Some (4 # 5); Some (1 # 2)]
      ∧ map (λ d, Qred <$> d_hybrid_score d) (w_heap w)
        = [Some 1; Some (4 # 15); Some (3 # 5)]
  | _ => False
  end.
Proof. vm_compute. repeat split. Qed.

(** * More properties *)

(** ** The tokenizer *)

Lemma str_append_cons (x : ascii) (a b : string) :
  String x a +:+ b = String x (a +:+ b).
Proof. reflexivity. Qed.

Lemma str_append_assoc (a b c : string) : (a +:+ b) +:+ c = a +:+ b +:+ c.
Proof.
  induction a as [|x a IH]; [done|]. by rewrite !str_append_cons, IH.
Qed.

Lemma str_append_nil_r (a : string) : a +:+ EmptyString = a.
Proof. induction a as [|x a IH]; [done|]. by rewrite str_append_cons, IH. Qed.

Lemma str_map_app (f : ascii → ascii) (a b : string) :
  str_map f (a +:+ b) = str_map f a +:+ str_map f b.
Proof.
  induction a as [|x a IH]; [done|].
  rewrite str_append_cons. simpl. by rewrite IH.
Qed.

Lemma lower_char_idemp (c : ascii) : lower_char (lower_char c) = lower_char c.
Proof. destruct c as [[] [] [] [] [] [] [] []]; reflexivity. Qed.

Lemma re_word_lower_char (c : ascii) : re_word (lower_char c) = re_word c.
Proof. destruct c as [[] [] [] [] [] [] [] []]; reflexivity. Qed.

Lemma isspace_lower_char (c : ascii) : isspace (lower_char c) = isspace c.
Proof. destruct c as [[] [] [] [] [] [] [] []]; reflexivity. Qed.

Lemma re_word_not_space (c : ascii) : re_word c = true → isspace c = false.
Proof. destruct c as [[] [] [] [] [] [] [] []]; vm_compute; congruence. Qed.

(** A white space character ends the token being read. *)
Lemma split_from_app_space (x y cur : string) (c : ascii) :
  isspace c = true →
  split_from cur (x +:+ String c y)
  = split_from cur x ++ split_from EmptyString y.
Proof.
  intros Hc. revert cur. induction x as [|d x IH]; intros cur.
  - simpl. by rewrite Hc.
  - rewrite str_append_cons. simpl. destruct (isspace d); [|by apply IH].
    by rewrite IH, (assoc_L (++)).
Qed.

(** A run without white space is one token, or none when it is empty. *)
Lemma split_from_run (t cur : string) :
  str_forall (λ c, negb (isspace c)) t = true →
  split_from cur t = flush (cur +:+ t).
Proof.
  revert cur. induction t as [|c t IH]; intros cur; simpl.
  - by rewrite str_append_nil_r.
  - intros [Hc Ht]%andb_true_iff. apply negb_true_iff in Hc. rewrite Hc.
    rewrite IH by done. by rewrite str_append_assoc, str_append_cons.
Qed.

Lemma flush_nil (cur : string) : flush cur = [] ↔ cur = EmptyString.
Proof. by destruct cur. Qed.

Lemma str_append_nil (a b : string) :
  a +:+ b = EmptyString ↔ a = EmptyString ∧ b = EmptyString.
Proof.
  destruct a; [|rewrite str_append_cons; split; [done|by intros [? _]]].
  change (EmptyString +:+ b) with b. tauto.
Qed.

Lemma split_from_nil (s cur : string) :
  split_from cur s = [] ↔ cur = EmptyString ∧ str_forall isspace s = true.
Proof.
  revert cur. induction s as [|c s IH]; intros cur; simpl.
  - rewrite flush_nil. tauto.
  - destruct (isspace c); simpl.
    + rewrite app_nil, flush_nil, IH. tauto.
    + rewrite IH, str_append_nil. split; [by intros [[_ ?] _]|by intros [_ ?]].
Qed.

(** The text that [_tokenize] splits. *)
Lemma re_sub_lower_app (a b : string) :
  re_sub_punct_space (lower (a +:+ " " +:+ b))
  = re_sub_punct_space (lower a) +:+ " " +:+ re_sub_punct_space (lower b).
Proof. unfold re_sub_punct_space, lower. by rewrite !str_map_app. Qed.

Lemma str_forall_ext (p q : ascii → bool) (s : string) :
  (∀ c, p c = q c) → str_forall p s = str_forall q s.
Proof. intros Hpq. induction s as [|c s IH]; simpl; [done|]. by rewrite Hpq, IH. Qed.

Lemma str_map_fixed (f : ascii → ascii) (s : string) :
  str_forall (λ c, bool_decide (f c = c)) s = true → str_map f s = s.
Proof.
  induction s as [|c s IH]; simpl; [done|].
  intros [Hc Hs]%andb_true_iff. apply bool_decide_eq_true in Hc.
  by rewrite Hc, IH.
Qed.

Lemma str_forall_all (p : ascii → bool) (s : string) :
  (∀ c, p c = true) → str_forall p s = true.
Proof.
  intros Hp. induction s as [|c s IH]; [done|].
  cbn [str_forall]. by rewrite Hp, IH.
Qed.

(** A token is a run of word characters that [lower] leaves alone. *)
Lemma tokenize_tokens (text : string) :
  Forall (λ tok, tok ≠ EmptyString
                 ∧ str_forall (λ c, re_word c && bool_decide (lower_char c = c))
                              tok = true)
         (_tokenize text).
Proof.
  unfold _tokenize, split. apply split_from_tokens; [done|].
  unfold re_sub_punct_space, lower. rewrite !str_forall_map.
  apply str_forall_all. intros c.
  destruct c as [[] [] [] [] [] [] [] []]; vm_compute; reflexivity.
Qed.

(** X1: the token list of [name + " " + text], which is what
    [index_messages] builds for a message, is the tokens of the name
    followed by the tokens of the text; so every token of an author's
    name is a token of each of that author's documents. *)
Theorem tokenize_name_and_text (name text : string) :
  _tokenize (name +:+ " " +:+ text) = _tokenize name ++ _tokenize text
  ∧ (∀ tok, tok ∈ _tokenize name → tok ∈ _tokenize (name +:+ " " +:+ text)).
Proof.
  assert (Happ : _tokenize (name +:+ " " +:+ text)
                 = _tokenize name ++ _tokenize text).
  { unfold _tokenize, split. rewrite re_sub_lower_app.
    change (" " +:+ re_sub_punct_space (lower text))
      with (String " " (re_sub_punct_space (lower text))).
    by apply split_from_app_space. }
  split; [done|]. intros tok Htok. rewrite Happ. apply elem_of_app. by left.
Qed.

Lemma str_forall_join (p : ascii → bool) (l : list string) :
  p " "%char = true →
  Forall (λ t, str_forall p t = true) l →
  str_forall p (join " " l) = true.
Proof.
  intros Hsp. induction 1 as [|t l Ht Hl IH]; [done|].
  simpl. destruct l as [|t' l]; [done|].
  rewrite !str_forall_app, Ht, IH. simpl. by rewrite Hsp.
Qed.

Lemma split_join (l : list string) :
  Forall (λ t, t ≠ EmptyString
               ∧ str_forall (λ c, negb (isspace c)) t = true) l →
  split (join " " l) = l.
Proof.
  induction 1 as [|t l [Hne Ht] Hl IH]; [done|].
  assert (Hrun : split_from EmptyString t = [t]).
  { rewrite split_from_run by done. by destruct t. }
  simpl. destruct l as [|t' l]; [done|].
  unfold split in *.
  change (" " +:+ join " " (t' :: l)) with (String " " (join " " (t' :: l))).
  by rewrite split_from_app_space, Hrun, IH.
Qed.

(** X2: tokenizing is idempotent through [" ".join]: the tokens of a
    text, joined by spaces and tokenized again, are the same tokens. *)
Theorem tokenize_join_roundtrip (text : string) :
  _tokenize (join " " (_tokenize text)) = _tokenize text.
Proof.
  pose proof (tokenize_tokens text) as Htok.
  set (tokens := _tokenize text) in *.
  assert (Hfixed : re_sub_punct_space (lower (join " " tokens))
                   = join " " tokens).
  { unfold re_sub_punct_space, lower.
    rewrite (str_map_fixed lower_char), str_map_fixed; [done|..].
    - apply str_forall_join; [done|].
      eapply Forall_impl; [exact Htok|]. simpl. intros t [_ Ht].
      revert Ht. apply str_forall_impl. intros c [Hw _]%andb_true_iff.
      rewrite Hw. by apply bool_decide_eq_true_2.
    - apply str_forall_join; [done|].
      eapply Forall_impl; [exact Htok|]. simpl. intros t [_ Ht].
      revert Ht. apply str_forall_impl. by intros c [_ Hl]%andb_true_iff. }
  unfold _tokenize at 1. rewrite Hfixed. apply split_join.
  eapply Forall_impl; [exact Htok|]. simpl. intros t [Hne Ht].
  split; [done|]. revert Ht. apply str_forall_impl.
  intros c [Hw _]%andb_true_iff. by rewrite (re_word_not_space c Hw).
Qed.

Lemma lower_idemp (s : string) : lower (lower s) = lower s.
Proof.
  unfold lower. induction s as [|c s IH]; [done|].
  cbn [str_map]. by rewrite lower_char_idemp, IH.
Qed.

(** X3: tokenizing does not see the case of the text, and its tokens
    are lowercase already. *)
Theorem tokenize_case_insensitive (text : string) :
  _tokenize (lower text) = _tokenize text
  ∧ Forall (λ tok, lower tok = tok) (_tokenize text).
Proof.
  split; [unfold _tokenize; by rewrite lower_idemp|].
  eapply Forall_impl; [apply tokenize_tokens|]. simpl. intros t [_ Ht].
  apply str_map_fixed. revert Ht. apply str_forall_impl.
  by intros c [_ Hl]%andb_true_iff.
Qed.

(** X4: a text has no token exactly when none of its characters is a
    word character: the empty text, white space, punctuation. *)
Theorem tokenize_nil_iff (text : string) :
  _tokenize text = [] ↔ str_forall (λ c, negb (re_word c)) text = true.
Proof.
  unfold _tokenize, split. rewrite split_from_nil.
  unfold re_sub_punct_space, lower. rewrite !str_forall_map.
  rewrite (str_forall_ext _ (λ c, negb (re_word c))); [tauto|].
  intros c. destruct c as [[] [] [] [] [] [] [] []]; vm_compute; reflexivity.
Qed.

(** ** Query expansion *)

(** No synonym of the table is a key of another entry: looking up a
    synonym gives nothing new. *)
Lemma synonyms_closed (t s u : string) (syns : list string) :
  QUERY_EXPANSIONS !! t = Some syns → s ∈ syns →
  u ∈ default [] (QUERY_EXPANSIONS !! s) → u ∈ syns.
Proof.
  intros H Hs Hu. apply elem_of_list_to_map_2 in H.
  repeat (apply elem_of_cons in H as [H|H];
          [injection H as -> ->;
           repeat (apply elem_of_cons in Hs as [->|Hs];
                   [vm_compute in Hu;
                    first [exact Hu|by apply elem_of_nil in Hu]|]);
           by apply elem_of_nil in Hs|]).
  by apply elem_of_nil in H.
Qed.

Lemma synonyms_length (t : string) (syns : list string) :
  QUERY_EXPANSIONS !! t = Some syns → (length syns ≤ 5)%nat.
Proof.
  intros H. apply elem_of_list_to_map_2 in H.
  repeat (apply elem_of_cons in H as [H|H];
          [injection H as -> ->; simpl; lia|]).
  by apply elem_of_nil in H.
Qed.

(** X5: expanding an expanded query adds nothing: the same tokens come
    out, each once. *)
Theorem expand_query_idempotent (tokens : list string) :
  expand_query (expand_query tokens) ≡ₚ expand_query tokens.
Proof.
  apply NoDup_Permutation;
    [unfold expand_query; apply NoDup_elements..|].
  intros u. rewrite !elem_of_expand_query, !elem_of_expanded_tokens. split.
  - intros (s & Hs & Hu).
    apply elem_of_expand_query, elem_of_expanded_tokens in Hs
      as (t & Ht & Hs).
    exists t. split; [done|].
    destruct Hs as [->|Hs]; [done|].
    destruct Hu as [->|Hu]; [by right|]. right.
    destruct (QUERY_EXPANSIONS !! t) as [syns|] eqn:Hsyns; simpl in *;
      [|by apply elem_of_nil in Hs].
    by eapply synonyms_closed.
  - intros (t & Ht & Hu). destruct Hu as [->|Hu].
    + exists t. split; [|by left].
      apply elem_of_expand_query, elem_of_expanded_tokens. exists t. auto.
    + exists u. split; [|by left].
      apply elem_of_expand_query, elem_of_expanded_tokens. exists t. auto.
Qed.

(** X6: when no token of the query is in the table, expansion only
    removes the repeated tokens. *)
Theorem expand_query_without_synonyms (tokens : list string) :
  Forall (λ t, QUERY_EXPANSIONS !! t = None) tokens →
  expand_query tokens ≡ₚ remove_dups tokens.
Proof.
  intros Hnone. apply NoDup_Permutation;
    [unfold expand_query; apply NoDup_elements|apply NoDup_remove_dups|].
  intros u. rewrite elem_of_expand_query, elem_of_expanded_tokens,
                    elem_of_remove_dups.
  rewrite Forall_forall in Hnone. split.
  - intros (t & Ht & [->|Hu]); [done|].
    rewrite (Hnone t Ht) in Hu. by apply elem_of_nil in Hu.
  - intros Hu. exists u. auto.
Qed.

Lemma expand_query_without_synonyms_witness :
  Forall (λ t, QUERY_EXPANSIONS !! t = None) (_tokenize "London, London!")
  ∧ expand_query (_tokenize "London, London!")
    ≡ₚ remove_dups (_tokenize "London, London!").
Proof.
  assert (H : Forall (λ t, QUERY_EXPANSIONS !! t = None)
                     (_tokenize "London, London!")).
  { vm_compute. repeat constructor. }
  split; [exact H|]. exact (expand_query_without_synonyms _ H).
Defined.

Lemma size_list_to_set_le (l : list string) :
  (size (list_to_set l : gset string) ≤ length l)%nat.
Proof.
  induction l as [|x l IH]; [by rewrite list_to_set_nil, size_empty|].
  rewrite list_to_set_cons, size_union_alt, size_singleton. cbn [length].
  assert (size (list_to_set l ∖ {[x]} : gset string)
          ≤ size (list_to_set l : gset string))%nat; [|lia].
  apply subseteq_size, subseteq_difference_l. done.
Qed.

(** X7: an expanded query has at most five times as many tokens as the
    query. *)
Theorem expand_query_length (tokens : list string) :
  (length (expand_query tokens) ≤ 5 * length tokens)%nat.
Proof.
  change (size (list_to_set (expanded_tokens tokens) : gset string)
          ≤ 5 * length tokens)%nat.
  induction tokens as [|t tokens IH]; cbn [expanded_tokens length].
  - rewrite list_to_set_nil, size_empty. lia.
  - rewrite list_to_set_app_L, size_union_alt.
    assert (Hhead : (size (list_to_set
                             (t :: default [] (QUERY_EXPANSIONS !! t))
                           : gset string) ≤ 5)%nat).
    { rewrite list_to_set_cons.
      destruct (QUERY_EXPANSIONS !! t) as [syns|] eqn:Hsyns.
      - change (default [] (Some syns)) with syns.
        assert (Hsame : ({[t]} ∪ list_to_set syns : gset string)
                        = list_to_set syns).
        { apply subseteq_union_1_L, singleton_subseteq_l, elem_of_list_to_set.
          by eapply QUERY_EXPANSIONS_reflexive. }
        rewrite Hsame.
        etrans; [apply size_list_to_set_le|by eapply synonyms_length].
      - change (default [] (@None (list string))) with (@nil string).
        rewrite list_to_set_nil, (right_id_L ∅ (∪)), size_singleton. lia. }
    assert (Hrest : (size (list_to_set (expanded_tokens tokens)
                           ∖ list_to_set
                               (t :: default [] (QUERY_EXPANSIONS !! t))
                           : gset string)
                     ≤ size (list_to_set (expanded_tokens tokens)
                             : gset string))%nat).
    { apply subseteq_size, subseteq_difference_l. done. }
    lia.
Qed.

(** ** Indexing and searching the lexical index *)

Section LexicalIndexProperties.
Context {datetime : Type} (isoformat : datetime → string).
Context (bm25_score : list (list string) → list string → list string → Q).
Context {np_sort : Argsort}.

Local Abbreviation search := (search_bm25 isoformat bm25_score).
Local Abbreviation collect := (collect_results isoformat).
Local Abbreviation document_tokens :=
  (λ msg : Message datetime,
     _tokenize (msg_user_name msg +:+ " " +:+ msg_message msg)).

Lemma forallb_nil_docs (corpus : list (list string)) :
  forallb (λ doc, bool_decide (doc = [])) corpus = true
  ↔ Forall (λ doc, doc = []) corpus.
Proof.
  rewrite forallb_forall, Forall_forall. split.
  - intros H doc Hdoc. eapply bool_decide_eq_true_1, H. by apply list_elem_of_In.
  - intros H doc Hdoc. apply bool_decide_eq_true_2, H. by apply list_elem_of_In.
Qed.

(** X8: [index_messages] raises exactly when no message has a token
    (the empty list included), and by then it has replaced the stored
    messages and token lists while the index is still the old one;
    otherwise it returns, and the retriever it leaves is indexed and
    does not depend on what it held before. *)
Theorem index_messages_outcome (messages : list (Message datetime))
    (self : HybridRetriever) :
  let corpus := map document_tokens messages in
  (Forall (λ doc, doc = []) corpus →
   index_messages messages self
   = (Raise ZeroDivisionError,
      {| _bm25 := _bm25 self;
         _messages := Some messages;
         _tokenized_corpus := Some corpus |}))
  ∧ (Exists (λ doc, doc ≠ []) corpus →
     ∃ self',
       (∀ self0, index_messages messages self0 = (Ok tt, self'))
       ∧ is_indexed self' = true
       ∧ _messages self' = Some messages
       ∧ _tokenized_corpus self' = Some corpus).
Proof.
  intros corpus. split.
  - intros Hnone%forallb_nil_docs.
    unfold index_messages, bind, get, put, lift, BM25Okapi_new. simpl.
    fold corpus. by rewrite Hnone.
  - intros Hsome.
    assert (Hb : forallb (λ doc, bool_decide (doc = [])) corpus = false).
    { apply not_true_iff_false. intros Hall%forallb_nil_docs.
      apply Exists_exists in Hsome as (doc & Hdoc & Hne).
      rewrite Forall_forall in Hall. auto. }
    exists {| _bm25 := Some {| bm_corpus := corpus |};
              _messages := Some messages;
              _tokenized_corpus := Some corpus |}.
    split; [|done]. intros self0.
    unfold index_messages, bind, get, put, lift, BM25Okapi_new. simpl.
    fold corpus. by rewrite Hb.
Qed.

(** Results for positions that all score 0 or less: none. *)
Lemma collect_results_nonpositive (messages : option (list (Message datetime)))
    (scores : list Q) (idxs : list nat) :
  Forall (λ i, is_Some (scores !! i) ∧ default 0 (scores !! i) <= 0) idxs →
  collect messages scores idxs = Ok [].
Proof.
  induction 1 as [|i idxs [[s Hs] Hle] _ IH]; simpl; [done|].
  rewrite Hs in *. simpl in Hle. apply Qltb_ge in Hle. by rewrite Hle.
Qed.

(** Cutting a descending list of positions cuts the results. *)
Lemma collect_results_take (msgs : list (Message datetime)) (scores : list Q)
    (idxs : list nat) (results : list BM25Result) (k : nat) :
  StronglySorted (λ i j, default 0 (scores !! j) <= default 0 (scores !! i))
                 idxs →
  Forall (λ i, is_Some (scores !! i)) idxs →
  collect (Some msgs) scores idxs = Ok results →
  collect (Some msgs) scores (take k idxs) = Ok (take k results).
Proof.
  intros Hsorted. revert results k.
  induction Hsorted as [|i idxs Hsorted IH Hi]; intros results k Hvalid.
  { simpl. intros [= <-]. by rewrite !take_nil. }
  apply Forall_cons in Hvalid as [[s Hs] Hvalid].
  destruct k as [|k]; [done|]. simpl. rewrite Hs.
  destruct (Qltb 0 s) eqn:Hpos.
  - destruct (msgs !! i) as [msg|]; [|done].
    destruct (collect (Some msgs) scores idxs) as [rest|] eqn:Hrest; [|done].
    simpl. intros [= <-]. by rewrite (IH rest k Hvalid eq_refl).
  - assert (Hnone : Forall (λ j, is_Some (scores !! j)
                                 ∧ default 0 (scores !! j) <= 0) idxs).
    { rewrite Forall_forall in Hi, Hvalid. apply Forall_forall. intros j Hj.
      split; [by apply Hvalid|]. apply Qltb_ge in Hpos.
      eapply Qle_trans; [by apply Hi|]. by rewrite Hs. }
    rewrite (collect_results_nonpositive _ _ _ Hnone). intros [= <-].
    rewrite take_nil. apply collect_results_nonpositive.
    by apply Forall_take.
Qed.

(** What [search_bm25] computes on an indexed retriever. *)
Lemma search_bm25_unfold (messages : list (Message datetime))
    (query : string) (top_k : Z) (use_expansion : bool) :
  let corpus := map document_tokens messages in
  let tokens :=
    if use_expansion then expand_query (_tokenize query) else _tokenize query in
  let scores := map (bm25_score corpus tokens) corpus in
  let self := {| _bm25 := Some {| bm_corpus := corpus |};
                 _messages := Some messages;
                 _tokenized_corpus := Some corpus |} in
  search query top_k use_expansion self
  = (collect (Some messages) scores (top_indices scores top_k), self).
Proof. by destruct use_expansion. Qed.

Lemma slice_to_take {A} (k : Z) (l : list A) :
  (0 ≤ k)%Z → slice_to k l = take (Z.to_nat k) l.
Proof. intros Hk. unfold slice_to. by rewrite (proj2 (Z.leb_le 0 k) Hk). Qed.

Lemma argsort_length (scores : list Q) :
  length (reverse (argsort scores)) = length scores.
Proof. by rewrite length_reverse, (Permutation_length (argsort_perm scores)), length_seq. Qed.

(** The positions of [np.argsort(scores)[::-1]] come by descending
    score. *)
Lemma argsort_reverse_sorted (scores : list Q) :
  StronglySorted (λ i j, default 0 (scores !! j) <= default 0 (scores !! i))
                 (reverse (argsort scores)).
Proof.
  apply (StronglySorted_rev _ _ (argsort_sorted scores)).
Qed.

Lemma argsort_reverse_valid (scores : list Q) :
  Forall (λ i, is_Some (scores !! i)) (reverse (argsort scores)).
Proof.
  apply Forall_forall. intros i Hi.
  rewrite elem_of_reverse, (argsort_perm scores) in Hi.
  apply elem_of_seq in Hi. apply lookup_lt_is_Some. lia.
Qed.

(** X9: on an indexed retriever, a search with [top_k >= 0] returns the
    first [top_k] results of the search over the whole corpus, and any
    [top_k] from the corpus size on returns that whole list: a document
    that is left out scores no more than each one returned. *)
Theorem search_bm25_window (self0 self : HybridRetriever)
    (messages : list (Message datetime)) (query : string) (top_k : Z)
    (use_expansion : bool) :
  index_messages messages self0 = (Ok tt, self) →
  (0 ≤ top_k)%Z →
  ∃ all,
    (∀ k, (Z.of_nat (length messages) ≤ k)%Z →
          search query k use_expansion self = (Ok all, self))
    ∧ search query top_k use_expansion self
      = (Ok (take (Z.to_nat top_k) all), self).
Proof.
  intros Hidx Hk. apply index_messages_state in Hidx as ->.
  pose proof (λ k, search_bm25_unfold messages query k use_expansion) as Hun.
  cbv zeta in Hun.
  set (scores := map _ (map document_tokens messages)) in *.
  assert (Hlen : length scores = length messages).
  { unfold scores. by rewrite !length_map. }
  destruct (collect_results_spec isoformat messages scores
              (reverse (argsort scores))) as (all & Hall & _).
  { apply Forall_forall. intros i Hi. split.
    - rewrite elem_of_reverse, (argsort_perm scores) in Hi.
      apply elem_of_seq in Hi. apply lookup_lt_is_Some. lia.
    - revert i Hi. apply Forall_forall, argsort_reverse_valid. }
  exists all. split.
  - intros k Hge. rewrite Hun.
    unfold top_indices. rewrite slice_to_take by lia.
    rewrite take_ge by (rewrite argsort_length; lia). by rewrite Hall.
  - rewrite Hun.
    unfold top_indices. rewrite slice_to_take by done.
    by rewrite (collect_results_take messages scores _ all _
                  (argsort_reverse_sorted scores)
                  (argsort_reverse_valid scores) Hall).
Qed.

(** X10: with [top_k] at least the corpus size, the results are exactly
    the messages whose document scores more than 0 for the query. *)
Theorem search_bm25_complete (self0 self : HybridRetriever)
    (messages : list (Message datetime)) (query : string) (top_k : Z)
    (use_expansion : bool) :
  index_messages messages self0 = (Ok tt, self) →
  (Z.of_nat (length messages) ≤ top_k)%Z →
  let corpus := map document_tokens messages in
  let tokens :=
    if use_expansion then expand_query (_tokenize query) else _tokenize query in
  let score := λ msg, bm25_score corpus tokens (document_tokens msg) in
  ∃ results,
    search query top_k use_expansion self = (Ok results, self)
    ∧ ∀ r, r ∈ results ↔
           ∃ msg, msg ∈ messages ∧ 0 < score msg
                  ∧ r = bm25_result isoformat msg (score msg).
Proof.
  intros Hidx Hk corpus tokens score.
  destruct (search_bm25_indexed isoformat bm25_score self0 self messages query
              top_k use_expansion Hidx) as (results & Hrun & Hres).
  fold corpus tokens in Hres.
  set (scores := map (bm25_score corpus tokens) corpus) in *.
  assert (Hlen : length scores = length messages).
  { unfold scores, corpus. by rewrite !length_map. }
  assert (Hscore : ∀ i msg s, messages !! i = Some msg → scores !! i = Some s →
                              s = score msg).
  { intros i msg s Hmsg Hs. unfold scores, corpus in Hs.
    rewrite !list_lookup_fmap, Hmsg in Hs. by injection Hs as <-. }
  assert (Htop : top_indices scores top_k = reverse (argsort scores)).
  { unfold top_indices. rewrite slice_to_take by lia.
    apply take_ge. rewrite argsort_length. lia. }
  rewrite Htop in Hres.
  exists results. split; [done|]. intros r. split.
  - intros [p Hp]%list_elem_of_lookup_1.
    destruct (Forall2_lookup_r _ _ _ _ _ Hres Hp)
      as (i & _ & msg & s & Hmsg & Hs & Hpos & ->).
    exists msg. rewrite <-(Hscore i msg s Hmsg Hs).
    split; [by eapply list_elem_of_lookup_2|done].
  - intros (msg & [i Hmsg]%list_elem_of_lookup_1 & Hpos & ->).
    assert (Hs : scores !! i = Some (score msg)).
    { unfold scores, corpus. by rewrite !list_lookup_fmap, Hmsg. }
    assert (Hi : i ∈ filter (λ i, Is_true (Qltb 0 (default 0 (scores !! i))))
                            (reverse (argsort scores))).
    { apply list_elem_of_filter. split.
      - rewrite Hs. simpl. by apply Is_true_true, Qltb_lt.
      - rewrite elem_of_reverse, (argsort_perm scores).
        apply elem_of_seq. apply lookup_lt_Some in Hs. lia. }
    apply list_elem_of_lookup_1 in Hi as [p Hp].
    destruct (Forall2_lookup_l _ _ _ _ _ Hres Hp)
      as (r & Hr & msg' & s' & Hmsg' & Hs' & _ & ->).
    rewrite Hmsg in Hmsg'. injection Hmsg' as <-.
    rewrite Hs in Hs'. injection Hs' as <-.
    by eapply list_elem_of_lookup_2.
Qed.

Lemma collect_results_length (messages : option (list (Message datetime)))
    (scores : list Q) (idxs : list nat) (results : list BM25Result) :
  collect messages scores idxs = Ok results →
  (length results ≤ length idxs)%nat.
Proof.
  revert results. induction idxs as [|i idxs IH]; intros results; simpl.
  { intros [= <-]. done. }
  destruct (scores !! i) as [s|]; [|done]. destruct (Qltb 0 s).
  - destruct messages as [msgs|]; [|done]. destruct (msgs !! i); [|done].
    destruct (collect (Some msgs) scores idxs) as [rest|]; [|done].
    simpl. intros [= <-]. simpl. specialize (IH rest eq_refl). lia.
  - intros H. specialize (IH _ H). lia.
Qed.

(** A search returns at most [top_k] results, whatever the retriever. *)
Lemma search_bm25_length (self : HybridRetriever) (query : string)
    (top_k : Z) (use_expansion : bool) (results : list BM25Result) :
  (search query top_k use_expansion self).1 = Ok results →
  (0 ≤ top_k)%Z →
  (length results ≤ Z.to_nat top_k)%nat.
Proof.
  unfold search_bm25, bind, get, lift, ret. simpl.
  destruct (_bm25 self) as [bm25|]; simpl.
  - intros H Hk. apply collect_results_length in H.
    etrans; [exact H|]. by apply slice_to_length.
  - intros [= <-] _. simpl. lia.
Qed.

(** X24: a negative [top_k] is not refused: [[:top_k]] then drops the
    last positions, so the search answers as with the corpus size
    plus [top_k], or with 0 when that is negative. *)
Theorem search_bm25_negative_top_k (self0 self : HybridRetriever)
    (messages : list (Message datetime)) (query : string) (top_k : Z)
    (use_expansion : bool) :
  index_messages messages self0 = (Ok tt, self) →
  (top_k < 0)%Z →
  search query top_k use_expansion self
  = search query (Z.max 0 (Z.of_nat (length messages) + top_k)) use_expansion
           self.
Proof.
  intros Hidx Hk. apply index_messages_state in Hidx as ->.
  pose proof (λ k, search_bm25_unfold messages query k use_expansion) as Hun.
  cbv zeta in Hun. rewrite !Hun.
  set (scores := map _ (map document_tokens messages)).
  assert (Hlen : length scores = length messages).
  { unfold scores. by rewrite !length_map. }
  unfold top_indices. rewrite (slice_to_take (Z.max _ _)) by lia.
  unfold slice_to. rewrite (proj2 (Z.leb_gt 0 top_k) Hk).
  rewrite argsort_length, Hlen. do 3 f_equal. lia.
Qed.

(** X25: a retriever whose re-indexing failed is left with the old
    index over the new message list: after [index_messages([])] on an
    indexed retriever, [is_indexed] still answers true, and every
    search that asks for at least one result and finds a document
    scoring above 0 raises [IndexError]. *)
Theorem search_after_failed_reindex (self0 self : HybridRetriever)
    (messages : list (Message datetime)) (query : string) (top_k : Z)
    (use_expansion : bool) :
  index_messages messages self0 = (Ok tt, self) →
  (1 ≤ top_k)%Z →
  let corpus := map document_tokens messages in
  let tokens :=
    if use_expansion then expand_query (_tokenize query) else _tokenize query in
  Exists (λ msg, 0 < bm25_score corpus tokens (document_tokens msg)) messages →
  ∃ self',
    index_messages [] self = (Raise ZeroDivisionError, self')
    ∧ is_indexed self' = true
    ∧ search query top_k use_expansion self' = (Raise IndexError, self').
Proof.
  intros Hidx Hk corpus tokens Hhit. apply index_messages_state in Hidx as ->.
  fold corpus.
  exists {| _bm25 := Some {| bm_corpus := corpus |};
            _messages := Some [];
            _tokenized_corpus := Some [] |}.
  split; [done|]. split; [done|].
  set (scores := map (bm25_score corpus tokens) corpus).
  assert (Hrun : search query top_k use_expansion
                   {| _bm25 := Some {| bm_corpus := corpus |};
                      _messages := Some [];
                      _tokenized_corpus := Some [] |}
                 = (collect (Some []) scores (top_indices scores top_k),
                    {| _bm25 := Some {| bm_corpus := corpus |};
                       _messages := Some [];
                       _tokenized_corpus := Some [] |}))
    by (by destruct use_expansion).
  rewrite Hrun. f_equal.
  assert (Hlen : length scores = length messages).
  { unfold scores, corpus. by rewrite !length_map. }
  apply Exists_exists in Hhit as (msg & [p Hp]%list_elem_of_lookup_1 & Hpos).
  assert (Hsp : scores !! p = Some (bm25_score corpus tokens (document_tokens msg))).
  { unfold scores, corpus. by rewrite !list_lookup_fmap, Hp. }
  pose proof (argsort_reverse_sorted scores) as Hsorted.
  pose proof (argsort_reverse_valid scores) as Hvalid.
  assert (Hin : p ∈ reverse (argsort scores)).
  { rewrite elem_of_reverse, (argsort_perm scores).
    apply elem_of_seq. apply lookup_lt_Some in Hsp. lia. }
  unfold top_indices. rewrite slice_to_take by lia.
  destruct (reverse (argsort scores)) as [|i rest]; [by apply elem_of_nil in Hin|].
  apply StronglySorted_inv in Hsorted as [_ Hhead].
  apply Forall_cons in Hvalid as [[s Hs] _].
  assert (Hs_pos : 0 < s).
  { apply elem_of_cons in Hin as [->|Hin].
    - rewrite Hsp in Hs. by injection Hs as <-.
    - rewrite Forall_forall in Hhead. specialize (Hhead p Hin).
      rewrite Hsp, Hs in Hhead. simpl in Hhead.
      eapply Qlt_le_trans; [exact Hpos|exact Hhead]. }
  destruct (Z.to_nat top_k) as [|k] eqn:Hnat; [lia|].
  simpl. rewrite Hs. by rewrite (proj2 (Qltb_lt 0 s) Hs_pos).
Qed.

End LexicalIndexProperties.

Lemma index_messages_outcome_witness :
  let corpus :=
    map (λ msg : Message string,
           _tokenize (msg_user_name msg +:+ " " +:+ msg_message msg))
        sample_corpus in
  Exists (λ doc, doc ≠ []) corpus
  ∧ index_messages [] sample_retriever
    = (Raise ZeroDivisionError,
       {| _bm25 := _bm25 sample_retriever;
          _messages := Some [];
          _tokenized_corpus := Some [] |})
  ∧ ∃ self',
      (∀ self0, index_messages sample_corpus self0 = (Ok tt, self'))
      ∧ is_indexed self' = true
      ∧ _messages self' = Some sample_corpus
      ∧ _tokenized_corpus self' = Some corpus.
Proof.
  intros corpus.
  assert (Hsome : Exists (λ doc : list string, doc ≠ []) corpus).
  { apply Exists_cons_hd. vm_compute. discriminate. }
  split; [exact Hsome|]. split.
  - apply (proj1 (index_messages_outcome [] sample_retriever)). constructor.
  - exact (proj2 (index_messages_outcome sample_corpus sample_retriever) Hsome).
Defined.

Lemma search_bm25_window_witness :
  index_messages sample_corpus HybridRetriever_init = (Ok tt, sample_retriever)
  ∧ (0 ≤ 1)%Z
  ∧ ∃ all,
      (∀ k, (Z.of_nat (length sample_corpus) ≤ k)%Z →
            search_bm25 sample_isoformat term_count_score "london" k true
                        sample_retriever
            = (Ok all, sample_retriever))
      ∧ search_bm25 sample_isoformat term_count_score "london" 1 true
                    sample_retriever
        = (Ok (take (Z.to_nat 1) all), sample_retriever).
Proof.
  split; [exact sample_corpus_indexed|]. split; [lia|].
  exact (search_bm25_window sample_isoformat term_count_score _ _
           sample_corpus "london" 1 true sample_corpus_indexed
           ltac:(lia)).
Defined.

Lemma search_bm25_complete_witness :
  index_messages sample_corpus HybridRetriever_init = (Ok tt, sample_retriever)
  ∧ (Z.of_nat (length sample_corpus) ≤ 100)%Z
  ∧ ∃ results,
      search_bm25 sample_isoformat term_count_score "london" 100 true
                  sample_retriever
      = (Ok results, sample_retriever)
      ∧ ∀ r, r ∈ results →
             ∃ msg, msg ∈ sample_corpus ∧ r_id r = msg_id msg.
Proof.
  split; [exact sample_corpus_indexed|].
  assert (Hk : (Z.of_nat (length sample_corpus) ≤ 100)%Z)
    by (vm_compute; discriminate).
  split; [exact Hk|].
  destruct (search_bm25_complete sample_isoformat term_count_score _ _
              sample_corpus "london" 100 true sample_corpus_indexed Hk)
    as (results & Hrun & Hres).
  exists results. split; [exact Hrun|].
  intros r Hr. apply Hres in Hr as (msg & Hmsg & _ & Hr).
  exists msg. split; [exact Hmsg|]. exact (f_equal r_id Hr).
Defined.

(** ** Normalisation *)



(** ** The ranking of the fusion *)

Section RankingProperties.
Context {datetime : Type} (isoformat : datetime → string).
Context (bm25_score : list (list string) → list string → list string → Q).
Context {np_sort : Argsort}.

Local Abbreviation search := (search_bm25 isoformat bm25_score).
Local Abbreviation fuse := (hybrid_search isoformat bm25_score).

(** X12: the results of a fusion come by descending hybrid score, no
    dictionary and no id twice; there are at most [top_k] of them, and
    never more than the 100 lexical candidates plus the dense ones. *)
Theorem hybrid_search_ranked (self : HybridRetriever) (h : heap)
    (query : string) (semantic_results : list addr) (bm25_weight : Q)
    (top_k : Z) :
  retriever_ready self →
  Forall (λ r, (r < length h)%nat) semantic_results →
  Forall (λ r, ∀ x, d_distance (h !!! r) = Some x → 0 <= x) semantic_results →
  ∃ results h',
    fuse query semantic_results bm25_weight top_k
         {| w_self := self; w_heap := h |}
    = (Ok results, {| w_self := self; w_heap := h' |})
    ∧ NoDup results
    ∧ NoDup (map (λ a, d_id (h' !!! a)) results)
    ∧ Forall (λ a, is_Some (hybrid_score_at h' a)) results
    ∧ StronglySorted
        (λ a b, default 0 (hybrid_score_at h' b)
                <= default 0 (hybrid_score_at h' a))
        results
    ∧ ((0 ≤ top_k)%Z → (length results ≤ Z.to_nat top_k)%nat)
    ∧ (length results ≤ 100 + length semantic_results)%nat.
Proof.
  intros Hready Hvalid Hdist%nonneg_distances.
  destruct (search_bm25_ready isoformat bm25_score self query 100 true Hready)
    as (bm25_results & Hrun).
  assert (Hrun1 : (search query 100 true self).1 = Ok bm25_results)
    by (by rewrite Hrun).
  destruct (hybrid_search_spec isoformat bm25_score self h query
              semantic_results bm25_weight top_k bm25_results Hrun1 Hvalid Hdist)
    as (semantic_scores0 & bm25_scores & semantic_scores & _ & _ & _
        & Hbdom & Hsdom & _ & _ & Hfuse).
  cbv zeta in Hfuse. destruct Hfuse as (Hfuse & Hnodup & _ & _ & _ & Hres).
  set (all_ids := elements (dom bm25_scores ∪ dom semantic_scores)) in *.
  set (combined_scores :=
         combine bm25_weight bm25_scores semantic_scores all_ids) in *.
  set (ids := sorted_ids combined_scores all_ids top_k) in *.
  set (st := result_loop semantic_results bm25_results combined_scores
                         bm25_scores semantic_scores h ids) in *.
  pose proof (results_ids _ _ _ _ _ _ _ _ _ Hres) as Hmap.
  pose proof (Forall2_length _ _ _ Hres) as Hlen.
  assert (Hscore : ∀ msg_id a,
            result_of h semantic_results bm25_results combined_scores
                      bm25_scores semantic_scores st.1 msg_id a →
            hybrid_score_at st.1 a
            = Some (get_score combined_scores msg_id)).
  { intros msg_id a (d & Hd & _ & Hhyb & _)%result_of_fields.
    unfold hybrid_score_at. by rewrite Hd. }
  exists st.2, st.1. split; [exact Hfuse|].
  split; [|split; [|split; [|split; [|split]]]].
  - apply (NoDup_fmap_1 (λ a, d_id (st.1 !!! a))).
    change (NoDup (map (λ a, d_id (st.1 !!! a)) st.2)). by rewrite Hmap.
  - by rewrite Hmap.
  - eapply Forall2_Forall_right; [|exact Hres].
    intros msg_id a Ha. rewrite (Hscore _ _ Ha). by eexists.
  - eapply (Forall2_StronglySorted _
              (λ x y, get_score combined_scores y
                      <= get_score combined_scores x)); [|exact Hres|].
    + intros x y a b Ha Hb Hxy.
      by rewrite (Hscore _ _ Ha), (Hscore _ _ Hb).
    + eapply StronglySorted_sublist; [apply slice_to_sublist|].
      apply sorted_reverse_sorted.
  - intros Hk. rewrite <- Hlen. by apply slice_to_length.
  - rewrite <- Hlen.
    assert (Hcand : (length ids ≤ length all_ids)%nat).
    { etrans; [apply sublist_length, slice_to_sublist|].
      unfold sorted_reverse.
      by rewrite (Permutation_length (stable_sort_perm _ _)). }
    assert (Hlex : (length bm25_results ≤ 100)%nat).
    { by apply (search_bm25_length isoformat bm25_score self query 100 true). }
    assert (Hunion : (length all_ids
                      ≤ length bm25_results + length semantic_results)%nat).
    { unfold all_ids. change (length (elements ?X)) with (size X).
      rewrite size_union_alt, Hbdom, Hsdom.
      pose proof (size_list_to_set_le (map r_id bm25_results)) as H1.
      pose proof (size_list_to_set_le (dense_ids h semantic_results)) as H2.
      rewrite length_map in H1. unfold dense_ids in H2 at 2.
      rewrite length_map in H2.
      assert (H3 : (size (list_to_set (dense_ids h semantic_results)
                          ∖ list_to_set (map r_id bm25_results) : gset string)
                    ≤ size (list_to_set (dense_ids h semantic_results)
                            : gset string))%nat).
      { apply subseteq_size, subseteq_difference_l. done. }
      lia. }
    lia.
Qed.

(** A distance of exactly -1 makes [1.0 / (1.0 + distance)] divide by
    zero. *)
Lemma semantic_score_dict_raises (h : heap) (semantic_results : list addr)
    (acc : gmap string Q) :
  Exists (λ r, default 2 (d_distance (h !!! r)) == -1) semantic_results →
  semantic_score_dict h semantic_results acc = Raise ZeroDivisionError.
Proof.
  intros Hex. revert acc. induction Hex as [r rest Hr|r rest _ IH];
    intros acc; simpl; unfold py_div.
  - rewrite (proj2 (Qeq_bool_iff _ _)); [done|]. rewrite Hr. reflexivity.
  - destruct (Qeq_bool (1 + default 2 (d_distance (h !!! r))) 0); [done|].
    simpl. apply IH.
Qed.

(** X13: on a ready retriever, a dense result with the distance -1 makes
    the fusion raise ZeroDivisionError: the similarity
    [1.0 / (1.0 + distance)] divides by zero before any dictionary is
    touched, so the caller's dictionaries are as they were. *)
Theorem hybrid_search_division_by_zero (self : HybridRetriever) (h : heap)
    (query : string) (semantic_results : list addr) (bm25_weight : Q)
    (top_k : Z) :
  retriever_ready self →
  Exists (λ r, default 2 (d_distance (h !!! r)) == -1) semantic_results →
  fuse query semantic_results bm25_weight top_k
       {| w_self := self; w_heap := h |}
  = (Raise ZeroDivisionError, {| w_self := self; w_heap := h |}).
Proof.
  intros Hready Hex.
  destruct (search_bm25_ready isoformat bm25_score self query 100 true Hready)
    as (bm25_results & Hrun).
  unfold hybrid_search, bind, on_self, get, lift, put, ret. simpl.
  rewrite Hrun. simpl.
  by rewrite (semantic_score_dict_raises h semantic_results ∅ Hex).
Qed.

(** Without lexical results the loop creates no dictionary and returns
    only dense ones. *)
Lemma result_loop_no_lexical (semantic_results : list addr)
    (combined_scores bm25_scores semantic_scores : gmap string Q)
    (h : heap) (ids : list string) :
  let st := result_loop semantic_results (@nil (@BM25Result datetime))
                        combined_scores bm25_scores semantic_scores h ids in
  length st.1 = length h ∧ Forall (λ a, a ∈ semantic_results) st.2.
Proof.
  unfold result_loop.
  assert (Hgen : ∀ st0 : heap * list addr,
            length st0.1 = length h →
            Forall (λ a, a ∈ semantic_results) st0.2 →
            let st := foldl (result_step semantic_results
                               (@nil (@BM25Result datetime)) combined_scores
                               bm25_scores semantic_scores) st0 ids in
            length st.1 = length h
            ∧ Forall (λ a, a ∈ semantic_results) st.2).
  { induction ids as [|msg_id ids IH]; intros [h0 results] Hlen Hres;
      [done|].
    simpl. apply IH; unfold result_step;
      destruct (find_semantic h0 semantic_results msg_id) as [r|] eqn:Hfind;
      simpl; try done.
    - by rewrite length_alter.
    - apply Forall_app. split; [done|]. apply Forall_singleton.
      by apply find_semantic_Some in Hfind as [? _]. }
  by apply (Hgen (h, [])).
Qed.

Lemma normalize_empty : normalize ∅ = Ok ∅.
Proof. unfold normalize. by rewrite map_to_list_empty. Qed.

(** X14: before any indexing the fusion is the dense search alone: it
    returns only dictionaries of the caller, creates none, gives each a
    lexical score of 0 and a hybrid score of [(1 - bm25_weight)] times
    its normalised similarity. *)
Theorem hybrid_search_without_index (self : HybridRetriever) (h : heap)
    (query : string) (semantic_results : list addr) (bm25_weight : Q)
    (top_k : Z) :
  _bm25 self = None →
  Forall (λ r, (r < length h)%nat) semantic_results →
  Forall (λ r, ∀ x, d_distance (h !!! r) = Some x → 0 <= x) semantic_results →
  ∃ results h',
    fuse query semantic_results bm25_weight top_k
         {| w_self := self; w_heap := h |}
    = (Ok results, {| w_self := self; w_heap := h' |})
    ∧ length h' = length h
    ∧ Forall (λ a, a ∈ semantic_results) results
    ∧ Forall (λ a, ∃ d semantic hybrid,
                h' !! a = Some d
                ∧ d_bm25_score d = Some 0
                ∧ d_semantic_score d = Some semantic
                ∧ d_hybrid_score d = Some hybrid
                ∧ hybrid == (1 - bm25_weight) * semantic)
             results.
Proof.
  intros Hnone Hvalid Hdist%nonneg_distances.
  pose proof (search_bm25_None isoformat bm25_score self query 100 true Hnone)
    as Hrun.
  assert (Hrun1 : (search query 100 true self).1 = Ok []) by (by rewrite Hrun).
  destruct (hybrid_search_spec isoformat bm25_score self h query
              semantic_results bm25_weight top_k [] Hrun1 Hvalid Hdist)
    as (semantic_scores0 & bm25_scores & semantic_scores & _ & Hbn & _
        & _ & _ & _ & _ & Hfuse).
  change (bm25_score_dict []) with (∅ : gmap string Q) in Hbn.
  rewrite normalize_empty in Hbn. injection Hbn as <-.
  cbv zeta in Hfuse. destruct Hfuse as (Hfuse & _ & _ & _ & _ & Hres).
  set (all_ids := elements (dom (∅ : gmap string Q) ∪ dom semantic_scores))
    in *.
  set (combined_scores := combine bm25_weight ∅ semantic_scores all_ids) in *.
  set (ids := sorted_ids combined_scores all_ids top_k) in *.
  destruct (result_loop_no_lexical semantic_results combined_scores ∅
              semantic_scores h ids) as [Hlen Hsub].
  set (st := result_loop semantic_results [] combined_scores ∅
                         semantic_scores h ids) in *.
  exists st.2, st.1. split; [exact Hfuse|]. split; [exact Hlen|].
  split; [exact Hsub|].
  eapply Forall2_Forall_right; [|exact Hres].
  intros msg_id a (d & Hd & _ & Hhyb & Hlex & Hsem)%result_of_fields.
  exists d, (get_score semantic_scores msg_id),
         (get_score combined_scores msg_id).
  split; [done|]. split; [done|]. split; [done|]. split; [done|].
  unfold combined_scores, all_ids. rewrite combine_get_score.
  unfold combined_score, get_score at 1. rewrite lookup_empty. simpl. ring.
Qed.

Lemma semantic_score_dict_empty (h : heap) :
  semantic_score_dict h [] ∅ = Ok ∅.
Proof. reflexivity. Qed.

(** X15: without dense results the fusion is the lexical search alone:
    every result is a dictionary that did not exist before, built from
    a lexical result, with the placeholder distance 0.5, a similarity
    of 0 and a hybrid score of [bm25_weight] times its normalised
    lexical score; the dictionaries that existed are untouched. *)
Theorem hybrid_search_without_dense (self : HybridRetriever) (h : heap)
    (query : string) (bm25_weight : Q) (top_k : Z) :
  retriever_ready self →
  ∃ bm25_results results h',
    search query 100 true self = (Ok bm25_results, self)
    ∧ fuse query [] bm25_weight top_k {| w_self := self; w_heap := h |}
      = (Ok results, {| w_self := self; w_heap := h' |})
    ∧ take (length h) h' = h
    ∧ Forall (λ a, (length h ≤ a)%nat
                   ∧ ∃ d r lexical hybrid,
                       h' !! a = Some d
                       ∧ r ∈ bm25_results
                       ∧ d_id d = r_id r
                       ∧ d_document d = r_document r
                       ∧ d_user_name d = r_user_name r
                       ∧ d_timestamp d = r_timestamp r
                       ∧ d_distance d = Some (1 # 2)
                       ∧ d_semantic_score d = Some 0
                       ∧ d_bm25_score d = Some lexical
                       ∧ d_hybrid_score d = Some hybrid
                       ∧ hybrid == bm25_weight * lexical)
             results.
Proof.
  intros Hready.
  destruct (search_bm25_ready isoformat bm25_score self query 100 true Hready)
    as (bm25_results & Hrun).
  assert (Hrun1 : (search query 100 true self).1 = Ok bm25_results)
    by (by rewrite Hrun).
  destruct (hybrid_search_spec isoformat bm25_score self h query
              [] bm25_weight top_k bm25_results Hrun1)
    as (semantic_scores0 & bm25_scores & semantic_scores & Hs0 & _ & Hsn
        & _ & _ & _ & _ & Hfuse); [constructor..|].
  rewrite semantic_score_dict_empty in Hs0. injection Hs0 as <-.
  rewrite normalize_empty in Hsn. injection Hsn as <-.
  cbv zeta in Hfuse.
  destruct Hfuse as (Hfuse & _ & Hlen & _ & Hframe & Hres).
  set (all_ids := elements (dom bm25_scores ∪ dom (∅ : gmap string Q))) in *.
  set (combined_scores := combine bm25_weight bm25_scores ∅ all_ids) in *.
  set (ids := sorted_ids combined_scores all_ids top_k) in *.
  set (st := result_loop [] bm25_results combined_scores bm25_scores ∅ h ids)
    in *.
  exists bm25_results, st.2, st.1. split; [exact Hrun|].
  split; [exact Hfuse|]. split.
  - apply list_eq. intros a. destruct (decide (a < length h)%nat) as [Ha|Ha].
    + rewrite lookup_take_lt by done. by apply Hframe.
    + rewrite lookup_take_ge by lia. symmetry. apply lookup_ge_None. lia.
  - eapply Forall2_Forall_right; [|exact Hres].
    intros msg_id a Ha. unfold result_of in Ha. simpl in Ha.
    destruct Ha as (r & Hr & Hfresh & Hd).
    apply find_lexical_Some in Hr as [Hin Hid].
    split; [done|].
    exists (scored combined_scores bm25_scores ∅ msg_id (fallback_dict r)), r,
           (get_score bm25_scores msg_id), (get_score combined_scores msg_id).
    split; [done|]. split; [done|]. split; [done|].
    do 4 (split; [done|]). split; [done|]. split; [done|]. split; [done|].
    unfold combined_scores, all_ids. rewrite combine_get_score.
    unfold combined_score, get_score at 2. rewrite lookup_empty. simpl. ring.
Qed.

End RankingProperties.

Lemma hybrid_search_ranked_witness :
  retriever_ready sample_retriever
  ∧ Forall (λ r, (r < length sample_heap)%nat) sample_dense
  ∧ Forall (λ r, ∀ x, d_distance (sample_heap !!! r) = Some x → 0 <= x)
           sample_dense
  ∧ ∃ results h',
      hybrid_search sample_isoformat term_count_score "london" sample_dense
                    (6 # 10) 25 sample_world
      = (Ok results, {| w_self := sample_retriever; w_heap := h' |})
      ∧ NoDup results
      ∧ (length results ≤ 100 + length sample_dense)%nat.
Proof.
  split; [exact sample_retriever_ready|].
  split; [exact sample_dense_valid|].
  split; [exact sample_dense_distances|].
  destruct (hybrid_search_ranked sample_isoformat term_count_score
              sample_retriever sample_heap "london" sample_dense (6 # 10) 25
              sample_retriever_ready sample_dense_valid sample_dense_distances)
    as (results & h' & Hrun & Hnodup & _ & _ & _ & _ & Hlen).
  exists results, h'. split; [exact Hrun|]. split; [exact Hnodup|exact Hlen].
Defined.

Lemma hybrid_search_division_by_zero_witness :
  let broken := [Pydict "m0" "Layla (May 01, 2024): Trip to London" "Layla"
                        "2024-05-01T10:00:00" (Some (-1)) None None None] in
  retriever_ready sample_retriever
  ∧ Exists (λ r, default 2 (d_distance (broken !!! r)) == -1) [0%nat]
  ∧ hybrid_search sample_isoformat term_count_score "london" [0%nat]
                  (6 # 10) 25
                  {| w_self := sample_retriever; w_heap := broken |}
    = (Raise ZeroDivisionError,
       {| w_self := sample_retriever; w_heap := broken |}).
Proof.
  intros broken.
  assert (Hex : Exists (λ r, default 2 (d_distance (broken !!! r)) == -1)
                       [0%nat]).
  { apply Exists_cons_hd. reflexivity. }
  split; [exact sample_retriever_ready|]. split; [exact Hex|].
  exact (hybrid_search_division_by_zero sample_isoformat term_count_score
           sample_retriever broken "london" [0%nat] (6 # 10) 25
           sample_retriever_ready Hex).
Defined.

Lemma hybrid_search_without_index_witness :
  _bm25 (@HybridRetriever_init string) = None
  ∧ Forall (λ r, (r < length sample_heap)%nat) sample_dense
  ∧ Forall (λ r, ∀ x, d_distance (sample_heap !!! r) = Some x → 0 <= x)
           sample_dense
  ∧ ∃ results h',
      hybrid_search sample_isoformat term_count_score "london" sample_dense
                    (6 # 10) 25
                    {| w_self := HybridRetriever_init; w_heap := sample_heap |}
      = (Ok results, {| w_self := HybridRetriever_init; w_heap := h' |})
      ∧ length h' = length sample_heap
      ∧ Forall (λ a, a ∈ sample_dense) results.
Proof.
  split; [reflexivity|].
  split; [exact sample_dense_valid|].
  split; [exact sample_dense_distances|].
  destruct (hybrid_search_without_index sample_isoformat term_count_score
              HybridRetriever_init sample_heap "london" sample_dense
              (6 # 10) 25 eq_refl sample_dense_valid sample_dense_distances)
    as (results & h' & Hrun & Hlen & Hsub & _).
  exists results, h'. split; [exact Hrun|]. split; [exact Hlen|exact Hsub].
Defined.

Lemma hybrid_search_without_dense_witness :
  retriever_ready sample_retriever
  ∧ ∃ results h',
      hybrid_search sample_isoformat term_count_score "london" []
                    (6 # 10) 25 sample_world
      = (Ok results, {| w_self := sample_retriever; w_heap := h' |})
      ∧ take (length sample_heap) h' = sample_heap
      ∧ Forall (λ a, (length sample_heap ≤ a)%nat) results.
Proof.
  split; [exact sample_retriever_ready|].
  destruct (hybrid_search_without_dense sample_isoformat term_count_score
              sample_retriever sample_heap "london" (6 # 10) 25
              sample_retriever_ready)
    as (bm25_results & results & h' & _ & Hrun & Hframe & Hres).
  exists results, h'. split; [exact Hrun|]. split; [exact Hframe|].
  eapply Forall_impl; [exact Hres|]. intros a [Ha _]. exact Ha.
Defined.

(** ** Batches of the dense index *)

Lemma range_step_bound (n : nat) :
  let m := ((n + 99) / 100)%nat in
  (n ≤ m * 100)%nat ∧ (∀ k, (k < m)%nat → (k * 100 < n)%nat).
Proof.
  intros m. unfold m.
  pose proof (Nat.div_mod_eq (n + 99) 100) as Hdiv.
  pose proof (Nat.mod_upper_bound (n + 99) 100) as Hmod.
  split; [lia|]. intros k Hk. nia.
Qed.

(** Consecutive slices of width [s] up to [n] make up the list up to
    [n]. *)
Lemma concat_slices {A} (l : list A) (n s m : nat) :
  concat (map (λ i, slice i (Nat.min (i + s) n) l)
              (map (λ k, k * s)%nat (seq 0 m)))
  = take (Nat.min (m * s) n) l.
Proof.
  induction m as [|m IH]; [done|].
  rewrite seq_S, !map_app, concat_app, IH. simpl.
  rewrite (right_id_L [] (++)). unfold slice.
  destruct (decide (m * s ≤ n)%nat) as [Hle|Hgt].
  - rewrite (Nat.min_l (m * s) n) by done.
    rewrite take_take_drop. f_equal. lia.
  - rewrite (Nat.min_r (m * s) n) by lia.
    replace (Nat.min (m * s + s) n - m * s)%nat with 0%nat by lia.
    rewrite take_0, (right_id_L [] (++)). f_equal. lia.
Qed.

Section BatchProperties.
Context {datetime : Type} (isoformat strftime_BdY : datetime → string).
Context (collection_count : list batch → nat).

Local Abbreviation vs_index :=
  (vs_index_messages isoformat strftime_BdY collection_count recorded_add).

(** The batch loop on the recording collection appends one call per
    start position. *)
Lemma add_batches_recorded (n : nat) (ids : list string)
    (embeddings : list (list Q)) (documents : list string)
    (metadatas : list Metadata) (starts : list nat)
    (c : option client_handle) (p : list batch) :
  add_batches recorded_add n ids embeddings documents metadatas starts
              {| _client := c; _collection := Some CollectionHandle;
                 persisted := p |}
  = (Ok tt,
     {| _client := c; _collection := Some CollectionHandle;
        persisted :=
          p ++ map (batch_at n ids embeddings documents metadatas) starts |}).
Proof.
  revert p. induction starts as [|i starts IH]; intros p; simpl.
  { by rewrite (right_id_L [] (++)). }
  unfold bind, add, get, lift, put, recorded_add. simpl.
  unfold bind in IH. rewrite IH. by rewrite <- (assoc_L (++)).
Qed.

(** X16: on a store that has its collection, when the collection
    holds fewer entries than there are messages, [index_messages] adds
    every message, the ones already stored too: on the recording
    collection the calls it makes are batches of 1 to 100 whose ids,
    documents and metadata, put end to end, are those of all the
    messages in order, with the embeddings at the same positions. *)
Theorem index_messages_batches (self : VectorStore)
    (messages : list (Message datetime)) (embeddings : list (list Q)) :
  is_Some (_collection self) →
  (collection_count (persisted self) < length messages)%nat →
  ∃ self' batches,
    vs_index messages embeddings self = (Ok tt, self')
    ∧ persisted self' = persisted self ++ batches
    ∧ concat (map b_ids batches) = map msg_id messages
    ∧ concat (map b_documents batches)
      = map (enriched_document strftime_BdY) messages
    ∧ concat (map b_metadatas batches) = map (metadata_of isoformat) messages
    ∧ concat (map b_embeddings batches) = take (length messages) embeddings
    ∧ Forall (λ b, (0 < length (b_ids b) ≤ 100)%nat) batches
    ∧ length batches = ((length messages + 99) / 100)%nat.
Proof.
  intros Hinit Hless.
  assert (Hrun : ∃ self',
            vs_index messages embeddings self = (Ok tt, self')
            ∧ persisted self'
              = persisted self
                ++ map (batch_at (length messages) (map msg_id messages)
                          embeddings
                          (map (enriched_document strftime_BdY) messages)
                          (map (metadata_of isoformat) messages))
                       (range_step (length messages) 100)).
  { assert (Hcmp : (length messages <=? collection_count (persisted self))%nat
                   = false)
      by (apply Nat.leb_gt; exact Hless).
    unfold vs_index_messages, bind, get, initialize, count, put, ret.
    destruct self as [c [hd|] p]; simpl in Hcmp, Hinit |- *.
    - rewrite Hcmp. destruct hd.
      rewrite add_batches_recorded. by eexists.
    - by destruct Hinit as [? [=]]. }
  set (n := length messages) in *.
  set (ids := map msg_id messages) in *.
  set (documents := map (enriched_document strftime_BdY) messages) in *.
  set (metadatas := map (metadata_of isoformat) messages) in *.
  set (starts := range_step n 100) in *.
  set (batches := map (batch_at n ids embeddings documents metadatas) starts)
    in *.
  destruct (range_step_bound n) as [Hcover Hstart].
  destruct Hrun as (self' & Hrun & Hpersisted).
  assert (Hconcat : ∀ {A} (f : batch → list A) (l : list A),
            (∀ i, f (batch_at n ids embeddings documents metadatas i)
                  = slice i (Nat.min (i + 100) n) l) →
            concat (map f batches) = take n l).
  { intros A f l Hf. unfold batches, starts, range_step.
    rewrite map_map, (map_ext _ _ Hf), concat_slices.
    change (100 - 1)%nat with 99%nat. f_equal. apply Nat.min_r, Hcover. }
  exists self', batches. split; [exact Hrun|]. split; [exact Hpersisted|].
  split; [|split; [|split; [|split; [|split]]]].
  - rewrite (Hconcat _ b_ids ids) by done.
    apply take_ge. unfold ids, n. by rewrite length_map.
  - rewrite (Hconcat _ b_documents documents) by done.
    apply take_ge. unfold documents, n. by rewrite length_map.
  - rewrite (Hconcat _ b_metadatas metadatas) by done.
    apply take_ge. unfold metadatas, n. by rewrite length_map.
  - by rewrite (Hconcat _ b_embeddings embeddings).
  - unfold batches, starts, range_step. rewrite map_map.
    apply Forall_forall. intros b Hb.
    apply list_elem_of_fmap in Hb as (k & -> & Hk%elem_of_seq).
    simpl. unfold slice.
    rewrite length_take, length_drop. unfold ids at 1.
    rewrite length_map. fold n.
    assert (k * 100 < n)%nat
      by (apply Hstart; change (100 - 1)%nat with 99%nat in Hk; lia).
    lia.
  - unfold batches, starts, range_step. by rewrite !length_map, length_seq.
Qed.

End BatchProperties.

Lemma index_messages_batches_witness :
  let store := {| _client := Some PersistentClient;
                  _collection := Some CollectionHandle;
                  persisted := @nil batch |} in
  is_Some (_collection store)
  ∧ (length (persisted store) < length sample_corpus)%nat
  ∧ ∃ self' batches,
      vs_index_messages sample_isoformat sample_isoformat length recorded_add
                        sample_corpus [] store
      = (Ok tt, self')
      ∧ persisted self' = persisted store ++ batches
      ∧ concat (map b_ids batches) = map msg_id sample_corpus.
Proof.
  intros store.
  assert (Hinit : is_Some (_collection store)) by (by eexists).
  assert (Hless : (length (persisted store) < length sample_corpus)%nat)
    by (vm_compute; lia).
  split; [exact Hinit|]. split; [exact Hless|].
  destruct (index_messages_batches sample_isoformat sample_isoformat length
              store sample_corpus [] Hinit Hless)
    as (self' & batches & Hrun & Hp & Hids & _).
  exists self', batches. split; [exact Hrun|]. split; [exact Hp|exact Hids].
Defined.

(** ** The life cycle of the dense store *)

Section StoreLifecycle.
Context {datetime : Type} (isoformat strftime_BdY : datetime → string).
Context {Collection : Type} (collection_count : Collection → nat).
Context (collection_add :
           list string → list (list Q) → list string → list Metadata →
           Collection → outcome Collection).

Local Abbreviation vs_index :=
  (vs_index_messages isoformat strftime_BdY collection_count collection_add).

(** X17: [initialize] with chromadb calls that can raise. It never
    touches the persisted collection. On a store that has a client it
    returns at once and changes nothing. On a store without one, an
    exception of [PersistentClient] comes out with the store as it
    was; an exception of [get_or_create_collection] comes out with the
    client set and the collection handle as it was; an exception of
    the logged [count()] comes out with both set. Once the client is
    set, after a return or after an exception, every later call
    returns at once and changes nothing, so a collection handle that
    is missing then stays missing. When no call raises, the result is
    that of [initialize]. *)
Theorem initialize_failure (calls : chromadb_calls)
    (self : @VectorStore Collection) :
  (let (o, self') := initialize_with calls self in
   persisted self' = persisted self
   ∧ (is_Some (_client self) → o = Ok tt ∧ self' = self)
   ∧ (_client self = None →
      match persistent_client calls with
      | Raise e => o = Raise e ∧ self' = self
      | Ok client =>
          _client self' = Some client
          ∧ match get_or_create_collection calls with
            | Raise e => o = Raise e ∧ _collection self' = _collection self
            | Ok collection =>
                _collection self' = Some collection
                ∧ o = match logged_count calls with
                      | Ok _ => Ok tt
                      | Raise e => Raise e
                      end
            end
      end)
   ∧ (o = Ok tt → is_Some (_client self'))
   ∧ (is_Some (_client self') →
      ∀ calls', initialize_with calls' self' = (Ok tt, self')))
  ∧ (∀ n, initialize_with
            {| persistent_client := Ok PersistentClient;
               get_or_create_collection := Ok CollectionHandle;
               logged_count := Ok n |} self
          = initialize self).
Proof.
  split; [|by destruct self as [[c|] hd p]].
  destruct self as [[c|] hd p], calls as [[client|e1] [collection|e2] [n|e3]];
    unfold initialize_with, bind, get, lift, put, ret; simpl.
  all: split; [reflexivity|].
  all: split; [try done; by intros [? [=]]|].
  all: split; [try done; by intros [=]|].
  all: split; [try done; by eexists|].
  all: try done.
  all: by intros [? [=]].
Qed.

(** X18: a store that has a client but no collection handle, which is
    what a failed [get_or_create_collection] leaves behind, stays that
    way: [initialize] returns at once, [index_messages] raises the
    [AttributeError] of [None.count()] without adding anything, and
    [get_count] answers 0. *)
Theorem index_messages_half_initialized (self : @VectorStore Collection)
    (messages : list (Message datetime)) (embeddings : list (list Q)) :
  is_Some (_client self) → _collection self = None →
  initialize self = (Ok tt, self)
  ∧ vs_index messages embeddings self = (Raise AttributeError, self)
  ∧ get_count collection_count self = 0%nat.
Proof.
  destruct self as [[c|] [hd|] p]; simpl; intros [? Hc] Hcoll;
    try discriminate.
  done.
Qed.

End StoreLifecycle.

Lemma initialize_failure_witness :
  let calls := {| persistent_client := Ok PersistentClient;
                  get_or_create_collection := Raise TypeError;
                  logged_count := Ok 2%nat |} in
  let half := {| _client := Some PersistentClient; _collection := None;
                 persisted := ["m0"; "m1"]%string |} in
  initialize_with calls sample_store = (Raise TypeError, half)
  ∧ ∀ calls', initialize_with calls' half = (Ok tt, half).
Proof.
  intros calls half.
  assert (Hrun : initialize_with calls sample_store = (Raise TypeError, half))
    by reflexivity.
  split; [exact Hrun|].
  destruct (proj1 (initialize_failure calls sample_store))
    as (_ & _ & _ & _ & Hlater).
  apply Hlater. by eexists.
Defined.

Lemma index_messages_half_initialized_witness :
  let store := {| _client := Some PersistentClient; _collection := None;
                  persisted := ["m0"; "m1"]%string |} in
  is_Some (_client store) ∧ _collection store = None
  ∧ vs_index_messages sample_isoformat sample_isoformat sample_count
                      sample_add sample_corpus [] store
    = (Raise AttributeError, store).
Proof.
  intros store.
  assert (Hclient : is_Some (_client store)) by (by eexists).
  split; [exact Hclient|]. split; [reflexivity|].
  exact (proj1 (proj2 (index_messages_half_initialized sample_isoformat
                         sample_isoformat sample_count sample_add store
                         sample_corpus [] Hclient eq_refl))).
Defined.

(** ** The message cache *)

Section DataFetcherProperties.
Context {datetime : Type} (cache_ttl_seconds : Z).

Local Abbreviation fetch := (@fetch_all_messages datetime cache_ttl_seconds).

(** X19: after a fetch that stored its answer at time [t], every call
    without [force_refresh] made less than [cache_ttl_seconds] after
    [t] (or at an earlier clock reading) returns that answer without
    looking at the API and leaves the fetcher as it is; from exactly
    [cache_ttl_seconds] on the call does what a call with
    [force_refresh] does, which stores a new answer and a new time. *)
Theorem fetch_all_messages_cache_window (self : DataFetcher)
    (force_refresh : bool) (now0 t : Z) (items : list (Message datetime)) :
  _is_cache_valid cache_ttl_seconds now0 self = false ∨ force_refresh = true →
  ∃ self1,
    fetch force_refresh now0 (Items items) t self = (Return (Some items), self1)
    ∧ get_cached_messages self1 = Some items
    ∧ (∀ now response now',
         (now - t < cache_ttl_seconds * 1000000)%Z →
         fetch false now response now' self1 = (Return (Some items), self1))
    ∧ (∀ now response now',
         (cache_ttl_seconds * 1000000 ≤ now - t)%Z →
         fetch false now response now' self1
         = fetch true now response now' self1)
    ∧ (∀ now items' now',
         fetch true now (Items items') now' self1
         = (Return (Some items'),
            {| _cache := Some items'; _cache_time := Some now' |})).
Proof.
  intros Hfetch.
  exists {| _cache := Some items; _cache_time := Some t |}.
  split; [|split; [done|split; [|split]]].
  - unfold fetch_all_messages.
    destruct Hfetch as [-> | ->]; [by rewrite andb_false_r|done].
  - intros now response now' Hlt. unfold fetch_all_messages, _is_cache_valid.
    simpl. by rewrite (proj2 (Z.ltb_lt _ _) Hlt).
  - intros now response now' Hge. unfold fetch_all_messages, _is_cache_valid.
    simpl. by rewrite (proj2 (Z.ltb_ge _ _) Hge).
  - done.
Qed.

(** X20: a call that has to fetch and fails changes nothing: the
    fetcher keeps its old answer and its old time, so
    [get_cached_messages] still gives the old answer while every later
    call without a valid cache asks the API again; an [HTTPError] comes
    out as an [Exception] with the prefixed message, any other
    exception as it is. *)
Theorem fetch_all_messages_failure (self : DataFetcher)
    (force_refresh : bool) (now now' : Z) (e : string) :
  _is_cache_valid cache_ttl_seconds now self = false ∨ force_refresh = true →
  fetch force_refresh now (HTTPError e) now' self
  = (RaiseException ("Failed to fetch messages: " +:+ e), self)
  ∧ fetch force_refresh now (OtherError e) now' self = (RaiseOther e, self)
  ∧ (_is_cache_valid cache_ttl_seconds now self = false →
     ∀ later response later',
       (now ≤ later)%Z →
       fetch false later response later' self
       = fetch true later response later' self).
Proof.
  intros Hfetch. unfold fetch_all_messages.
  split; [|split].
  - destruct Hfetch as [-> | ->]; [by rewrite andb_false_r|done].
  - destruct Hfetch as [-> | ->]; [by rewrite andb_false_r|done].
  - intros Hinvalid later response later' Hlater. simpl.
    assert (Hlater_invalid :
              _is_cache_valid cache_ttl_seconds later self = false).
    { unfold _is_cache_valid in *.
      destruct (_cache self); [|done]. destruct (_cache_time self); [|done].
      apply Z.ltb_ge in Hinvalid. apply Z.ltb_ge. lia. }
    by rewrite Hlater_invalid.
Qed.

End DataFetcherProperties.

Lemma fetch_all_messages_cache_window_witness :
  (_is_cache_valid 3600 0 (@DataFetcher_init string) = false ∨ false = true)
  ∧ ∃ self1,
      fetch_all_messages 3600 false 0 (Items sample_corpus) 5 DataFetcher_init
      = (Return (Some sample_corpus), self1)
      ∧ fetch_all_messages 3600 false 3599999999 (HTTPError "down") 0 self1
        = (Return (Some sample_corpus), self1).
Proof.
  assert (H : _is_cache_valid 3600 0 (@DataFetcher_init string) = false
              ∨ false = true) by (by left).
  split; [exact H|].
  destruct (fetch_all_messages_cache_window 3600 DataFetcher_init false 0 5
              sample_corpus H) as (self1 & Hrun & _ & Hhit & _).
  exists self1. split; [exact Hrun|]. apply Hhit. lia.
Defined.

Lemma fetch_all_messages_failure_witness :
  (_is_cache_valid 3600 0 (@DataFetcher_init string) = false ∨ false = true)
  ∧ fetch_all_messages 3600 false 0 (HTTPError "down") 0
                       (@DataFetcher_init string)
    = (RaiseException "Failed to fetch messages: down", DataFetcher_init).
Proof.
  assert (H : _is_cache_valid 3600 0 (@DataFetcher_init string) = false
              ∨ false = true) by (by left).
  split; [exact H|].
  exact (proj1 (fetch_all_messages_failure 3600 DataFetcher_init false 0 0
                  "down" H)).
Defined.

(** ** Confidence from the number of messages *)

(** The estimate reads the distances and nothing else. *)
Lemma determine_confidence_distances (ms ms' : list context_message) :
  distances ms = distances ms' →
  _determine_confidence ms = _determine_confidence ms'.
Proof.
  intros Heq.
  assert (Hlen : length ms = length ms').
  { pose proof (f_equal length Heq) as Hl. unfold distances in Hl.
    by rewrite !length_map in Hl. }
  destruct ms as [|m l], ms' as [|m' l']; try done.
  unfold _determine_confidence.
  by rewrite !sum_distances_float_sum, Heq, Hlen.
Qed.

(** Up to 25 messages at the placeholder distance 0.5: their sum and
    their mean are computed without rounding, and the mean is below
    both thresholds. *)
Lemma determine_confidence_placeholder
    (context_messages : list context_message) :
  Forall (λ msg, c_distance msg = Some (1 # 2)) context_messages →
  (length context_messages ≤ 25)%nat →
  _determine_confidence context_messages
  = if (5 <=? length context_messages)%nat then "high"%string
    else if (3 <=? length context_messages)%nat then "medium"%string
         else "low"%string.
Proof.
  intros Hall Hlen.
  set (placeholder :=
         {| c_document := ""; c_user_name := ""; c_timestamp := "";
            c_original_message := ""; c_distance := Some (1 # 2);
            c_hybrid_score := None |}).
  rewrite (determine_confidence_distances context_messages
             (replicate (length context_messages) placeholder)).
  - revert Hlen.
    generalize (length context_messages). intros n Hn.
    do 26 (destruct n as [|n]; [vm_compute; reflexivity|]). lia.
  - clear Hlen. unfold distances, get_distance.
    induction Hall as [|msg rest Hmsg _ IH]; [done|].
    cbn [map length replicate]. by rewrite Hmsg, IH.
Qed.

(** ** The context of the question route *)

Lemma context_messages_no_dense (h : heap) (semantic_results : SearchResults)
    (results : list addr) :
  context_messages h semantic_results [] results
  = Done (map (λ a, context_message_of None (h !!! a)) results).
Proof.
  induction results as [|a results IH]; [done|].
  simpl. unfold find_metadata. simpl. by rewrite IH.
Qed.

Lemma index_Some (x : string) (l : list string) :
  x ∈ l → ∃ idx, index x l = Some idx ∧ (idx < length l)%nat.
Proof.
  induction l as [|y l IH]; [by intros ?%elem_of_nil|].
  intros Hin. simpl. destruct (bool_decide (y = x)) eqn:Hy.
  - exists 0%nat. split; [done|lia].
  - apply bool_decide_eq_false in Hy.
    apply elem_of_cons in Hin as [->|Hin]; [done|].
    destruct (IH Hin) as (idx & -> & Hidx). exists (S idx). split; [done|lia].
Qed.

(** A dense dictionary has an id and a distance of the dense answer. *)
Lemma semantic_result_dict_Ok (semantic_results : SearchResults) (i : nat)
    (d : pydict) :
  semantic_result_dict semantic_results i = Ok d →
  d_id d ∈ s_ids semantic_results
  ∧ ∃ x, d_distance d = Some x ∧ x ∈ s_distances semantic_results.
Proof.
  unfold semantic_result_dict.
  destruct (s_ids semantic_results !! i) as [id|] eqn:Hid; [|done].
  destruct (s_documents semantic_results !! i); [|done].
  destruct (s_metadatas semantic_results !! i); [|done].
  destruct (s_distances semantic_results !! i) as [x|] eqn:Hx; [|done].
  intros [= <-]. simpl. split; [by eapply list_elem_of_lookup_2|].
  exists x. split; [done|]. by eapply list_elem_of_lookup_2.
Qed.

Lemma semantic_result_dicts_spec (semantic_results : SearchResults)
    (positions : list nat) :
  length (s_documents semantic_results) = length (s_ids semantic_results) →
  length (s_metadatas semantic_results) = length (s_ids semantic_results) →
  length (s_distances semantic_results) = length (s_ids semantic_results) →
  Forall (λ i, (i < length (s_ids semantic_results))%nat) positions →
  ∃ dicts,
    semantic_result_dicts semantic_results positions = Ok dicts
    ∧ Forall2 (λ i d, semantic_result_dict semantic_results i = Ok d)
              positions dicts.
Proof.
  intros Hdocs Hmds Hdists.
  induction 1 as [|i positions Hi _ (dicts & Hrun & Hall)]; simpl.
  { exists []. split; [done|constructor]. }
  assert (Hone : ∃ d, semantic_result_dict semantic_results i = Ok d).
  { unfold semantic_result_dict.
    destruct (lookup_lt_is_Some_2 (s_ids semantic_results) i Hi) as [? ->].
    destruct (lookup_lt_is_Some_2 (s_documents semantic_results) i
                ltac:(lia)) as [? ->].
    destruct (lookup_lt_is_Some_2 (s_metadatas semantic_results) i
                ltac:(lia)) as [? ->].
    destruct (lookup_lt_is_Some_2 (s_distances semantic_results) i
                ltac:(lia)) as [? ->].
    by eexists. }
  destruct Hone as [d Hd]. rewrite Hd, Hrun. simpl.
  exists (d :: dicts). split; [done|]. by constructor.
Qed.

Lemma context_messages_spec (h : heap) (semantic_results : SearchResults)
    (semantic_results_list results : list addr)
    (P : context_message → Prop) :
  Forall (λ a, ∃ metadata,
            find_metadata h semantic_results semantic_results_list (h !!! a)
            = Done metadata
            ∧ P (context_message_of metadata (h !!! a)))
         results →
  ∃ context,
    context_messages h semantic_results semantic_results_list results
    = Done context
    ∧ length context = length results
    ∧ Forall P context.
Proof.
  induction 1 as [|a results (metadata & Hmd & HP) _ (context & Hrun & Hlen & Hall)];
    simpl.
  { exists []. split; [done|]. split; [done|constructor]. }
  rewrite Hmd, Hrun. eexists. split; [done|].
  split; [simpl; by rewrite Hlen|]. by constructor.
Qed.

Section RouteProperties.
Context {datetime : Type} (isoformat : datetime → string).
Context (bm25_score : list (list string) → list string → list string → Q).
Context {np_sort : Argsort}.

Local Abbreviation fuse := (hybrid_search isoformat bm25_score).
Local Abbreviation ask := (ask_context isoformat bm25_score).

(** Without dense results every result of the fusion carries the
    placeholder distance. *)
Lemma hybrid_search_placeholder_distances (self : HybridRetriever)
    (h : heap) (query : string) (bm25_weight : Q) (top_k : Z) :
  retriever_ready self → (0 ≤ top_k)%Z →
  ∃ results h',
    fuse query [] bm25_weight top_k {| w_self := self; w_heap := h |}
    = (Ok results, {| w_self := self; w_heap := h' |})
    ∧ (length results ≤ Z.to_nat top_k)%nat
    ∧ Forall (λ a, ∃ d, h' !! a = Some d ∧ d_distance d = Some (1 # 2))
             results.
Proof.
  intros Hready Hk.
  destruct (search_bm25_ready isoformat bm25_score self query 100 true Hready)
    as (bm25_results & Hrun).
  assert (Hrun1 : (search_bm25 isoformat bm25_score query 100 true self).1
                  = Ok bm25_results)
    by (by rewrite Hrun).
  destruct (hybrid_search_spec isoformat bm25_score self h query
              [] bm25_weight top_k bm25_results Hrun1)
    as (semantic_scores0 & bm25_scores & semantic_scores & _ & _ & _
        & _ & _ & _ & _ & Hfuse); [constructor..|].
  cbv zeta in Hfuse.
  destruct Hfuse as (Hfuse & _ & _ & _ & _ & Hres).
  eexists _, _. split; [exact Hfuse|]. split.
  - rewrite <- (Forall2_length _ _ _ Hres). by apply slice_to_length.
  - eapply Forall2_Forall_right; [|exact Hres].
    intros msg_id a Ha. unfold result_of in Ha. simpl in Ha.
    destruct Ha as (r & _ & _ & Hd). eexists. split; [exact Hd|done].
Qed.

(** X22: when the dense search finds nothing, the route builds its
    context from the lexical results alone: at most 25 messages, each
    with the placeholder distance 0.5 and its document as original
    message; so the confidence of the answer is decided by the number
    of lexical hits alone, high from 5 on. *)
Theorem ask_context_without_dense (question : string)
    (semantic_results : SearchResults) (w : World) :
  retriever_ready (w_self w) →
  s_ids semantic_results = [] →
  ∃ context w',
    ask question semantic_results w = (Done context, w')
    ∧ w_self w' = w_self w
    ∧ (length context ≤ 25)%nat
    ∧ Forall (λ msg, c_distance msg = Some (1 # 2)
                     ∧ c_original_message msg = c_document msg) context
    ∧ _determine_confidence context
      = if (5 <=? length context)%nat then "high"%string
        else if (3 <=? length context)%nat then "medium"%string
             else "low"%string.
Proof.
  intros Hready Hids. destruct w as [self h]. simpl in Hready.
  destruct (hybrid_search_placeholder_distances self h question (6 # 10) 25
              Hready ltac:(lia)) as (results & h' & Hrun & Hlen & Hres).
  unfold ask_context. rewrite Hids. simpl.
  rewrite (right_id_L [] (++)), Hrun. simpl.
  rewrite context_messages_no_dense.
  assert (Hctx : Forall (λ msg, c_distance msg = Some (1 # 2)
                                ∧ c_original_message msg = c_document msg)
                        (map (λ a, context_message_of None (h' !!! a)) results)).
  { apply Forall_map. eapply Forall_impl; [exact Hres|].
    intros a (d & Hd & Hdist). simpl.
    by rewrite (list_lookup_total_correct _ _ _ Hd), Hdist. }
  eexists _, _. split; [done|]. split; [done|].
  split; [by rewrite length_map|]. split; [exact Hctx|].
  apply determine_confidence_placeholder; [|by rewrite length_map].
  eapply Forall_impl; [exact Hctx|]. by intros msg [? _].
Qed.

(** X23: when the dense answer has its four lists of one length and
    no negative distance, the route builds a context on a ready
    retriever without raising: at most 25 messages, each with a
    distance, which is a distance of the dense answer or the
    placeholder 0.5; the default 2.0 of the confidence estimate is
    never used. *)
Theorem ask_context_distances (question : string)
    (semantic_results : SearchResults) (w : World) :
  retriever_ready (w_self w) →
  length (s_documents semantic_results) = length (s_ids semantic_results) →
  length (s_metadatas semantic_results) = length (s_ids semantic_results) →
  length (s_distances semantic_results) = length (s_ids semantic_results) →
  Forall (λ x, 0 <= x) (s_distances semantic_results) →
  ∃ context w',
    ask question semantic_results w = (Done context, w')
    ∧ w_self w' = w_self w
    ∧ (length context ≤ 25)%nat
    ∧ Forall (λ msg, ∃ x, c_distance msg = Some x
                          ∧ (x ∈ s_distances semantic_results ∨ x = 1 # 2))
             context.
Proof.
  intros Hready Hdocs Hmds Hdists Hnonneg. destruct w as [self h].
  simpl in Hready.
  destruct (semantic_result_dicts_spec semantic_results
              (seq 0 (length (s_ids semantic_results))) Hdocs Hmds Hdists)
    as (dicts & Hdicts & Hall).
  { apply Forall_forall. intros i Hi%elem_of_seq. lia. }
  set (h0 := h ++ dicts).
  set (dense := seq (length h) (length dicts)).
  assert (Hdense : Forall (λ r, (r < length h0)%nat
                                ∧ d_id (h0 !!! r) ∈ s_ids semantic_results
                                ∧ ∃ x, d_distance (h0 !!! r) = Some x
                                       ∧ x ∈ s_distances semantic_results)
                          dense).
  { apply Forall_forall. intros r Hr%elem_of_seq.
    assert (Hlook : is_Some (dicts !! (r - length h)%nat))
      by (apply lookup_lt_is_Some; lia).
    destruct Hlook as [d Hd].
    destruct (Forall2_lookup_r _ _ _ _ _ Hall Hd) as (i & _ & Hi).
    assert (Hr0 : h0 !! r = Some d).
    { unfold h0. rewrite lookup_app_r by lia. exact Hd. }
    rewrite (list_lookup_total_correct _ _ _ Hr0).
    split; [unfold h0; rewrite length_app; lia|].
    by apply semantic_result_dict_Ok in Hi. }
  assert (Hvalid : Forall (λ r, (r < length h0)%nat) dense).
  { eapply Forall_impl; [exact Hdense|]. by intros r [? _]. }
  assert (Hdist : Forall (λ r, 0 <= default 2 (d_distance (h0 !!! r))) dense).
  { eapply Forall_impl; [exact Hdense|]. intros r (_ & _ & x & -> & Hx).
    simpl. rewrite Forall_forall in Hnonneg. by apply Hnonneg. }
  destruct (search_bm25_ready isoformat bm25_score self question 100 true
              Hready) as (bm25_results & Hrun).
  assert (Hrun1 : (search_bm25 isoformat bm25_score question 100 true self).1
                  = Ok bm25_results)
    by (by rewrite Hrun).
  destruct (hybrid_search_spec isoformat bm25_score self h0 question
              dense (6 # 10) 25 bm25_results Hrun1 Hvalid Hdist)
    as (semantic_scores0 & bm25_scores & semantic_scores & _ & _ & _
        & _ & _ & _ & _ & Hfuse).
  cbv zeta in Hfuse.
  destruct Hfuse as (Hfuse & _ & Hlen & Hid & _ & Hres).
  set (all_ids := elements (dom bm25_scores ∪ dom semantic_scores)) in *.
  set (combined_scores :=
         combine (6 # 10) bm25_scores semantic_scores all_ids) in *.
  set (ids := sorted_ids combined_scores all_ids 25) in *.
  set (st := result_loop dense bm25_results combined_scores bm25_scores
                         semantic_scores h0 ids) in *.
  assert (Hfind : ∀ msg_id,
            find_semantic st.1 dense msg_id = find_semantic h0 dense msg_id).
  { intros msg_id. apply find_semantic_ext.
    eapply Forall_impl; [exact Hvalid|]. intros r Hr. by apply Hid. }
  destruct (context_messages_spec st.1 semantic_results dense st.2
              (λ msg, ∃ x, c_distance msg = Some x
                           ∧ (x ∈ s_distances semantic_results ∨ x = 1 # 2)))
    as (context & Hctx & Hclen & Hcall).
  { eapply Forall2_Forall_right; [|exact Hres].
    intros msg_id a Ha.
    pose proof (result_of_fields _ _ _ _ _ _ _ _ _ Ha)
      as (d & Hd & Hdid & _).
    rewrite (list_lookup_total_correct _ _ _ Hd).
    unfold find_metadata. rewrite Hdid, Hfind.
    unfold result_of in Ha.
    destruct (find_semantic h0 dense msg_id) as [r|] eqn:Hr.
    - destruct Ha as [-> Ha]. rewrite Hd in Ha. injection Ha as ->.
      apply find_semantic_Some in Hr as [Hr _].
      rewrite Forall_forall in Hdense.
      destruct (Hdense r Hr) as (Hlt & Hin & x & Hx & Hxin).
      rewrite (Hid r Hlt).
      destruct (index_Some _ _ Hin) as (idx & -> & Hidx).
      destruct (lookup_lt_is_Some_2 (s_metadatas semantic_results) idx
                  ltac:(lia)) as [md ->].
      exists (Some md). split; [done|].
      exists x. simpl. rewrite Hx. split; [done|by left].
    - destruct Ha as (r & _ & _ & Ha). rewrite Hd in Ha. injection Ha as ->.
      exists None. split; [done|]. exists (1 # 2). split; [done|by right]. }
  unfold ask_context. simpl. rewrite Hdicts. fold h0 dense.
  rewrite Hfuse. exists context, {| w_self := self; w_heap := st.1 |}.
  split; [simpl; by rewrite Hctx|]. split; [done|]. split; [|exact Hcall].
  rewrite Hclen, <- (Forall2_length _ _ _ Hres).
  by apply (slice_to_length 25).
Qed.

End RouteProperties.

Lemma ask_context_without_dense_witness :
  let nothing := {| s_ids := []; s_documents := []; s_metadatas := [];
                    s_distances := [] |} in
  retriever_ready (w_self sample_world)
  ∧ s_ids nothing = []
  ∧ ∃ context w',
      ask_context sample_isoformat term_count_score "london" nothing
                  sample_world
      = (Done context, w')
      ∧ Forall (λ msg, c_distance msg = Some (1 # 2)) context.
Proof.
  intros nothing. split; [exact sample_retriever_ready|]. split; [done|].
  destruct (ask_context_without_dense sample_isoformat term_count_score
              "london" nothing sample_world sample_retriever_ready eq_refl)
    as (context & w' & Hrun & _ & _ & Hctx & _).
  exists context, w'. split; [exact Hrun|].
  eapply Forall_impl; [exact Hctx|]. intros msg [H _]. exact H.
Defined.

Lemma ask_context_distances_witness :
  let found :=
    {| s_ids := ["m0"; "m2"]%string;
       s_documents := ["Layla (May 01, 2024): Trip to London";
                       "Omar (May 01, 2024): Dinner in Paris"]%string;
       s_metadatas :=
         [ {| md_user_id := "Layla"; md_user_name := "Layla";
              md_timestamp := "2024-05-01T10:00:00";
              md_original_message := "Trip to London" |};
           {| md_user_id := "Omar"; md_user_name := "Omar";
              md_timestamp := "2024-05-01T10:00:00";
              md_original_message := "Dinner in Paris" |} ];
       s_distances := [1 # 5; 4 # 5] |} in
  retriever_ready sample_retriever
  ∧ Forall (λ x, 0 <= x) (s_distances found)
  ∧ ∃ context w',
      ask_context sample_isoformat term_count_score "london" found
                  {| w_self := sample_retriever; w_heap := [] |}
      = (Done context, w')
      ∧ (length context ≤ 25)%nat.
Proof.
  intros found.
  assert (Hnonneg : Forall (λ x, 0 <= x) (s_distances found))
    by (repeat constructor; discriminate).
  split; [exact sample_retriever_ready|]. split; [exact Hnonneg|].
  destruct (ask_context_distances sample_isoformat term_count_score "london"
              found {| w_self := sample_retriever; w_heap := [] |}
              sample_retriever_ready eq_refl eq_refl eq_refl Hnonneg)
    as (context & w' & Hrun & _ & Hlen & _).
  exists context, w'. split; [exact Hrun|exact Hlen].
Defined.

Lemma search_bm25_negative_top_k_witness :
  index_messages sample_corpus HybridRetriever_init = (Ok tt, sample_retriever)
  ∧ (-4 < 0)%Z
  ∧ search_bm25 sample_isoformat term_count_score "london" (-4) true
                sample_retriever
    = search_bm25 sample_isoformat term_count_score "london" 1 true
                  sample_retriever.
Proof.
  split; [exact sample_corpus_indexed|]. split; [lia|].
  exact (search_bm25_negative_top_k sample_isoformat term_count_score _ _
           sample_corpus "london" (-4) true sample_corpus_indexed
           ltac:(lia)).
Defined.

Lemma search_after_failed_reindex_witness :
  index_messages sample_corpus HybridRetriever_init = (Ok tt, sample_retriever)
  ∧ (1 ≤ 100)%Z
  ∧ ∃ self',
      index_messages [] sample_retriever = (Raise ZeroDivisionError, self')
      ∧ is_indexed self' = true
      ∧ search_bm25 sample_isoformat term_count_score "london" 100 true self'
        = (Raise IndexError, self').
Proof.
  split; [exact sample_corpus_indexed|]. split; [lia|].
  apply (search_after_failed_reindex sample_isoformat term_count_score _ _
           sample_corpus "london" 100 true sample_corpus_indexed
           ltac:(lia)).
  apply Exists_cons_hd. vm_compute. reflexivity.
Defined.
